(** * Citation matching and highlighting in the PDF pane

    A shallow embedding of the citation-to-text engine of the document
    chat front end:

    - [PdfPane] follows the full-document controller (the [PdfPane]
      component whose [jumpTo] searches every page, file
      [src/unnamed/part_000]);
    - [HintedPane] follows the near-duplicate [PdfPane] component that is
      appended to [src/src/components/ChatPane.jsx], whose [jumpTo] trusts
      the page hint;
    - [JsString] holds the string primitives both use.

    JavaScript strings are sequences of UTF-16 code units.  The embedding
    covers the code units U+0000..U+00FF, written as [list ascii]; on that
    range [\s], [\w], [trim] and [toLowerCase] are given below exactly as
    ECMAScript defines them. *)

From Stdlib Require Import Ascii String.
From stdpp Require Import base option list gmap.

Open Scope list_scope.

Abbreviation jsstring := (list ascii).

(** A string literal as a JavaScript string. *)
Definition js (s : string) : jsstring := list_ascii_of_string s.

(** ** String primitives *)
Module JsString.

Definition code (c : ascii) : nat := nat_of_ascii c.

(** [\s]: TAB, LF, VT, FF, CR, SPACE and NBSP are the white space and
    line terminator code units below U+0100. *)
Definition is_space (c : ascii) : bool :=
  let n := code c in
  ((9 <=? n) && (n <=? 13)) || (n =? 32) || (n =? 160).

(** [\w] is [[A-Za-z0-9_]]. *)
Definition is_word (c : ascii) : bool :=
  let n := code c in
  ((65 <=? n) && (n <=? 90)) || ((97 <=? n) && (n <=? 122))
  || ((48 <=? n) && (n <=? 57)) || (n =? 95).

Definition space : ascii := ascii_of_nat 32.

(** [String.prototype.toLowerCase] on one code unit: A-Z and the
    Latin-1 capitals U+00C0..U+00DE (without the multiplication sign
    U+00D7) move up by 32; everything else below U+0100 is unchanged. *)
Definition lower_char (c : ascii) : ascii :=
  let n := code c in
  if ((65 <=? n) && (n <=? 90))
     || ((192 <=? n) && (n <=? 222) && negb (n =? 215))
  then ascii_of_nat (n + 32) else c.

Definition toLowerCase (s : jsstring) : jsstring := map lower_char s.

(** [s.replace(/\s+/g, " ")]: every maximal run of white space becomes
    one SPACE.  [in_run] tells that the previous code unit was white
    space, so that the run has already been replaced. *)
Fixpoint collapse_from (in_run : bool) (s : jsstring) : jsstring :=
  match s with
  | [] => []
  | c :: s' =>
      if is_space c
      then (if in_run then collapse_from true s'
            else space :: collapse_from true s')
      else c :: collapse_from false s'
  end.

Definition collapse_ws (s : jsstring) : jsstring := collapse_from false s.

(** [s.replace(/[^\w\s]/g, " ")] *)
Definition punct_to_space (s : jsstring) : jsstring :=
  map (fun c => if is_word c || is_space c then c else space) s.

(** [s.replace(/[^\w\s]/g, '')] *)
Definition strip_punct (s : jsstring) : jsstring :=
  List.filter (fun c => is_word c || is_space c) s.

Fixpoint trimStart (s : jsstring) : jsstring :=
  match s with
  | [] => []
  | c :: s' => if is_space c then trimStart s' else s
  end.

Definition trimEnd (s : jsstring) : jsstring := rev (trimStart (rev s)).

(** [s.trim()] *)
Definition trim (s : jsstring) : jsstring := trimEnd (trimStart s).

(** [parts.join(" ")] *)
Fixpoint join (parts : list jsstring) : jsstring :=
  match parts with
  | [] => []
  | [s] => s
  | s :: rest => s ++ space :: join rest
  end.

Definition ascii_eqb (a b : ascii) : bool := Ascii.eqb a b.

(** [s.startsWith(needle)] *)
Fixpoint startsWith (needle s : jsstring) : bool :=
  match needle, s with
  | [], _ => true
  | _ :: _, [] => false
  | a :: needle', b :: s' => ascii_eqb a b && startsWith needle' s'
  end.

(** [s.indexOf(needle)]; [None] stands for the result [-1]. *)
Fixpoint indexOf (needle s : jsstring) : option nat :=
  if startsWith needle s then Some 0
  else match s with
       | [] => None
       | _ :: s' => S <$> indexOf needle s'
       end.

(** [s.includes(needle)] *)
Definition includes (needle s : jsstring) : bool :=
  bool_decide (is_Some (indexOf needle s)).

(** [s.substring(0, n)] for [0 <= n] *)
Definition substring0 (n : nat) (s : jsstring) : jsstring := take n s.

(** [s.slice(a, b)] for [0 <= a] and [0 <= b] *)
Definition slice (a b : nat) (s : jsstring) : jsstring :=
  take (b - a) (drop a s).

(** [s.split(" ")] *)
Fixpoint split_from (cur : jsstring) (s : jsstring) : list jsstring :=
  match s with
  | [] => [rev cur]
  | c :: s' =>
      if ascii_eqb c space then rev cur :: split_from [] s'
      else split_from (c :: cur) s'
  end.

Definition split_space (s : jsstring) : list jsstring := split_from [] s.

End JsString.

Import JsString.

(** ** Values and completions *)

(** What a caller may pass where a string is expected: the citation's
    [quote] is [undefined], [null] or a string. *)
Inductive JsVal :=
  | JUndefined
  | JNull
  | JStr (s : jsstring).

(** [ToBoolean]: [undefined], [null] and the empty string are falsy. *)
Definition truthy (v : JsVal) : bool :=
  match v with
  | JStr (_ :: _) => true
  | _ => false
  end.

(** [v || ''] *)
Definition or_empty (v : JsVal) : jsstring :=
  match v with
  | JStr s => s
  | _ => []
  end.

(** A call either returns or throws a [TypeError]. *)
Inductive Completion (A : Type) :=
  | Normal (a : A)
  | ThrowTypeError.
Arguments Normal {A} a.
Arguments ThrowTypeError {A}.

#[export] Instance completion_ret : MRet Completion := fun A a => Normal a.

#[export] Instance completion_bind : MBind Completion := fun A B k c =>
  match c with
  | Normal a => k a
  | ThrowTypeError => ThrowTypeError
  end.

(** Reading a property ([v.toLowerCase], [v.substring]) of [undefined] or
    [null] throws; on a string it gives the receiver. *)
Definition receiver (v : JsVal) : Completion jsstring :=
  match v with
  | JStr s => Normal s
  | _ => ThrowTypeError
  end.

(** ** The three normalizers *)

(** [norm], [part_000:204] and [ChatPane.jsx:385]:
    [(s || '').replace(/\s+/g, ' ').trim().toLowerCase()] *)
Definition norm (s : JsVal) : Completion jsstring :=
  Normal (toLowerCase (trim (collapse_ws (or_empty s)))).

(** [norm] of a string, as a value. *)
Definition norm_str (s : jsstring) : jsstring :=
  toLowerCase (trim (collapse_ws s)).

(** [normalize], [ChatPane.jsx:19]:
    [(s || '').toLowerCase().replace(/[^\w\s]/g, '').replace(/\s+/g, ' ').trim()] *)
Definition normalize (s : JsVal) : Completion jsstring :=
  Normal (trim (collapse_ws (strip_punct (toLowerCase (or_empty s))))).

(** [normalizeText] on a string receiver, [part_000:237]:
    [text.toLowerCase().replace(/\s+/g, ' ').replace(/[^\w\s]/g, ' ').trim()] *)
Definition normalizeText_str (text : jsstring) : jsstring :=
  trim (punct_to_space (collapse_ws (toLowerCase text))).

(** [normalizeText]: the receiver is not guarded. *)
Definition normalizeText (text : JsVal) : Completion jsstring :=
  t ← receiver text; Normal (normalizeText_str t).

(** ** The full-document pane ([src/unnamed/part_000]) *)
Module PdfPane.

(** One [span] of a page's text layer.  Besides its text the code
    touches the attribute [data-pdf-highlight], [style.backgroundColor],
    and, when marking only, [style.borderRadius], [style.padding] and
    [style.border] (here [framed]). *)
Record Span := mkSpan {
  textContent : jsstring;
  data_pdf_highlight : bool;
  backgroundColor : bool;
  framed : bool
}.

(** A page's host element: [textLayer] is the result of
    [host.querySelector(".react-pdf__Page__textContent")], with the
    layer's [span]s in document order. *)
Record PageHost := mkHost { textLayer : option (list Span) }.

(** The component's state: the [pageRefs] map, [numPages] ([null]
    until a document has loaded) and the [pageTextsRef] cache. *)
Record Pane := mkPane {
  pageRefs : gmap nat PageHost;
  numPages : option nat;
  pageTextsRef : gmap nat jsstring
}.

(** [numPages || d] *)
Definition numPages_or (d : nat) (pane : Pane) : nat :=
  match numPages pane with
  | Some (S n) => S n
  | _ => d
  end.

(** *** highlightQuote *)

(** The callback of the clearing [forEach], applied to the elements
    that match [[data-pdf-highlight]]. *)
Definition clearSpan (el : Span) : Span :=
  if data_pdf_highlight el
  then {| textContent := textContent el; data_pdf_highlight := false;
          backgroundColor := false; framed := framed el |}
  else el.

Definition markSpan (el : Span) : Span :=
  {| textContent := textContent el; data_pdf_highlight := true;
     backgroundColor := true; framed := true |}.

(** An entry of [spanMap]. *)
Record SpanEntry := mkEntry {
  element : Span;
  text : jsstring;
  normalized : jsstring
}.

Definition spanEntry (span : Span) : SpanEntry :=
  {| element := span; text := textContent span;
     normalized := normalizeText_str (textContent span) |}.

(** [searchLengths = [1.0, 0.75, 0.5]] *)
Inductive Ratio := Ratio100 | Ratio75 | Ratio50.

Definition searchLengths : list Ratio := [Ratio100; Ratio75; Ratio50].

(** [Math.floor(searchQuery.length * ratio)]; the products are exact
    in double precision, so the floor is the integer quotient. *)
Definition searchLength (ratio : Ratio) (len : nat) : nat :=
  match ratio with
  | Ratio100 => len
  | Ratio75 => (3 * len) / 4
  | Ratio50 => len / 2
  end.

(** The [for (const ratio of searchLengths)] loop up to its [break]:
    the first ratio whose prefix occurs in [combinedNormalized], with
    [matchIndex] and [searchText]. *)
Fixpoint ratioSearch (ratios : list Ratio) (searchQuery combinedNormalized : jsstring)
  : option (Ratio * nat * jsstring) :=
  match ratios with
  | [] => None
  | ratio :: rest =>
      let searchText := substring0 (searchLength ratio (length searchQuery)) searchQuery in
      match indexOf searchText combinedNormalized with
      | Some matchIndex => Some (ratio, matchIndex, searchText)
      | None => ratioSearch rest searchQuery combinedNormalized
      end
  end.

(** The inner [for (let i = 0; i < spanMap.length; i++)] loop, started
    at offset [currentPos]: the spans after marking, and the number of
    spans marked. *)
Fixpoint markOverlapping (currentPos matchIndex matchEnd : nat) (spanMap : list SpanEntry)
  : list Span * nat :=
  match spanMap with
  | [] => ([], 0)
  | span :: rest =>
      let spanStart := currentPos in
      let spanEnd := currentPos + length (normalized span) + 1 in
      let '(rest', highlightedSpans) := markOverlapping spanEnd matchIndex matchEnd rest in
      if (spanStart <? matchEnd) && (matchIndex <? spanEnd)
      then (markSpan (element span) :: rest', S highlightedSpans)
      else (element span :: rest', highlightedSpans)
  end.

(** The gate of line 254. *)
Definition gate (searchQuery fullPageText : jsstring) : bool :=
  includes (substring0 (min 15 (length searchQuery)) searchQuery) fullPageText.

Definition setLayer (p : nat) (spans : list Span) (refs : gmap nat PageHost)
  : gmap nat PageHost :=
  <[p := mkHost (Some spans)]> refs.

(** [highlightQuote(p, quote)]: the page elements afterwards and the
    returned boolean. *)
Definition highlightQuote (p : nat) (quote : JsVal) (refs : gmap nat PageHost)
  : Completion (gmap nat PageHost * bool) :=
  match refs !! p with
  | None => Normal (refs, false)
  | Some host =>
      (* quote.substring(0, 50) of the log line *)
      q ← receiver quote;
      match textLayer host with
      | None => Normal (refs, false)
      | Some layer =>
          (* clear any existing highlights of this text layer *)
          let spans := clearSpan <$> layer in
          if length spans =? 0 then Normal (setLayer p spans refs, false)
          else
            let spanMap := spanEntry <$> spans in
            let fullPageText := join (normalized <$> spanMap) in
            searchQuery ← normalizeText (JStr q);
            if negb (gate searchQuery fullPageText)
            then Normal (setLayer p spans refs, false)
            else
              let combinedText := join (text <$> spanMap) in
              let combinedNormalized := normalizeText_str combinedText in
              match ratioSearch searchLengths searchQuery combinedNormalized with
              | Some (_, matchIndex, searchText) =>
                  let matchEnd := matchIndex + length searchText in
                  let '(spans', highlightedSpans) :=
                    markOverlapping 0 matchIndex matchEnd spanMap in
                  Normal (setLayer p spans' refs, 0 <? highlightedSpans)
              | None => Normal (setLayer p spans refs, false)
              end
      end
  end.

(** *** jumpTo *)

(** The argument of [jumpTo]: [{ page: target, quote, searchPages }]. *)
Record Citation := mkCitation {
  page : option nat;
  quote : JsVal;
  searchPages : option (list nat)
}.

(** What [jumpTo] does besides changing the spans. *)
Inductive Effect :=
  | ScrollIntoView (p : nat)
    (** [el.scrollIntoView({ behavior: "smooth", block: "center" })] now *)
  | RingAndScrollAfter (ms p hold : nat)
    (** [setTimeout] of [ms]: ring page [p], scroll it into view and
        drop the ring [hold] ms later *)
  | LogQuoteNotFound
    (** [console.log("Quote not found on any page")] *).

(** [pageRefs.current.get(1)] followed by the guarded scroll. *)
Definition scrollToFirst (refs : gmap nat PageHost) : list Effect :=
  match refs !! 1 with
  | Some _ => [ScrollIntoView 1]
  | None => []
  end.

(** The page loop, over the page numbers still to visit: the page
    elements afterwards and [foundPage]. *)
Fixpoint searchLoop (pageNums : list nat) (quote : JsVal) (refs : gmap nat PageHost)
  : Completion (gmap nat PageHost * option nat) :=
  match pageNums with
  | [] => Normal (refs, None)
  | pageNum :: rest =>
      match refs !! pageNum with
      | None => searchLoop rest quote refs
      | Some _ =>
          '(refs', success) ← highlightQuote pageNum quote refs;
          if (success : bool) then Normal (refs', Some pageNum)
          else searchLoop rest quote refs'
      end
  end.

Definition withRefs (pane : Pane) (refs : gmap nat PageHost) : Pane :=
  {| pageRefs := refs; numPages := numPages pane; pageTextsRef := pageTextsRef pane |}.

Definition jumpTo (c : Citation) (pane : Pane) : Completion (Pane * list Effect) :=
  if negb (truthy (quote c))
  then Normal (pane, scrollToFirst (pageRefs pane))
  else
    '(refs', foundPage) ← searchLoop (seq 1 (numPages_or 1 pane)) (quote c) (pageRefs pane);
    match foundPage with
    | Some found =>
        Normal (withRefs pane refs', [RingAndScrollAfter 100 found 3000])
    | None =>
        Normal (withRefs pane refs', LogQuoteNotFound :: scrollToFirst refs')
    end.

(** The page [jumpTo] selected, read off its effects. *)
Definition selectedPage (effects : list Effect) : option nat :=
  match effects with
  | [RingAndScrollAfter _ p _] => Some p
  | _ => None
  end.

(** *** Text extraction *)

(** The text [extractText] and [forceTextExtraction] read off a layer. *)
Definition layerText (layer : list Span) : jsstring :=
  join (textContent <$> layer).

(** [extractText()] of [onPageRender(p)]: the cache afterwards and the
    returned boolean. *)
Definition extractText (p : nat) (host : PageHost) (cache : gmap nat jsstring)
  : gmap nat jsstring * bool :=
  match textLayer host with
  | Some layer =>
      let text := layerText layer in
      if 0 <? length (trim text) then (<[p := text]> cache, true)
      else (cache, false)
  | None => (cache, false)
  end.

(** A timer set by [onPageRender]. *)
Inductive Timer := RetryExtract (ms p : nat).

Definition withCache (pane : Pane) (cache : gmap nat jsstring) : Pane :=
  {| pageRefs := pageRefs pane; numPages := numPages pane; pageTextsRef := cache |}.

(** [onPageRender(p)] up to its return: the immediate attempt and the
    timer it leaves behind.  The width calibration done for page 1 does
    not touch the state modelled here. *)
Definition onPageRender (p : nat) (pane : Pane) : Pane * list Timer :=
  match pageRefs pane !! p with
  | None => (pane, [])
  | Some host =>
      let '(cache, ok) := extractText p host (pageTextsRef pane) in
      (withCache pane cache, if ok then [] else [RetryExtract 100 p])
  end.

(** The timer's callback: one more [extractText()] on the host element
    of page [p] (the callback holds the element that [pageRefs] has
    under [p]), no further timer. *)
Definition fire (t : Timer) (pane : Pane) : Pane * list Timer :=
  match t with
  | RetryExtract _ p =>
      match pageRefs pane !! p with
      | None => (pane, [])
      | Some host => (withCache pane (extractText p host (pageTextsRef pane)).1, [])
      end
  end.

(** An entry [{ page, text }] of [getPageTexts()]. *)
Record PageTextEntry := mkPageText { entryPage : nat; entryText : jsstring }.

(** [getPageTexts()] *)
Definition getPageTexts (pane : Pane) : list PageTextEntry :=
  (fun i => mkPageText i (default [] (pageTextsRef pane !! i)))
    <$> seq 1 (numPages_or 0 pane).

(** [forceTextExtraction()] *)
Definition forceTextExtraction (pane : Pane) : Pane :=
  withCache pane
    (foldl (fun (cache : gmap nat jsstring) (i : nat) =>
              match pageRefs pane !! i with
              | Some host =>
                  match textLayer host with
                  | Some layer => <[i := layerText layer]> cache
                  | None => cache
                  end
              | None => cache
              end)
           (pageTextsRef pane) (seq 1 (numPages_or 0 pane))).

End PdfPane.
(** ** The hint-trusting pane (second component of [ChatPane.jsx]) *)
Module HintedPane.

(** [style.background] of an element: never set, reset to
    ["transparent"] by the clearing loop, or the highlight colour. *)
Inductive Background := BgUnset | BgTransparent | BgYellow.

(** What the code reads and writes of an element of the text layer;
    [padded] stands for [style.borderRadius] and [style.padding]. *)
Record Span := mkSpan {
  textContent : jsstring;
  data_hl : bool;
  background : Background;
  padded : bool
}.

(** An element child of the text layer: a [span], or another element
    such as the [br] that pdf.js puts at the end of a line.
    [querySelectorAll("span")] sees the former only; the clearing loop
    and the siblings that [highlightSpan] reaches can be either.  The
    layer's spans are taken to be children of the layer. *)
Record Element := mkElement { isSpan : bool; node : Span }.

Record PageHost := mkHost { textLayer : option (list Element) }.

Record Pane := mkPane {
  pageRefs : gmap nat PageHost;
  numPages : option nat;
  pageTextsRef : gmap nat jsstring
}.

Definition numPages_or (d : nat) (pane : Pane) : nat :=
  match numPages pane with
  | Some (S n) => S n
  | _ => d
  end.

(** The callback of the clearing [forEach] on [[data-hl='1']]. *)
Definition clearSpan (n : Span) : Span :=
  if data_hl n
  then {| textContent := textContent n; data_hl := false;
          background := BgTransparent; padded := padded n |}
  else n.

Definition clearElement (n : Element) : Element :=
  mkElement (isSpan n) (clearSpan (node n)).

(** The callback of the [forEach] of [highlightSpan]. *)
Definition markSpan (s : Span) : Span :=
  {| textContent := textContent s; data_hl := true;
     background := BgYellow; padded := true |}.

Definition markElement (s : Element) : Element :=
  mkElement (isSpan s) (markSpan (node s)).

(** [Array.from(tl.querySelectorAll("span"))] *)
Definition spansOf (children : list Element) : list Span :=
  node <$> List.filter isSpan children.

(** The positions, among the children of the layer, of its spans;
    [k] is the position of the first child. *)
Fixpoint spanPositions (k : nat) (children : list Element) : list nat :=
  match children with
  | [] => []
  | child :: rest =>
      if isSpan child then k :: spanPositions (S k) rest
      else spanPositions (S k) rest
  end.

(** [highlightSpan(span)] for the [i]-th span of the layer: the span,
    its [previousElementSibling] and its [nextElementSibling], whatever
    elements these are. *)
Definition highlightSpan (i : nat) (children : list Element) : list Element :=
  match spanPositions 0 children !! i with
  | Some k =>
      imap (fun j s =>
              if (S j =? k) || (j =? k) || (j =? S k) then markElement s else s)
           children
  | None => children
  end.

(** [for (const span of spans) if (norm(span.textContent).includes(x))]:
    the index of the first such span. *)
Fixpoint findSpan (x : jsstring) (spans : list Span) : option nat :=
  match spans with
  | [] => None
  | span :: rest =>
      if includes x (norm_str (textContent span)) then Some 0
      else S <$> findSpan x rest
  end.

(** The word loop of strategy 3. *)
Fixpoint findWord (words : list jsstring) (spans : list Span) : option nat :=
  match words with
  | [] => None
  | word :: rest =>
      match findSpan word spans with
      | Some i => Some i
      | None => findWord rest spans
      end
  end.

Definition anchorOf (q : jsstring) : jsstring :=
  slice (length q / 2 - 7) (length q / 2 + 7) q.

Definition wordsOf (q : jsstring) : list jsstring :=
  List.filter (fun w => 3 <? length w) (split_space q).

(** Strategies 1 to 3 in turn: the span to highlight, if any. *)
Definition locate (q : jsstring) (spans : list Span) : option nat :=
  match findSpan q spans with
  | Some i => Some i
  | None =>
      match findSpan (anchorOf q) spans with
      | Some i => Some i
      | None => findWord (wordsOf q) spans
      end
  end.

Definition setLayer (p : nat) (children : list Element) (refs : gmap nat PageHost)
  : gmap nat PageHost :=
  <[p := mkHost (Some children)]> refs.

(** [highlightQuote(p, quote)] *)
Definition highlightQuote (p : nat) (quote : JsVal) (refs : gmap nat PageHost)
  : Completion (gmap nat PageHost * bool) :=
  match refs !! p with
  | None => Normal (refs, false)
  | Some host =>
      match textLayer host with
      | None => Normal (refs, false)
      | Some layer =>
          (* clear previous highlights of this text layer *)
          let children := clearElement <$> layer in
          q ← norm quote;
          if length q =? 0 then Normal (setLayer p children refs, false)
          else
            let spans := spansOf children in
            if length spans =? 0 then Normal (setLayer p children refs, false)
            else
              match locate q spans with
              | Some i => Normal (setLayer p (highlightSpan i children) refs, true)
              | None => Normal (setLayer p children refs, false)
              end
      end
  end.

Record Citation := mkCitation { page : option nat; quote : JsVal }.

Inductive Effect :=
  | AddRing (p : nat)
  | ScrollIntoView (p : nat)
  | RemoveRingAfter (ms p : nat)
  | HighlightAfter (ms p : nat) (quote : JsVal)
    (** [setTimeout(() => highlightQuote(p, quote), ms)] *)
  | LogPageNotFound (p : nat).

(** [Math.min(Math.max(target || 1, 1), numPages || 1)] *)
Definition targetPage (c : Citation) (pane : Pane) : nat :=
  let target_or_1 := match page c with Some (S n) => S n | _ => 1 end in
  min (max target_or_1 1) (numPages_or 1 pane).

(** [jumpTo]: nothing is changed before it returns; the highlight is
    left to a timer. *)
Definition jumpTo (c : Citation) (pane : Pane) : Completion (Pane * list Effect) :=
  let p := targetPage c pane in
  match pageRefs pane !! p with
  | None => Normal (pane, [LogPageNotFound p])
  | Some _ =>
      Normal (pane,
              [AddRing p; ScrollIntoView p; RemoveRingAfter 2000 p]
              ++ (if truthy (quote c) then [HighlightAfter 300 p (quote c)] else []))
  end.

Definition withRefs (pane : Pane) (refs : gmap nat PageHost) : Pane :=
  {| pageRefs := refs; numPages := numPages pane; pageTextsRef := pageTextsRef pane |}.

(** The callback of the [HighlightAfter] timer. *)
Definition fireHighlight (p : nat) (quote : JsVal) (pane : Pane) : Completion Pane :=
  '(refs', _) ← highlightQuote p quote (pageRefs pane);
  Normal (withRefs pane refs').

End HintedPane.

(** ** Notions used in the statements *)

(** Only white space. *)
Definition blank (s : jsstring) : Prop := Forall (fun c => is_space c = true) s.

(** Every white space code unit is a SPACE that does not follow white
    space; [prev_space] tells whether the string continues white space. *)
Fixpoint tidy_from (prev_space : bool) (s : jsstring) : bool :=
  match s with
  | [] => true
  | c :: s' =>
      if is_space c
      then negb prev_space && ascii_eqb c space && tidy_from true s'
      else tidy_from false s'
  end.

(** Neither end is white space. *)
Definition trimmed (s : jsstring) : Prop :=
  trimStart s = s /\ trimStart (rev s) = rev s.

Module PdfPaneFacts.
Import PdfPane.

(** What one span adds to [currentPos]. *)
Definition spanLen (e : SpanEntry) : nat := length (normalized e) + 1.

(** [spanStart] of the span at index [i]: the sum over the spans
    before it. *)
Definition spanStartAt (spanMap : list SpanEntry) (i : nat) : nat :=
  sum_list_with spanLen (take i spanMap).

(** The half-open range [[spanStart, spanEnd)] of span [i] meets
    [[matchIndex, matchEnd)]. *)
Definition overlaps (matchIndex matchEnd : nat) (spanMap : list SpanEntry)
    (i : nat) (e : SpanEntry) : bool :=
  (spanStartAt spanMap i <? matchEnd)
  && (matchIndex <? spanStartAt spanMap i + spanLen e).

(** The spans of page [p], none when the page has no host element or
    no text layer. *)
Definition layerOf (refs : gmap nat PageHost) (p : nat) : list Span :=
  default [] (refs !! p ≫= textLayer).

(** Some span of page [p] carries [data-pdf-highlight]. *)
Definition highlightedOn (refs : gmap nat PageHost) (p : nat) : bool :=
  existsb data_pdf_highlight (layerOf refs p).

(** The boolean [highlightQuote(p, quote)] returns for a string. *)
Definition quoteFound (p : nat) (q : jsstring) (refs : gmap nat PageHost) : bool :=
  match highlightQuote p (JStr q) refs with
  | Normal (_, success) => success
  | ThrowTypeError => false
  end.

(** [extractText] finds nothing to store for this host. *)
Definition unpopulated (host : PageHost) : Prop :=
  match textLayer host with
  | Some layer => trim (layerText layer) = []
  | None => True
  end.

(** The strings [highlightQuote] builds from a (cleared) layer. *)
Definition spanMapOf (layer : list Span) : list SpanEntry :=
  spanEntry <$> (clearSpan <$> layer).

Definition fullPageTextOf (layer : list Span) : jsstring :=
  join (normalized <$> spanMapOf layer).

Definition combinedNormalizedOf (layer : list Span) : jsstring :=
  normalizeText_str (join (text <$> spanMapOf layer)).

(** What [highlightQuote] makes of a text layer for the string [q]:
    the spans afterwards and the returned boolean. *)
Definition pageOutcome (q : jsstring) (layer : list Span) : list Span * bool :=
  if gate (normalizeText_str q) (fullPageTextOf layer)
  then match ratioSearch searchLengths (normalizeText_str q)
               (combinedNormalizedOf layer) with
       | Some (_, matchIndex, searchText) =>
           let r := markOverlapping 0 matchIndex
                      (matchIndex + length searchText) (spanMapOf layer) in
           (r.1, 0 <? r.2)
       | None => (clearSpan <$> layer, false)
       end
  else (clearSpan <$> layer, false).

(** A host element after [highlightQuote] has gone over it. *)
Definition afterVisit (q : jsstring) (host : PageHost) : PageHost :=
  match textLayer host with
  | Some layer => mkHost (Some (pageOutcome q layer).1)
  | None => host
  end.

(** The first of [pageNums] on which [highlightQuote] succeeds, each
    page taken as it is in [refs]. *)
Fixpoint firstFound (q : jsstring) (refs : gmap nat PageHost) (pageNums : list nat)
  : option nat :=
  match pageNums with
  | [] => None
  | p :: rest => if quoteFound p q refs then Some p else firstFound q refs rest
  end.

(** The pages of [pageNums] up to and including that one. *)
Fixpoint visited (q : jsstring) (refs : gmap nat PageHost) (pageNums : list nat)
  : list nat :=
  match pageNums with
  | [] => []
  | p :: rest => if quoteFound p q refs then [p] else p :: visited q refs rest
  end.

End PdfPaneFacts.

(** ** Sample documents *)

Module Samples.
Import PdfPane PdfPaneFacts.
Local Open Scope string_scope.

Definition plain (s : string) : Span :=
  {| textContent := js s; data_pdf_highlight := false;
     backgroundColor := false; framed := false |}.

Definition pageOf (texts : list string) : PageHost :=
  mkHost (Some (plain <$> texts)).

(** Pages 1, 2, ... with the given span texts, all mounted. *)
Definition docOf (pages : list (list string)) : gmap nat PageHost :=
  list_to_map (imap (fun i texts => (S i, pageOf texts)) pages).

Definition paneOf (pages : list (list string)) : Pane :=
  {| pageRefs := docOf pages; numPages := Some (length pages);
     pageTextsRef := ∅ |}.

(** Five pages; the clause is on pages 2 and 5. *)
Definition contract : Pane :=
  paneOf [ ["Master agreement"];
           ["the term shall be"; "12 months"];
           ["Fees are due monthly"];
           ["Notices in writing"];
           ["the term shall be 12 months unless terminated"] ].

Definition clause : jsstring := js "term shall be 12 months".

(** Two pages with one span each. *)
Definition twoPages : Pane := paneOf [ ["alpha"]; ["beta"] ].

(** A page whose spans end and start with punctuation. *)
Definition appendixLayer : list Span :=
  [plain "hello world."; plain "(see appendix) for details"].

Definition appendixQuote : jsstring :=
  js "hello world. (see appendix) for details of the plan".

(** A page rendered with three empty spans. *)
Definition emptyPage : PageHost := pageOf [EmptyString; EmptyString; EmptyString].

(** The same five pages in the hint-trusting pane. *)
Definition hintedPlain (s : string) : HintedPane.Span :=
  {| HintedPane.textContent := js s; HintedPane.data_hl := false;
     HintedPane.background := HintedPane.BgUnset; HintedPane.padded := false |}.

Definition hintedSpan (s : string) : HintedPane.Element :=
  HintedPane.mkElement true (hintedPlain s).

(** The [br] at the end of a line. *)
Definition hintedBr : HintedPane.Element :=
  HintedPane.mkElement false (hintedPlain EmptyString).

Definition hintedContract : HintedPane.Pane :=
  {| HintedPane.pageRefs :=
       list_to_map
         (imap (fun i texts => (S i, HintedPane.mkHost (Some (hintedSpan <$> texts))))
            [ ["Master agreement"];
              ["the term shall be 12 months"];
              ["Fees are due monthly"];
              ["Notices in writing"];
              ["the term shall be 12 months unless terminated"] ]);
     HintedPane.numPages := Some 5;
     HintedPane.pageTextsRef := ∅ |}.

(** Three lines of a text layer as pdf.js lays them out. *)
Definition hintedLines : list HintedPane.Element :=
  [hintedSpan "abc"; hintedBr; hintedSpan "def"; hintedBr; hintedSpan "ghi"].

End Samples.

(** ** Further code of the panes and of their callers *)

(** The first code unit is a [\w] character. *)
Definition starts_word (s : jsstring) : bool :=
  match s with
  | c :: _ => is_word c
  | [] => false
  end.

(** The last code unit is a [\w] character. *)
Definition ends_word (s : jsstring) : bool := starts_word (rev s).

(** The string is what [normalizeText] makes of itself: lower-case
    [\w] characters and SPACEs only. *)
Definition normal_unit (c : ascii) : Prop :=
  c = space \/ (is_word c = true /\ lower_char c = c).

(** [normalizeText] before its [trim]. *)
Definition untrimmed (s : jsstring) : jsstring :=
  punct_to_space (collapse_ws (toLowerCase s)).

(** Both ends are [\w] characters. *)
Definition word_ended (x : jsstring) : Prop :=
  starts_word x = true /\ ends_word x = true.

Module Toolbar.
Import PdfPane.

(** [prev], [part_000:355]: the page shown afterwards and the scroll. *)
Definition prev (page : nat) (pane : Pane) : nat * list Effect :=
  let p := max 1 (page - 1) in
  (p, match pageRefs pane !! p with
      | Some _ => [ScrollIntoView p]
      | None => []
      end).

(** [next], [part_000:361] *)
Definition next (page : nat) (pane : Pane) : nat * list Effect :=
  let p := min (numPages_or 1 pane) (page + 1) in
  (p, match pageRefs pane !! p with
      | Some _ => [ScrollIntoView p]
      | None => []
      end).

End Toolbar.

(** *** The application shell (second component of [api.js]) *)
Module App.
Import PdfPane.

(** [t => t.text && t.text.trim().length > 0] *)
Definition hasText (t : PageTextEntry) : bool :=
  negb (length (entryText t) =? 0) && (0 <? length (trim (entryText t))).

Definition validTexts (texts : list PageTextEntry) : list PageTextEntry :=
  List.filter hasText texts.

(** [pdfRef.current?.getPageTexts?.() || []] *)
Definition pageTextsOf (pdfRef : option Pane) : list PageTextEntry :=
  match pdfRef with
  | Some pane => getPageTexts pane
  | None => []
  end.

(** [refreshPageTexts], [api.js:171]: the pane afterwards and the value
    given to [setPageTexts]. *)
Definition refreshPageTexts (pdfRef : option Pane)
  : option Pane * list PageTextEntry :=
  let pdfRef' := forceTextExtraction <$> pdfRef in
  (pdfRef', validTexts (pageTextsOf pdfRef')).

(** [extractTexts(attempt)] of [handlePdfReady], [api.js:142]; [env k]
    is the pane as it is when attempt [k] runs, and [left] is
    [5 - attempt], the number of attempts that may still follow.  The
    result is the list of delays waited and the value given to
    [setPageTexts]. *)
Fixpoint extractTextsFrom (left attempt : nat) (env : nat -> option Pane)
  : list nat * list PageTextEntry :=
  let valid := validTexts (pageTextsOf (env attempt)) in
  if 0 <? length valid then ([], valid)
  else match left with
       | S left' =>
           let '(delays, texts) := extractTextsFrom left' (attempt + 1) env in
           (attempt * 500 :: delays, texts)
       | 0 => ([], [])
       end.

(** [setTimeout(() => extractTexts(), 1000)] with [attempt = 1] *)
Definition handlePdfReady (env : nat -> option Pane) : list nat * list PageTextEntry :=
  let '(delays, texts) := extractTextsFrom (5 - 1) 1 env in
  (1000 :: delays, texts).

(** [jumpToCitation], [api.js:168]: only [page] and [quote] are passed
    on. *)
Definition jumpToCitation (page : option nat) (quote : JsVal) (pdfRef : option Pane)
  : option (Completion (Pane * list Effect)) :=
  (fun pane => jumpTo (mkCitation page quote None) pane) <$> pdfRef.

End App.

(** *** The chat hook ([useChat.js]) and the chat pane ([ChatPane.jsx]) *)
Module Chat.

(** A citation of the backend's reply. *)
Record BackendCitation := mkBackendCitation {
  page_start : option nat;
  exact_text : JsVal;
  search_pages : option (list nat);
  citation_text : JsVal;
  chunk_id : option nat
}.

Record Response := mkResponse {
  answer : jsstring;
  response_citations : list BackendCitation;
  total_chunks_found : option nat
}.

(** A citation as a message keeps it. *)
Record Chip := mkChip {
  page : option nat;
  exactText : JsVal;
  searchPages : option (list nat);
  chipText : JsVal;
  chunkId : option nat
}.

Inductive Who := System | You | Answer | Error.

Record Message := mkMessage {
  who : Who;
  text : jsstring;
  citations : list Chip;
  totalChunks : option nat;
  isError : bool
}.

Record ChatState := mkChat {
  messages : list Message;
  isLoading : bool;
  error : option jsstring
}.

Definition systemMessage : Message :=
  {| who := System;
     text := js "Upload a PDF on the left, then ask a question here. Citations will be clickable.";
     citations := []; totalChunks := None; isError := false |}.

Definition initial : ChatState :=
  {| messages := [systemMessage]; isLoading := false; error := None |}.

(** [addMessage]: [setMessages(prev => [...prev, message])] *)
Definition addMessage (m : Message) (st : ChatState) : ChatState :=
  {| messages := messages st ++ [m]; isLoading := isLoading st; error := error st |}.

Definition toChip (citation : BackendCitation) : Chip :=
  {| page := page_start citation; exactText := exact_text citation;
     searchPages := search_pages citation; chipText := citation_text citation;
     chunkId := chunk_id citation |}.

(** [sendQuestion] up to its [await]: [None] when it returns at once. *)
Definition sendQuestion_begin (documentId : JsVal) (question : jsstring) (st : ChatState)
  : option ChatState :=
  if (length (trim question) =? 0) || negb (truthy documentId) then None
  else
    let st1 := addMessage {| who := You; text := question; citations := [];
                             totalChunks := None; isError := false |} st in
    Some {| messages := messages st1; isLoading := true; error := None |}.

(** [sendQuestion] after the [await], with the reply of
    [apiService.askQuestion] or the message of the error it threw. *)
Definition sendQuestion_end (reply : Response + jsstring) (st : ChatState) : ChatState :=
  match reply with
  | inl response =>
      let st1 := addMessage {| who := Answer; text := answer response;
                               citations := toChip <$> response_citations response;
                               totalChunks := total_chunks_found response;
                               isError := false |} st in
      {| messages := messages st1; isLoading := false; error := error st1 |}
  | inr message =>
      let st1 := addMessage {| who := Error;
                               text := js "Failed to get answer: " ++ message;
                               citations := []; totalChunks := None;
                               isError := true |}
                   {| messages := messages st; isLoading := isLoading st;
                      error := Some message |} in
      {| messages := messages st1; isLoading := false; error := error st1 |}
  end.

(** A whole [sendQuestion]. *)
Definition sendQuestion (documentId : JsVal) (question : jsstring)
    (reply : Response + jsstring) (st : ChatState) : ChatState :=
  match sendQuestion_begin documentId question st with
  | Some st1 => sendQuestion_end reply st1
  | None => st
  end.

(** [clearChat] *)
Definition clearChat (st : ChatState) : ChatState :=
  {| messages := [systemMessage]; isLoading := isLoading st; error := None |}.

(** The hook together with the number of calls of [sendQuestion] that
    wait at their [await]. *)
Record Running := mkRunning { hook : ChatState; inFlight : nat }.

Definition start : Running := mkRunning initial 0.

(** What runs on the hook's state, one at a time: a call of
    [sendQuestion] up to its [await], the rest of a waiting call once
    [askQuestion] has settled, and [clearChat]. *)
Inductive ChatOp :=
  | Ask (documentId : JsVal) (question : jsstring)
  | Settle (reply : Response + jsstring)
  | Clear.

Definition step (r : Running) (op : ChatOp) : Running :=
  match op with
  | Ask documentId question =>
      match sendQuestion_begin documentId question (hook r) with
      | Some st => mkRunning st (S (inFlight r))
      | None => r
      end
  | Settle reply =>
      match inFlight r with
      | S n => mkRunning (sendQuestion_end reply (hook r)) n
      | 0 => r
      end
  | Clear => mkRunning (clearChat (hook r)) (inFlight r)
  end.

Definition run (ops : list ChatOp) (r : Running) : Running := foldl step r ops.

(** No call of [sendQuestion] and no [clearChat] starts while a call
    waits. *)
Fixpoint orderly (r : Running) (ops : list ChatOp) : bool :=
  match ops with
  | [] => true
  | op :: rest =>
      match op with
      | Settle _ => true
      | _ => inFlight r =? 0
      end && orderly (step r op) rest
  end.

Definition isQuestion (m : Message) : bool :=
  match who m with
  | You => 0 <? length (trim (text m))
  | _ => false
  end.

Definition isReply (m : Message) : bool :=
  match who m with
  | Answer => negb (isError m)
  | Error => isError m
  | _ => false
  end.

(** Questions, each followed by its reply. *)
Fixpoint dialogue (ms : list Message) : bool :=
  match ms with
  | [] => true
  | m1 :: m2 :: rest => isQuestion m1 && isReply m2 && dialogue rest
  | _ => false
  end.

(** The messages after the system message: a dialogue, followed by
    the question that waits for its reply when a call is in flight. *)
Definition transcript_ok (r : Running) : Prop :=
  inFlight r <= 1
  /\ exists rest,
       messages (hook r) = systemMessage :: rest
       /\ match inFlight r with
          | 0 => dialogue rest = true
          | _ => exists asked m,
                   rest = asked ++ [m] /\ dialogue asked = true /\ isQuestion m = true
          end.

(** [send] of the chat pane, [ChatPane.jsx:61]: the question handed to
    [onSendQuestion], if any. *)
Definition send (input : jsstring) (documentId : JsVal) : option jsstring :=
  let q := trim input in
  if length q =? 0 then None
  else if negb (truthy documentId) then None
  else Some q.

(** The click on a citation chip, [ChatPane.jsx:104], handed to
    [jumpToCitation] of the application shell. *)
Definition clickChip (c : Chip) (pdfRef : option PdfPane.Pane)
  : option (Completion (PdfPane.Pane * list PdfPane.Effect)) :=
  App.jumpToCitation (page c) (exactText c) pdfRef.

End Chat.

(** *** Sample quotes ([randomQuoteFromText], [ChatPane.jsx:22]) *)
Module QuoteGen.

(** [[A-Za-z0-9]] *)
Definition is_alnum (c : ascii) : bool :=
  let n := code c in
  ((65 <=? n) && (n <=? 90)) || ((97 <=? n) && (n <=? 122))
  || ((48 <=? n) && (n <=? 57)).

(** [s.replace(/^[^A-Za-z0-9]+/, '')] *)
Fixpoint stripStart (s : jsstring) : jsstring :=
  match s with
  | [] => []
  | c :: s' => if is_alnum c then s else stripStart s'
  end.

(** [s.replace(/[^A-Za-z0-9]+$/, '')] *)
Definition stripEnd (s : jsstring) : jsstring := rev (stripStart (rev s)).

(** [randomQuoteFromText(text, minLen, maxLen)]; [draw1] and [draw2]
    are the values of the two [Math.floor(Math.random() * n)]. *)
Definition randomQuoteFromText (text : JsVal) (minLen maxLen : nat)
    (draw1 draw2 : nat) : jsstring :=
  let clean := trim (collapse_ws (or_empty text)) in
  if length clean =? 0 then []
  else if length clean <=? minLen + 10 then clean
  else
    let len := draw1 + minLen in
    let start := draw2 in
    let snippet := slice start (start + len) clean in
    stripEnd (stripStart snippet).

End QuoteGen.

(** *** Upload and processing state ([useDocumentProcessing],
    [useChat.js:82]) *)
Module DocProcessing.

(** The values of the [status] state the hook's code can name. *)
Inductive Status := Idle | Uploading | Queued | Processing | Ready | Failed.

(** A progress value: a number, [undefined] or [null]. *)
Inductive ProgressVal :=
  | PNum (n : nat)
  | PUndefined
  | PNull.

(** The [document] state. *)
Record Doc := mkDoc { doc_id : JsVal; doc_title : JsVal; doc_status : JsVal }.

Record Hook := mkHook {
  document : option Doc;
  progress : ProgressVal;
  status : Status;
  message : jsstring
}.

(** [useState(null)], [useState(0)], [useState('idle')], [useState('')] *)
Definition initial : Hook := mkHook None (PNum 0) Idle [].

(** [progressMap[newStatus] || 0] *)
Definition progressMap (s : Status) : nat :=
  match s with
  | Uploading => 10
  | Queued => 20
  | Processing => 50
  | Ready => 100
  | Failed => 0
  | Idle => 0
  end.

(** [updateProgress(newStatus, newProgress = null)]: the default also
    stands in for an [undefined] argument. *)
Definition updateProgress (newStatus : Status) (newProgress : ProgressVal)
    (h : Hook) : Hook :=
  let newProgress :=
    match newProgress with PUndefined => PNull | v => v end in
  let h := mkHook (document h) (progress h) newStatus (message h) in
  match newProgress with
  | PNull => mkHook (document h) (PNum (progressMap newStatus)) (status h) (message h)
  | v => mkHook (document h) v (status h) (message h)
  end.

Definition setMessage (m : jsstring) (h : Hook) : Hook :=
  mkHook (document h) (progress h) (status h) m.

(** A value inside a template literal. *)
Definition display (v : JsVal) : jsstring :=
  match v with
  | JUndefined => js "undefined"
  | JNull => js "null"
  | JStr s => s
  end.

(** [uploadDocument] up to its [await]. *)
Definition uploadDocument_begin (h : Hook) : Hook :=
  setMessage (js "Uploading document...") (updateProgress Uploading (PNum 10) h).

(** [uploadDocument] after the upload has returned [result]. *)
Definition uploadDocument_ok (fileName : jsstring) (document_id : JsVal)
    (h : Hook) : Hook :=
  let h := mkHook (Some (mkDoc document_id (JStr fileName) (JStr (js "queued"))))
             (progress h) (status h) (message h) in
  setMessage (js "Document queued for processing...")
    (updateProgress Queued (PNum 20) h).

(** The [catch] of [uploadDocument]. *)
Definition uploadDocument_failed (errorMessage : JsVal) (h : Hook) : Hook :=
  setMessage (js "Upload failed: " ++ display errorMessage)
    (updateProgress Failed (PNum 0) h).

(** What [getJobStatus] resolves to. *)
Record JobStatus := mkJob {
  job_status : JsVal;
  job_progress : ProgressVal;
  job_message : JsVal;
  job_title : JsVal
}.

(** [a || b] *)
Definition or_else (a b : JsVal) : JsVal := if truthy a then a else b.

Definition is_status (name : string) (v : JsVal) : bool :=
  match v with
  | JStr s => bool_decide (s = js name)
  | _ => false
  end.

(** The body of the polling callback once [getJobStatus] has resolved. *)
Definition onJobStatus (jobStatus : JobStatus) (h : Hook) : Hook :=
  let prev := document h in
  let doc := mkDoc (from_option doc_id JUndefined prev)
               (or_else (job_title jobStatus) (from_option doc_title JUndefined prev))
               (job_status jobStatus) in
  let h := mkHook (Some doc) (job_progress jobStatus) (status h)
             (display (or_else (job_message jobStatus)
                         (JStr (js "Status: " ++ display (job_status jobStatus))))) in
  if is_status "ready" (job_status jobStatus)
  then updateProgress Ready (job_progress jobStatus) h
  else if is_status "failed" (job_status jobStatus)
  then updateProgress Failed (job_progress jobStatus) h
  else h.

(** [resetDocument] *)
Definition resetDocument (h : Hook) : Hook := mkHook None (PNum 0) Idle [].

(** What can run on the hook's state: the three parts of
    [uploadDocument], a polling response (a rejected [getJobStatus] is
    swallowed by the empty [catch] and changes nothing) and
    [resetDocument]. *)
Inductive Action :=
  | UploadBegin
  | UploadOk (fileName : jsstring) (document_id : JsVal)
  | UploadFailed (errorMessage : JsVal)
  | JobStatusArrived (jobStatus : JobStatus)
  | JobStatusRejected
  | Reset.

Definition step (h : Hook) (a : Action) : Hook :=
  match a with
  | UploadBegin => uploadDocument_begin h
  | UploadOk fileName document_id => uploadDocument_ok fileName document_id h
  | UploadFailed errorMessage => uploadDocument_failed errorMessage h
  | JobStatusArrived jobStatus => onJobStatus jobStatus h
  | JobStatusRejected => h
  | Reset => resetDocument h
  end.

Definition run (acts : list Action) (h : Hook) : Hook := foldl step h acts.

End DocProcessing.

(** * Sanity checks of the primitives *)

Example collapse_ex : collapse_ws (js "a 	  b  c") = js "a b c".
Proof. reflexivity. Qed.

Example trim_ex : trim (js "  a b  ") = js "a b".
Proof. reflexivity. Qed.

Example join_ex : join [js "a"; []; js "b"] = js "a  b".
Proof. reflexivity. Qed.

Example indexOf_ex : indexOf (js "lo w") (js "hello world") = Some 3.
Proof. reflexivity. Qed.

Example indexOf_absent : indexOf (js "xyz") (js "hello world") = None.
Proof. reflexivity. Qed.

Example indexOf_empty : indexOf [] (js "abc") = Some 0.
Proof. reflexivity. Qed.

Example split_ex : split_space (js "a bc  d") = [js "a"; js "bc"; []; js "d"].
Proof. reflexivity. Qed.

Example normalizeText_clause :
  normalizeText (JStr (js "Clause  3.2!")) = Normal (js "clause 3 2")
  /\ normalizeText (JStr (js "clause 3 2")) = Normal (js "clause 3 2").
Proof. split; reflexivity. Qed.

Example normalize_clause :
  normalize (JStr (js "Clause  3.2!")) = Normal (js "clause 32").
Proof. reflexivity. Qed.

Example normalizeText_twice :
  normalizeText (JStr (js "a. b")) = Normal (js "a  b")
  /\ normalizeText (JStr (js "a  b")) = Normal (js "a b").
Proof. split; reflexivity. Qed.


(** * Facts about the string primitives *)

Section CodeUnits.

Lemma lower_char_idem c : lower_char (lower_char c) = lower_char c.
Proof. destruct c as [[] [] [] [] [] [] [] []]; reflexivity. Qed.

Lemma lower_char_space c : is_space (lower_char c) = is_space c.
Proof. destruct c as [[] [] [] [] [] [] [] []]; reflexivity. Qed.

Lemma lower_char_fix_space c : is_space c = true -> lower_char c = c.
Proof. destruct c as [[] [] [] [] [] [] [] []]; vm_compute; congruence. Qed.

Lemma is_space_space : is_space space = true.
Proof. reflexivity. Qed.

Lemma ascii_eqb_eq a b : ascii_eqb a b = true <-> a = b.
Proof. apply Ascii.eqb_eq. Qed.

End CodeUnits.

Section Trim.

Lemma trimStart_decomp s :
  exists ws, s = ws ++ trimStart s /\ blank ws.
Proof.
  induction s as [|c s IH]; simpl.
  - exists []. split; [reflexivity | constructor].
  - destruct (is_space c) eqn:Hc.
    + destruct IH as (ws & Hs & Hws). exists (c :: ws). split.
      * simpl. congruence.
      * constructor; assumption.
    + exists []. split; [reflexivity | constructor].
Qed.

Lemma trimStart_head s c t : trimStart s = c :: t -> is_space c = false.
Proof.
  induction s as [|d s IH]; simpl; [discriminate|].
  destruct (is_space d) eqn:Hd; [exact IH|].
  intros [= -> _]. exact Hd.
Qed.

Lemma trimStart_blank s : blank s -> trimStart s = [].
Proof.
  induction 1 as [|c s Hc _ IH]; simpl; [reflexivity|].
  rewrite Hc. exact IH.
Qed.

Lemma trimStart_nil_blank s : trimStart s = [] -> blank s.
Proof.
  intros H. destruct (trimStart_decomp s) as (ws & Hs & Hws).
  rewrite H, app_nil_r in Hs. subst. exact Hws.
Qed.

Lemma trimStart_fixed s c t : s = c :: t -> is_space c = false -> trimStart s = s.
Proof. intros -> Hc. simpl. rewrite Hc. reflexivity. Qed.

Lemma blank_rev s : blank s -> blank (rev s).
Proof. apply Forall_rev. Qed.

Lemma trimEnd_decomp s :
  exists ws, s = trimEnd s ++ ws /\ blank ws.
Proof.
  unfold trimEnd. destruct (trimStart_decomp (rev s)) as (ws & Hs & Hws).
  exists (rev ws). split; [|apply blank_rev; exact Hws].
  rewrite <- rev_app_distr, <- Hs, rev_involutive. reflexivity.
Qed.

Lemma trim_blank s : blank s -> trim s = [].
Proof.
  intros H. unfold trim. rewrite (trimStart_blank s H). reflexivity.
Qed.

Lemma trim_nil_blank s : trim s = [] -> blank s.
Proof.
  unfold trim. intros H.
  destruct (trimEnd_decomp (trimStart s)) as (ws & Hs & Hws).
  rewrite H in Hs. simpl in Hs.
  destruct (trimStart s) as [|c t] eqn:Ht.
  - apply trimStart_nil_blank. exact Ht.
  - apply trimStart_head in Ht. rewrite <- Hs in Hws.
    inversion Hws; congruence.
Qed.

Lemma trim_head s c t : trim s = c :: t -> is_space c = false.
Proof.
  unfold trim. intros H.
  destruct (trimEnd_decomp (trimStart s)) as (ws & Hs & _).
  rewrite H in Hs. simpl in Hs. apply (trimStart_head _ _ _ Hs).
Qed.

End Trim.

Section IndexOf.

Lemma startsWith_app needle s :
  startsWith needle s = true <-> exists post, s = needle ++ post.
Proof.
  revert s. induction needle as [|a needle IH]; intros s; simpl.
  - split; [intros _; exists s; reflexivity | reflexivity].
  - destruct s as [|b s].
    + split; [discriminate | intros (post & H); discriminate].
    + rewrite andb_true_iff, ascii_eqb_eq, IH. split.
      * intros (-> & post & ->). exists post. reflexivity.
      * intros (post & [= -> ->]). split; [reflexivity | exists post; reflexivity].
Qed.

Lemma indexOf_nil s : indexOf [] s = Some 0.
Proof. destruct s; reflexivity. Qed.

(** [indexOf] returns a position at which the needle occurs. *)
Lemma indexOf_occurs needle s i :
  indexOf needle s = Some i ->
  exists pre post, s = pre ++ needle ++ post /\ length pre = i.
Proof.
  revert i. induction s as [|b s IH]; intros i; simpl.
  - destruct (startsWith needle []) eqn:Hs; [|discriminate].
    intros [= <-]. apply startsWith_app in Hs as (post & Hs).
    exists [], post. split; [exact Hs | reflexivity].
  - destruct (startsWith needle (b :: s)) eqn:Hs.
    + intros [= <-]. apply startsWith_app in Hs as (post & Hs).
      exists [], post. split; [exact Hs | reflexivity].
    + destruct (indexOf needle s) as [j|] eqn:Hj; simpl; [|discriminate].
      intros [= <-]. destruct (IH j eq_refl) as (pre & post & -> & Hlen).
      exists (b :: pre), post. split; [reflexivity | simpl; congruence].
Qed.

(** Nothing occurs before the position [indexOf] returns, and [None]
    means that the needle occurs nowhere. *)
Lemma indexOf_first needle s pre post :
  s = pre ++ needle ++ post ->
  exists i, indexOf needle s = Some i /\ i <= length pre.
Proof.
  revert s. induction pre as [|b pre IH]; intros s ->.
  - exists 0. split; [|simpl; lia].
    assert (H : startsWith needle ([] ++ needle ++ post) = true)
      by (apply startsWith_app; exists post; reflexivity).
    destruct ([] ++ needle ++ post); simpl in *; rewrite H; reflexivity.
  - simpl. destruct (startsWith needle (b :: pre ++ needle ++ post)).
    + exists 0. split; [reflexivity | lia].
    + destruct (IH _ eq_refl) as (i & -> & Hi). exists (S i).
      split; [reflexivity | lia].
Qed.

Lemma includes_true needle s :
  includes needle s = true <-> exists i, indexOf needle s = Some i.
Proof.
  unfold includes. rewrite bool_decide_eq_true. reflexivity.
Qed.

Lemma includes_false needle s :
  includes needle s = false <-> indexOf needle s = None.
Proof.
  unfold includes. rewrite bool_decide_eq_false.
  destruct (indexOf needle s); split; intros H; try reflexivity.
  - exfalso. apply H. eexists. reflexivity.
  - discriminate.
  - intros [? [=]].
Qed.

Lemma includes_occurs needle s :
  includes needle s = true <-> exists pre post, s = pre ++ needle ++ post.
Proof.
  rewrite includes_true. split.
  - intros (i & Hi). destruct (indexOf_occurs _ _ _ Hi) as (pre & post & H & _).
    exists pre, post. exact H.
  - intros (pre & post & H). destruct (indexOf_first _ _ _ _ H) as (i & Hi & _).
    exists i. exact Hi.
Qed.

(** A needle that starts with a code unit other than white space does
    not occur in a blank string. *)
Lemma includes_blank c needle s :
  is_space c = false -> blank s -> includes (c :: needle) s = false.
Proof.
  intros Hc Hs. destruct (includes (c :: needle) s) eqn:Hi; [|reflexivity].
  apply includes_occurs in Hi as (pre & post & ->).
  apply Forall_app in Hs as (_ & Hs). simpl in Hs.
  inversion Hs; congruence.
Qed.

End IndexOf.

(** * Facts about the normalizers *)

Section Collapse.

Lemma collapse_from_Forall (P : ascii -> Prop) b s :
  P space -> Forall P s -> Forall P (collapse_from b s).
Proof.
  intros Hsp H. revert b. induction H as [|c s Hc _ IH]; intros b; simpl.
  - constructor.
  - destruct (is_space c), b; auto.
Qed.

Lemma collapse_from_tidy b s : tidy_from b (collapse_from b s) = true.
Proof.
  revert b. induction s as [|c s IH]; intros b; simpl; [reflexivity|].
  destruct (is_space c) eqn:Hc.
  - destruct b; [apply IH|]. change (tidy_from true (collapse_from true s) = true). apply IH.
  - simpl. rewrite Hc. apply IH.
Qed.

Lemma tidy_collapse_fixed b s : tidy_from b s = true -> collapse_from b s = s.
Proof.
  revert b. induction s as [|c s IH]; intros b; simpl; [reflexivity|].
  destruct (is_space c) eqn:Hc.
  - rewrite !andb_true_iff, negb_true_iff, ascii_eqb_eq.
    intros [[-> ->] Ht]. f_equal. apply IH, Ht.
  - intros Ht. f_equal. apply IH, Ht.
Qed.

Lemma tidy_from_weaken b s : tidy_from b s = true -> tidy_from false s = true.
Proof.
  destruct s as [|c s]; simpl; [reflexivity|].
  destruct (is_space c); [|tauto].
  rewrite !andb_true_iff. intros [[_ ?] ?]. auto.
Qed.

Lemma tidy_from_app b x y :
  tidy_from b (x ++ y) = true -> tidy_from b x = true /\ tidy_from false y = true.
Proof.
  revert b. induction x as [|c x IH]; intros b; simpl.
  - intros H. split; [reflexivity | apply (tidy_from_weaken b), H].
  - destruct (is_space c).
    + rewrite !andb_true_iff. intros [[? ?] Ht]. apply IH in Ht. tauto.
    + apply IH.
Qed.

Lemma tidy_from_lower b s :
  tidy_from b s = true -> tidy_from b (toLowerCase s) = true.
Proof.
  revert b. induction s as [|c s IH]; intros b; simpl; [reflexivity|].
  rewrite lower_char_space. destruct (is_space c) eqn:Hc.
  - rewrite (lower_char_fix_space c Hc), !andb_true_iff.
    intros [? Ht]. split; [assumption | apply IH, Ht].
  - apply IH.
Qed.

Lemma collapse_blank b s : blank s -> blank (collapse_from b s).
Proof. apply collapse_from_Forall, is_space_space. Qed.

End Collapse.

Section TrimMore.

Lemma trimStart_idem s : trimStart (trimStart s) = trimStart s.
Proof.
  destruct (trimStart s) as [|c t] eqn:H; [reflexivity|].
  apply (trimStart_fixed _ c t eq_refl), (trimStart_head _ _ _ H).
Qed.

Lemma trim_trimmed s : trimmed (trim s).
Proof.
  split.
  - destruct (trim s) as [|c t] eqn:H; [reflexivity|].
    apply (trimStart_fixed _ c t eq_refl), (trim_head _ _ _ H).
  - unfold trim, trimEnd. rewrite rev_involutive. apply trimStart_idem.
Qed.

Lemma trimmed_fixed s : trimmed s -> trim s = s.
Proof.
  intros [H1 H2]. unfold trim, trimEnd. rewrite H1, H2. apply rev_involutive.
Qed.

Lemma trimStart_lower s : trimStart (toLowerCase s) = toLowerCase (trimStart s).
Proof.
  induction s as [|c s IH]; simpl; [reflexivity|].
  rewrite lower_char_space. destruct (is_space c); [exact IH | reflexivity].
Qed.

Lemma trimmed_lower s : trimmed s -> trimmed (toLowerCase s).
Proof.
  intros [H1 H2]. unfold trimmed, toLowerCase in *.
  rewrite <- map_rev. fold (toLowerCase s) (toLowerCase (rev s)).
  rewrite !trimStart_lower, H1, H2. split; reflexivity.
Qed.

(** [trim] removes a blank prefix and a blank suffix. *)
Lemma trim_decomp s :
  exists ws1 ws2, s = ws1 ++ trim s ++ ws2 /\ blank ws1 /\ blank ws2.
Proof.
  destruct (trimStart_decomp s) as (ws1 & H1 & B1).
  destruct (trimEnd_decomp (trimStart s)) as (ws2 & H2 & B2).
  exists ws1, ws2. unfold trim. rewrite <- H2. auto.
Qed.

Lemma trim_Forall (P : ascii -> Prop) s : Forall P s -> Forall P (trim s).
Proof.
  destruct (trim_decomp s) as (ws1 & ws2 & H & _). intros HP.
  rewrite H in HP. apply Forall_app in HP as [_ HP].
  apply Forall_app in HP as [HP _]. exact HP.
Qed.

Lemma trim_tidy b s : tidy_from b s = true -> tidy_from false (trim s) = true.
Proof.
  destruct (trim_decomp s) as (ws1 & ws2 & H & _). intros Ht.
  rewrite H in Ht. apply tidy_from_app in Ht as [_ Ht].
  apply tidy_from_app in Ht as [Ht _]. exact Ht.
Qed.

End TrimMore.

Section Idempotence.

Lemma toLowerCase_idem s : toLowerCase (toLowerCase s) = toLowerCase s.
Proof.
  unfold toLowerCase. rewrite map_map. apply map_ext. apply lower_char_idem.
Qed.

Lemma toLowerCase_fixed s :
  Forall (fun c => lower_char c = c) s -> toLowerCase s = s.
Proof.
  induction 1 as [|c s Hc _ IH]; simpl; [reflexivity|]. congruence.
Qed.

Lemma strip_punct_fixed s :
  Forall (fun c => is_word c || is_space c = true) s -> strip_punct s = s.
Proof.
  induction 1 as [|c s Hc _ IH]; simpl; [reflexivity|].
  rewrite Hc. f_equal. exact IH.
Qed.

(** [norm] returns a fixed point of itself. *)
Lemma norm_str_idem s : norm_str (norm_str s) = norm_str s.
Proof.
  unfold norm_str.
  set (t := trim (collapse_ws s)).
  assert (Ht : tidy_from false t = true)
    by (apply (trim_tidy false), collapse_from_tidy).
  assert (Hm : trimmed t) by apply trim_trimmed.
  unfold collapse_ws.
  rewrite (tidy_collapse_fixed false (toLowerCase t) (tidy_from_lower _ _ Ht)).
  rewrite (trimmed_fixed _ (trimmed_lower _ Hm)).
  apply toLowerCase_idem.
Qed.

Lemma norm_idem v s : norm v = Normal s -> norm (JStr s) = Normal s.
Proof.
  unfold norm. intros [= <-]. simpl. f_equal. apply norm_str_idem.
Qed.

(** [normalize] returns a fixed point of itself. *)
Lemma normalize_idem v s : normalize v = Normal s -> normalize (JStr s) = Normal s.
Proof.
  unfold normalize. intros [= <-]. simpl. f_equal.
  set (u := strip_punct (toLowerCase (or_empty v))).
  assert (Hlow : Forall (fun c => lower_char c = c) u).
  { unfold u, strip_punct. apply List.Forall_forall. intros c Hc.
    apply filter_In in Hc as [Hc _]. unfold toLowerCase in Hc.
    apply in_map_iff in Hc as (d & <- & _). apply lower_char_idem. }
  assert (Hword : Forall (fun c => is_word c || is_space c = true) u).
  { unfold u, strip_punct. apply List.Forall_forall. intros c Hc.
    apply filter_In in Hc as [_ Hc]. exact Hc. }
  set (y := trim (collapse_ws u)).
  assert (Hy1 : Forall (fun c => lower_char c = c) y).
  { apply trim_Forall, collapse_from_Forall; [reflexivity | exact Hlow]. }
  assert (Hy2 : Forall (fun c => is_word c || is_space c = true) y).
  { apply trim_Forall, collapse_from_Forall; [reflexivity | exact Hword]. }
  assert (Hy3 : tidy_from false y = true)
    by (apply (trim_tidy false), collapse_from_tidy).
  rewrite (toLowerCase_fixed y Hy1), (strip_punct_fixed y Hy2).
  unfold collapse_ws. rewrite (tidy_collapse_fixed false y Hy3).
  apply trimmed_fixed, trim_trimmed.
Qed.

End Idempotence.

Section Blank.

Lemma toLowerCase_blank s : blank s -> blank (toLowerCase s).
Proof.
  unfold blank, toLowerCase. intros H. apply Forall_map.
  eapply Forall_impl; [exact H|]. intros c Hc. simpl.
  rewrite lower_char_space. exact Hc.
Qed.

Lemma punct_to_space_blank s : blank s -> blank (punct_to_space s).
Proof.
  unfold blank, punct_to_space. intros H. apply Forall_map.
  eapply Forall_impl; [exact H|]. intros c Hc. simpl.
  rewrite Hc, orb_true_r. exact Hc.
Qed.

(** A blank text normalizes to the empty string. *)
Lemma normalizeText_blank s : blank s -> normalizeText_str s = [].
Proof.
  intros H. unfold normalizeText_str.
  apply trim_blank, punct_to_space_blank, collapse_blank, toLowerCase_blank, H.
Qed.

(** A normalized text does not start with white space. *)
Lemma normalizeText_head s c t :
  normalizeText_str s = c :: t -> is_space c = false.
Proof. apply trim_head. Qed.

End Blank.

(** * The full-document pane *)

Import PdfPane PdfPaneFacts.

(** ** The marking loop *)

Lemma spanStartAt_0 l : spanStartAt l 0 = 0.
Proof. unfold spanStartAt. rewrite take_0. reflexivity. Qed.

Lemma spanStartAt_cons e l i :
  spanStartAt (e :: l) (S i) = spanLen e + spanStartAt l i.
Proof. reflexivity. Qed.

Lemma spanStartAt_S l i e :
  l !! i = Some e -> spanStartAt l (S i) = spanStartAt l i + spanLen e.
Proof.
  intros H. unfold spanStartAt. rewrite (take_S_r l i e H).
  rewrite sum_list_with_app. simpl. lia.
Qed.

Lemma spanStartAt_mono l i j : i <= j -> spanStartAt l i <= spanStartAt l j.
Proof.
  intros Hij. unfold spanStartAt.
  replace j with (i + (j - i)) by lia.
  rewrite <- (take_drop i (take (i + (j - i)) l)) at 1.
  rewrite take_take, sum_list_with_app.
  replace (i `min` (i + (j - i))) with i by lia. lia.
Qed.

Lemma spanLen_pos e : 0 < spanLen e.
Proof. unfold spanLen. lia. Qed.

(** Span [i] of the result is marked exactly when its range, counted
    from [currentPos], meets the match range; otherwise it is the
    element as it was. *)
Lemma markOverlapping_lookup l currentPos matchIndex matchEnd i :
  (markOverlapping currentPos matchIndex matchEnd l).1 !! i =
  (fun e =>
     if (currentPos + spanStartAt l i <? matchEnd)
        && (matchIndex <? currentPos + spanStartAt l i + spanLen e)
     then markSpan (element e) else element e) <$> l !! i.
Proof.
  revert currentPos i. induction l as [|e l IH]; intros pos i; [reflexivity|].
  simpl. specialize (IH (pos + length (normalized e) + 1)).
  destruct (markOverlapping _ _ _ l) as [rest n]. simpl in IH.
  destruct i as [|i].
  - rewrite spanStartAt_0, Nat.add_0_r. simpl. unfold spanLen.
    rewrite Nat.add_assoc. destruct (_ && _); reflexivity.
  - rewrite spanStartAt_cons.
    assert (E : pos + (spanLen e + spanStartAt l i)
                = pos + length (normalized e) + 1 + spanStartAt l i)
      by (unfold spanLen; lia).
    rewrite E. destruct (_ && _); simpl; apply IH.
Qed.

Lemma markOverlapping_length l currentPos matchIndex matchEnd :
  length (markOverlapping currentPos matchIndex matchEnd l).1 = length l.
Proof.
  revert currentPos. induction l as [|e l IH]; intros pos; [reflexivity|].
  simpl. specialize (IH (pos + length (normalized e) + 1)).
  destruct (markOverlapping _ _ _ l) as [rest n].
  destruct (_ && _); simpl in *; congruence.
Qed.

(** [highlightedSpans] stays 0 exactly when no span was marked. *)
Lemma markOverlapping_none l currentPos matchIndex matchEnd :
  (markOverlapping currentPos matchIndex matchEnd l).2 = 0 ->
  (markOverlapping currentPos matchIndex matchEnd l).1 = element <$> l.
Proof.
  revert currentPos. induction l as [|e l IH]; intros pos; [reflexivity|].
  simpl. specialize (IH (pos + length (normalized e) + 1)).
  destruct (markOverlapping _ _ _ l) as [rest n].
  destruct (_ && _); simpl in *; [discriminate|].
  intros Hn. f_equal. exact (IH Hn).
Qed.

(** A match range that ends at or before [currentPos] marks nothing. *)
Lemma markOverlapping_before l currentPos matchIndex matchEnd :
  matchEnd <= currentPos ->
  (markOverlapping currentPos matchIndex matchEnd l).2 = 0.
Proof.
  revert currentPos. induction l as [|e l IH]; intros pos Hle; [reflexivity|].
  simpl. specialize (IH (pos + length (normalized e) + 1)).
  destruct (markOverlapping _ _ _ l) as [rest n].
  assert (Hlt : (pos <? matchEnd) = false) by (apply Nat.ltb_ge; exact Hle).
  rewrite Hlt. simpl in *. apply IH. lia.
Qed.

(** A non-empty match range that starts at or after [currentPos]
    marks a span exactly when it starts before the end of the offset
    table. *)
Lemma markOverlapping_hit l currentPos matchIndex matchEnd :
  currentPos <= matchIndex -> matchIndex < matchEnd ->
  0 < (markOverlapping currentPos matchIndex matchEnd l).2
  <-> matchIndex < currentPos + sum_list_with spanLen l.
Proof.
  revert currentPos. induction l as [|e l IH]; intros pos Hle Hlt.
  - simpl. lia.
  - simpl. specialize (IH (pos + length (normalized e) + 1)).
    destruct (markOverlapping _ _ _ l) as [rest n]. simpl in IH.
    assert (Hp : (pos <? matchEnd) = true) by (apply Nat.ltb_lt; lia).
    rewrite Hp. simpl.
    destruct (matchIndex <? pos + length (normalized e) + 1) eqn:Hm; simpl.
    + apply Nat.ltb_lt in Hm. unfold spanLen at 1. lia.
    + apply Nat.ltb_ge in Hm. rewrite (IH Hm Hlt). unfold spanLen at 2. lia.
Qed.

Lemma overlaps_between matchIndex matchEnd l i j k ei ej ek :
  l !! i = Some ei -> l !! j = Some ej -> l !! k = Some ek ->
  i <= j <= k ->
  overlaps matchIndex matchEnd l i ei = true ->
  overlaps matchIndex matchEnd l k ek = true ->
  overlaps matchIndex matchEnd l j ej = true.
Proof.
  intros Hi Hj Hk [Hij Hjk]. unfold overlaps.
  rewrite !andb_true_iff, !Nat.ltb_lt.
  rewrite <- (spanStartAt_S l i ei Hi), <- (spanStartAt_S l j ej Hj).
  pose proof (spanStartAt_mono l j k Hjk).
  pose proof (spanStartAt_mono l (S i) (S j) ltac:(lia)).
  lia.
Qed.

(** ** The ratio loop *)

Lemma substring0_all s : substring0 (length s) s = s.
Proof. apply firstn_all. Qed.

(** The loop returns the first of 100 %, 75 % and 50 % whose prefix
    occurs, with the position [indexOf] gives. *)
Lemma ratioSearch_first searchQuery combinedNormalized :
  ratioSearch searchLengths searchQuery combinedNormalized =
  let prefix ratio := substring0 (searchLength ratio (length searchQuery)) searchQuery in
  match indexOf searchQuery combinedNormalized with
  | Some i => Some (Ratio100, i, searchQuery)
  | None =>
      match indexOf (prefix Ratio75) combinedNormalized with
      | Some i => Some (Ratio75, i, prefix Ratio75)
      | None =>
          match indexOf (prefix Ratio50) combinedNormalized with
          | Some i => Some (Ratio50, i, prefix Ratio50)
          | None => None
          end
      end
  end.
Proof.
  unfold searchLengths, ratioSearch.
  change (searchLength Ratio100 (length searchQuery)) with (length searchQuery).
  rewrite substring0_all. reflexivity.
Qed.

(** ** highlightQuote *)

Lemma normalizeText_JStr s : normalizeText (JStr s) = Normal (normalizeText_str s).
Proof. reflexivity. Qed.

Local Opaque ratioSearch markOverlapping gate normalizeText_str join.

Lemma pageOutcome_nil q : pageOutcome q [] = ([], false).
Proof.
  unfold pageOutcome. destruct (gate _ _); [|reflexivity].
  destruct (ratioSearch _ _ _) as [[[r mi] st]|]; reflexivity.
Qed.

(** [highlightQuote] for a string, in one equation: a page without
    host element or text layer is left alone, any other page gets the
    spans of [pageOutcome]. *)
Lemma highlightQuote_string p q refs :
  highlightQuote p (JStr q) refs =
  Normal (match refs !! p ≫= textLayer with
          | Some layer =>
              (setLayer p (pageOutcome q layer).1 refs, (pageOutcome q layer).2)
          | None => (refs, false)
          end).
Proof.
  unfold highlightQuote. destruct (refs !! p) as [host|]; [|reflexivity].
  simpl. destruct (textLayer host) as [[|s layer]|]; [| |reflexivity].
  - rewrite pageOutcome_nil. reflexivity.
  - simpl. unfold pageOutcome.
    change (spanEntry <$> (clearSpan <$> s :: layer)) with (spanMapOf (s :: layer)).
    change (join (normalized <$> spanMapOf (s :: layer)))
      with (fullPageTextOf (s :: layer)).
    change (normalizeText_str (join (text <$> spanMapOf (s :: layer))))
      with (combinedNormalizedOf (s :: layer)).
    destruct (gate _ _); simpl; [|reflexivity].
    destruct (ratioSearch _ _ _) as [[[r mi] st]|]; [|reflexivity].
    destruct (markOverlapping _ _ _ _). reflexivity.
Qed.

Local Transparent ratioSearch markOverlapping gate normalizeText_str join.

Lemma quoteFound_eq p q refs :
  quoteFound p q refs =
  match refs !! p ≫= textLayer with
  | Some layer => (pageOutcome q layer).2
  | None => false
  end.
Proof.
  unfold quoteFound. rewrite highlightQuote_string.
  destruct (refs !! p ≫= textLayer); reflexivity.
Qed.

(** [highlightQuote] leaves every other page as it is. *)
Lemma highlightQuote_frame p q refs refs' b p' :
  highlightQuote p (JStr q) refs = Normal (refs', b) ->
  p' <> p -> refs' !! p' = refs !! p'.
Proof.
  rewrite highlightQuote_string. intros H Hne.
  destruct (refs !! p ≫= textLayer); injection H as <- <-; [|reflexivity].
  unfold setLayer. apply lookup_insert_ne. congruence.
Qed.

(** The cleared spans carry no highlight attribute. *)
Lemma clearSpan_plain el : data_pdf_highlight (clearSpan el) = false.
Proof. unfold clearSpan. destruct (data_pdf_highlight el) eqn:H; auto. Qed.

Lemma clearSpan_text el : textContent (clearSpan el) = textContent el.
Proof. unfold clearSpan. destruct (data_pdf_highlight el); reflexivity. Qed.

Lemma existsb_cleared layer : existsb data_pdf_highlight (clearSpan <$> layer) = false.
Proof.
  induction layer as [|s layer IH]; [reflexivity|].
  simpl. rewrite clearSpan_plain. exact IH.
Qed.

Lemma spanMapOf_elements layer : element <$> spanMapOf layer = clearSpan <$> layer.
Proof.
  unfold spanMapOf. induction layer as [|s layer IH]; [reflexivity|].
  simpl. f_equal. exact IH.
Qed.

(** Span [i] after [pageOutcome]: its text is unchanged, and it
    carries the attribute exactly when the call marked it. *)
Lemma markOverlapping_spans layer matchIndex matchEnd i span :
  (markOverlapping 0 matchIndex matchEnd (spanMapOf layer)).1 !! i = Some span ->
  exists e, spanMapOf layer !! i = Some e
            /\ textContent span = text e
            /\ data_pdf_highlight span = overlaps matchIndex matchEnd (spanMapOf layer) i e.
Proof.
  rewrite markOverlapping_lookup. simpl.
  destruct (spanMapOf layer !! i) as [e|] eqn:He; [|discriminate].
  simpl. intros [= <-]. exists e. split; [reflexivity|].
  unfold spanMapOf in He. rewrite !list_lookup_fmap in He.
  destruct (layer !! i) as [s|]; [|discriminate]. injection He as <-.
  unfold overlaps. simpl. destruct (_ && _); simpl.
  - auto.
  - split; [reflexivity | apply clearSpan_plain].
Qed.

Lemma markOverlapping_success layer currentPos matchIndex matchEnd :
  (0 <? (markOverlapping currentPos matchIndex matchEnd (spanMapOf layer)).2)
  = existsb data_pdf_highlight
      (markOverlapping currentPos matchIndex matchEnd (spanMapOf layer)).1.
Proof.
  revert currentPos. induction layer as [|s layer IH]; intros pos; [reflexivity|].
  change (spanMapOf (s :: layer)) with (spanEntry (clearSpan s) :: spanMapOf layer).
  simpl. specialize (IH (pos + length (normalizeText_str (textContent (clearSpan s))) + 1)).
  destruct (markOverlapping _ _ _ (spanMapOf layer)) as [rest n]. simpl in IH.
  destruct (_ && _); simpl; [reflexivity|]. rewrite clearSpan_plain. exact IH.
Qed.

(** The returned boolean tells whether a span of the page carries the
    attribute afterwards. *)
Lemma pageOutcome_success q layer :
  (pageOutcome q layer).2 = existsb data_pdf_highlight (pageOutcome q layer).1.
Proof.
  unfold pageOutcome. destruct (gate _ _); [|symmetry; apply existsb_cleared].
  destruct (ratioSearch _ _ _) as [[[r mi] st]|];
    [|symmetry; apply existsb_cleared].
  apply markOverlapping_success.
Qed.

Lemma pageOutcome_length q layer : length (pageOutcome q layer).1 = length layer.
Proof.
  unfold pageOutcome. destruct (gate _ _); [|apply length_fmap].
  destruct (ratioSearch _ _ _) as [[[r mi] st]|]; simpl; [|apply length_fmap].
  rewrite markOverlapping_length. unfold spanMapOf. rewrite !length_fmap. reflexivity.
Qed.


(** ** The page loop *)

Lemma afterVisit_lookup p q refs host :
  refs !! p = Some host ->
  match refs !! p ≫= textLayer with
  | Some layer => setLayer p (pageOutcome q layer).1 refs
  | None => refs
  end !! p = Some (afterVisit q host).
Proof.
  intros Hp. unfold afterVisit. rewrite Hp. simpl.
  destruct (textLayer host); [apply lookup_insert_eq | exact Hp].
Qed.

Lemma quoteFound_local p q refs refs0 :
  refs !! p = refs0 !! p -> quoteFound p q refs = quoteFound p q refs0.
Proof. intros H. rewrite !quoteFound_eq, H. reflexivity. Qed.

Lemma quoteFound_unmounted p q refs : refs !! p = None -> quoteFound p q refs = false.
Proof. intros H. rewrite quoteFound_eq, H. reflexivity. Qed.

Lemma visited_subset q refs pageNums p : p ∈ visited q refs pageNums -> p ∈ pageNums.
Proof.
  induction pageNums as [|a rest IH]; simpl; [auto|].
  destruct (quoteFound a q refs).
  - intros ->%list_elem_of_singleton. left.
  - intros [->|H]%elem_of_cons; [left | right; auto].
Qed.

(** The loop returns [firstFound]; it has gone over the [visited] pages
    and over no other. *)
Lemma searchLoop_run pageNums q refs0 refs :
  NoDup pageNums ->
  (forall p, p ∈ pageNums -> refs !! p = refs0 !! p) ->
  exists refs',
    searchLoop pageNums (JStr q) refs = Normal (refs', firstFound q refs0 pageNums)
    /\ forall p, refs' !! p =
                 if bool_decide (p ∈ visited q refs0 pageNums)
                 then afterVisit q <$> refs0 !! p else refs !! p.
Proof.
  intros Hnd. revert refs. induction Hnd as [|a rest Ha Hnd IH]; intros refs Hsame.
  - exists refs. split; [reflexivity|]. intros p. reflexivity.
  - assert (Hpa : refs !! a = refs0 !! a) by (apply Hsame; left).
    simpl. rewrite <- (quoteFound_local a q refs refs0 Hpa).
    destruct (refs !! a) as [host|] eqn:Hhost.
    + rewrite highlightQuote_string. simpl.
      rewrite (quoteFound_eq a q refs).
      set (refs1 := match refs !! a ≫= textLayer with
                    | Some layer => setLayer a (pageOutcome q layer).1 refs
                    | None => refs
                    end).
      assert (H1a : refs1 !! a = Some (afterVisit q host))
        by (apply afterVisit_lookup; exact Hhost).
      assert (H1o : forall p, p <> a -> refs1 !! p = refs !! p).
      { intros p Hp. unfold refs1. destruct (refs !! a ≫= textLayer); [|reflexivity].
        unfold setLayer. apply lookup_insert_ne. congruence. }
      assert (Hb : (match refs !! a ≫= textLayer with
                    | Some layer => (setLayer a (pageOutcome q layer).1 refs,
                                     (pageOutcome q layer).2)
                    | None => (refs, false)
                    end)
                   = (refs1, match refs !! a ≫= textLayer with
                             | Some layer => (pageOutcome q layer).2
                             | None => false
                             end)).
      { unfold refs1. destruct (refs !! a ≫= textLayer); reflexivity. }
      rewrite Hb. clear Hb.
      destruct (match refs !! a ≫= textLayer with
                | Some layer => (pageOutcome q layer).2
                | None => false
                end) eqn:Hfound.
      * exists refs1. split; [reflexivity|]. intros p.
        destruct (decide (p = a)) as [->|Hne].
        -- rewrite bool_decide_eq_true_2 by left. rewrite <- Hpa, H1a. reflexivity.
        -- rewrite bool_decide_eq_false_2
             by (intros ?%list_elem_of_singleton; contradiction).
           apply H1o, Hne.
      * destruct (IH refs1) as (refs' & Hrun & Hlook).
        { intros p Hp. rewrite H1o; [apply Hsame; right; exact Hp|].
          intros ->. contradiction. }
        exists refs'. split; [exact Hrun|]. intros p. rewrite Hlook.
        destruct (decide (p = a)) as [->|Hne].
        -- rewrite bool_decide_eq_false_2
             by (intros ?%visited_subset; contradiction).
           rewrite bool_decide_eq_true_2 by left.
           rewrite H1a, <- Hpa. reflexivity.
        -- destruct (bool_decide (p ∈ visited q refs0 rest)) eqn:Hv.
           ++ apply bool_decide_eq_true in Hv.
              rewrite bool_decide_eq_true_2 by (right; exact Hv). reflexivity.
           ++ apply bool_decide_eq_false in Hv.
              rewrite bool_decide_eq_false_2
                by (intros [?|?]%elem_of_cons; contradiction).
              apply H1o, Hne.
    + rewrite (quoteFound_unmounted a q refs Hhost).
      destruct (IH refs) as (refs' & Hrun & Hlook).
      { intros p Hp. apply Hsame. right. exact Hp. }
      exists refs'. split; [exact Hrun|]. intros p. rewrite Hlook.
      destruct (decide (p = a)) as [->|Hne].
      * rewrite bool_decide_eq_false_2
          by (intros ?%visited_subset; contradiction).
        rewrite bool_decide_eq_true_2 by left.
        rewrite <- Hpa, Hhost. reflexivity.
      * destruct (bool_decide (p ∈ visited q refs0 rest)) eqn:Hv.
        -- apply bool_decide_eq_true in Hv.
           rewrite bool_decide_eq_true_2 by (right; exact Hv). reflexivity.
        -- apply bool_decide_eq_false in Hv.
           rewrite bool_decide_eq_false_2
             by (intros [?|?]%elem_of_cons; contradiction).
           reflexivity.
Qed.

(** Over the ascending pages [a, a + n) the loop finds the least page
    on which the quote is found. *)
Lemma firstFound_seq q refs a n p :
  firstFound q refs (seq a n) = Some p <->
  a <= p < a + n /\ quoteFound p q refs = true
  /\ forall p', a <= p' < p -> quoteFound p' q refs = false.
Proof.
  revert a. induction n as [|n IH]; intros a; simpl.
  - split; [discriminate | lia].
  - destruct (quoteFound a q refs) eqn:Ha.
    + split.
      * intros [= <-]. split; [lia|]. split; [exact Ha|]. intros; lia.
      * intros (Hr & Hp & Hlt). f_equal.
        destruct (decide (a = p)) as [|Hne]; [assumption|].
        rewrite (Hlt a) in Ha by lia. discriminate.
    + rewrite IH. split.
      * intros (Hr & Hp & Hlt). split; [lia|]. split; [exact Hp|].
        intros p' Hp'. destruct (decide (p' = a)) as [->|]; [exact Ha|].
        apply Hlt. lia.
      * intros (Hr & Hp & Hlt).
        assert (a <> p) by (intros ->; congruence).
        split; [lia|]. split; [exact Hp|]. intros p' Hp'. apply Hlt. lia.
Qed.

Lemma firstFound_seq_None q refs a n :
  firstFound q refs (seq a n) = None <->
  forall p, a <= p < a + n -> quoteFound p q refs = false.
Proof.
  revert a. induction n as [|n IH]; intros a; simpl.
  - split; [intros _ p; lia | reflexivity].
  - destruct (quoteFound a q refs) eqn:Ha.
    + split; [discriminate|]. intros H. rewrite (H a) in Ha by lia. discriminate.
    + rewrite IH. split.
      * intros H p Hp. destruct (decide (p = a)) as [->|]; [exact Ha|]. apply H. lia.
      * intros H p Hp. apply H. lia.
Qed.

(** The visited pages are those up to and including the one found. *)
Lemma visited_seq q refs a n p :
  p ∈ visited q refs (seq a n) <->
  a <= p < a + n /\ forall p', a <= p' < p -> quoteFound p' q refs = false.
Proof.
  revert a. induction n as [|n IH]; intros a; simpl.
  - split; [intros H; inversion H | lia].
  - destruct (quoteFound a q refs) eqn:Ha.
    + rewrite list_elem_of_singleton. split.
      * intros ->. split; [lia|]. intros; lia.
      * intros (Hr & Hlt). destruct (decide (p = a)) as [|Hne]; [assumption|].
        rewrite (Hlt a) in Ha by lia. discriminate.
    + rewrite elem_of_cons, IH. split.
      * intros [->|(Hr & Hlt)].
        -- split; [lia|]. intros; lia.
        -- split; [lia|]. intros p' Hp'.
           destruct (decide (p' = a)) as [->|]; [exact Ha|]. apply Hlt. lia.
      * intros (Hr & Hlt). destruct (decide (p = a)) as [|Hne]; [left; assumption|].
        right. split; [lia|]. intros p' Hp'. apply Hlt. lia.
Qed.

(** ** jumpTo *)

Lemma truthy_JStr q : q <> [] -> truthy (JStr q) = true.
Proof. destruct q; [congruence | reflexivity]. Qed.

(** [jumpTo] with a non-empty quote, in one equation. *)
Lemma jumpTo_quote c pane q :
  quote c = JStr q -> q <> [] ->
  exists refs',
    jumpTo c pane =
    Normal (withRefs pane refs',
            match firstFound q (pageRefs pane) (seq 1 (numPages_or 1 pane)) with
            | Some found => [RingAndScrollAfter 100 found 3000]
            | None => LogQuoteNotFound :: scrollToFirst refs'
            end)
    /\ forall p, refs' !! p =
                 if bool_decide (p ∈ visited q (pageRefs pane) (seq 1 (numPages_or 1 pane)))
                 then afterVisit q <$> pageRefs pane !! p else pageRefs pane !! p.
Proof.
  intros Hq Hne. unfold jumpTo. rewrite Hq, (truthy_JStr q Hne). simpl.
  destruct (searchLoop_run (seq 1 (numPages_or 1 pane)) q (pageRefs pane) (pageRefs pane))
    as (refs' & Hrun & Hlook).
  { apply NoDup_seq. }
  { reflexivity. }
  exists refs'. rewrite Hrun. simpl. split; [|exact Hlook].
  destruct (firstFound _ _ _); reflexivity.
Qed.

Lemma afterVisit_layer q host :
  default [] (textLayer (afterVisit q host))
  = match textLayer host with
    | Some layer => (pageOutcome q layer).1
    | None => []
    end.
Proof.
  unfold afterVisit. destruct (textLayer host) as [layer|] eqn:H; simpl; [reflexivity|].
  rewrite H. reflexivity.
Qed.

(** On a visited page a span carries the attribute afterwards exactly
    when the quote was found there. *)
Lemma afterVisit_highlighted q refs p :
  existsb data_pdf_highlight (default [] ((afterVisit q <$> refs !! p) ≫= textLayer))
  = quoteFound p q refs.
Proof.
  rewrite quoteFound_eq. destruct (refs !! p) as [host|]; simpl; [|reflexivity].
  pose proof (afterVisit_layer q host) as H.
  destruct (textLayer host) as [layer|] eqn:Hl.
  - unfold afterVisit. rewrite Hl. simpl. symmetry. apply pageOutcome_success.
  - unfold afterVisit. rewrite Hl, Hl. reflexivity.
Qed.

(** * The hint-trusting pane *)

Module HintedPaneProofs.
Import HintedPane.

(** [jumpTo] goes to the clamped hint and leaves the highlight of that
    one page to a timer; no other page is tried. *)
Lemma hinted_jumpTo_trusts_hint c pane host :
  truthy (quote c) = true ->
  pageRefs pane !! targetPage c pane = Some host ->
  jumpTo c pane
  = Normal (pane, [AddRing (targetPage c pane); ScrollIntoView (targetPage c pane);
                   RemoveRingAfter 2000 (targetPage c pane);
                   HighlightAfter 300 (targetPage c pane) (quote c)]).
Proof.
  intros Hq Hp. unfold jumpTo. rewrite Hp, Hq. reflexivity.
Qed.

(** Its [highlightQuote] never throws and, like the other one, works
    on one text layer only. *)
Lemma hinted_highlightQuote_frame p quote refs :
  exists refs' success,
    highlightQuote p quote refs = Normal (refs', success)
    /\ forall p', p' <> p -> refs' !! p' = refs !! p'.
Proof.
  unfold highlightQuote, setLayer.
  destruct (refs !! p) as [host|]; [|eexists _, _; split; [reflexivity | auto]].
  destruct (textLayer host) as [layer|]; [|eexists _, _; split; [reflexivity | auto]].
  simpl. repeat case_match; eexists _, _; (split; [reflexivity|]);
    intros p' Hne; apply lookup_insert_ne; congruence.
Qed.

Lemma hinted_clearSpan_hl s : data_hl (clearSpan s) = false.
Proof. unfold clearSpan. destruct (data_hl s) eqn:H; auto. Qed.

Lemma hinted_clearSpan_text s : textContent (clearSpan s) = textContent s.
Proof. unfold clearSpan. destruct (data_hl s); reflexivity. Qed.

Lemma hinted_clearSpan_background s :
  background (clearSpan s) = if data_hl s then BgTransparent else background s.
Proof. unfold clearSpan. destruct (data_hl s); reflexivity. Qed.

Lemma highlightSpan_lookup i (children : list Element) j :
  highlightSpan i children !! j
  = (fun e => match spanPositions 0 children !! i with
              | Some k =>
                  if (S j =? k) || (j =? k) || (j =? S k) then markElement e else e
              | None => e
              end) <$> children !! j.
Proof.
  unfold highlightSpan. destruct (spanPositions 0 children !! i) as [k|].
  - apply list_lookup_imap.
  - destruct (children !! j); reflexivity.
Qed.

Lemma highlightSpan_length i (children : list Element) :
  length (highlightSpan i children) = length children.
Proof.
  unfold highlightSpan. destruct (spanPositions 0 children !! i);
    [apply length_imap | reflexivity].
Qed.

(** The [i]-th span of a layer is its child at the [i]-th position
    listed. *)
Lemma spanPositions_lookup (children : list Element) start i k :
  spanPositions start children !! i = Some k ->
  start <= k
  /\ exists child, children !! (k - start) = Some child /\ isSpan child = true
                   /\ spansOf children !! i = Some (node child).
Proof.
  revert start i. induction children as [|c rest IH]; intros start i; [discriminate|].
  unfold spansOf. simpl. destruct (isSpan c) eqn:Hc.
  - destruct i as [|i]; simpl.
    + intros [= <-]. split; [lia|]. rewrite Nat.sub_diag. exists c. auto.
    + intros H. destruct (IH _ _ H) as (Hle & child & Hk & Hs & Hn).
      split; [lia|]. exists child.
      replace (k - start) with (S (k - S start)) by lia. auto.
  - intros H. destruct (IH _ _ H) as (Hle & child & Hk & Hs & Hn).
    split; [lia|]. exists child.
    replace (k - start) with (S (k - S start)) by lia. auto.
Qed.

Lemma spanPositions_length (children : list Element) start :
  length (spanPositions start children) = length (spansOf children).
Proof.
  revert start. unfold spansOf.
  induction children as [|c rest IH]; intros start; [reflexivity|].
  simpl. destruct (isSpan c); simpl; rewrite IH; reflexivity.
Qed.

Lemma spanPositions_cleared (layer : list Element) start :
  spanPositions start (clearElement <$> layer) = spanPositions start layer.
Proof.
  revert start. induction layer as [|c rest IH]; intros start; [reflexivity|].
  simpl. rewrite IH. reflexivity.
Qed.

Lemma locate_nil q : locate q [] = None.
Proof.
  unfold locate. simpl. induction (wordsOf q) as [|w ws IH]; [reflexivity | exact IH].
Qed.

(** What [highlightQuote] makes of a page with a text layer. *)
Lemma hinted_highlightQuote_layer p quote refs (layer : list Element) :
  refs !! p ≫= textLayer = Some layer ->
  highlightQuote p quote refs
  = Normal
      (<[p := mkHost
               (Some match (if length (norm_str (or_empty quote)) =? 0 then None
                            else locate (norm_str (or_empty quote))
                                   (spansOf (clearElement <$> layer))) with
                     | Some i => highlightSpan i (clearElement <$> layer)
                     | None => clearElement <$> layer
                     end)]> refs,
       bool_decide (is_Some (if length (norm_str (or_empty quote)) =? 0 then None
                             else locate (norm_str (or_empty quote))
                                    (spansOf (clearElement <$> layer))))).
Proof.
  intros Hl. unfold highlightQuote, setLayer.
  destruct (refs !! p) as [host|]; [|discriminate]. simpl in Hl. rewrite Hl.
  cbv zeta. change (norm quote) with (Normal (norm_str (or_empty quote))).
  change (Normal (norm_str (or_empty quote)) ≫= ?k) with (k (norm_str (or_empty quote))).
  cbv beta. generalize (norm_str (or_empty quote)). intros q.
  destruct (length q =? 0); [reflexivity|].
  destruct (length (spansOf (clearElement <$> layer)) =? 0) eqn:Hlen.
  - apply Nat.eqb_eq, length_zero_iff_nil in Hlen. rewrite Hlen, locate_nil.
    reflexivity.
  - destruct (locate q (spansOf (clearElement <$> layer))); reflexivity.
Qed.

(** An element after [highlightQuote]: marked by this call, or merely
    cleared. *)
Lemma hinted_highlightQuote_element p quote refs (layer : list Element) :
  refs !! p ≫= textLayer = Some layer ->
  exists layer' success,
    highlightQuote p quote refs = Normal (<[p := mkHost (Some layer')]> refs, success)
    /\ length layer' = length layer
    /\ forall j e e',
         layer !! j = Some e -> layer' !! j = Some e' ->
         (e' = markElement (clearElement e) /\ success = true) \/ e' = clearElement e.
Proof.
  intros Hl. rewrite (hinted_highlightQuote_layer p quote refs layer Hl).
  eexists _, _. split; [reflexivity|].
  destruct (if length (norm_str (or_empty quote)) =? 0 then None else _) as [i|].
  - split; [rewrite highlightSpan_length; apply length_fmap|].
    intros j e e' He. rewrite highlightSpan_lookup, list_lookup_fmap, He.
    destruct (spanPositions 0 _ !! i) as [k|]; [|intros [= <-]; right; reflexivity].
    destruct ((S j =? k) || (j =? k) || (j =? S k)); intros [= <-];
      [left; split; reflexivity | right; reflexivity].
  - split; [apply length_fmap|].
    intros j e e' He. rewrite list_lookup_fmap, He. intros [= <-]. auto.
Qed.

End HintedPaneProofs.

(** * Facts shared by the sections below *)

Import PdfPane PdfPaneFacts.

Lemma spanMapOf_lookup layer i :
  spanMapOf layer !! i = (fun s => spanEntry (clearSpan s)) <$> layer !! i.
Proof.
  unfold spanMapOf. rewrite !list_lookup_fmap.
  destruct (layer !! i); reflexivity.
Qed.

(** The two strings [highlightQuote] searches. *)
Lemma searched_strings layer :
  fullPageTextOf layer
  = join ((fun s => normalizeText_str (textContent s)) <$> layer)
  /\ combinedNormalizedOf layer
     = normalizeText_str (join (textContent <$> layer)).
Proof.
  unfold fullPageTextOf, combinedNormalizedOf, spanMapOf. split.
  - f_equal. rewrite <- !list_fmap_compose. apply list_fmap_ext.
    intros i s _. simpl. rewrite clearSpan_text. reflexivity.
  - do 2 f_equal. rewrite <- !list_fmap_compose. apply list_fmap_ext.
    intros i s _. simpl. apply clearSpan_text.
Qed.

Lemma cleared_texts (layer : list Span) : textContent <$> (clearSpan <$> layer) = textContent <$> layer.
Proof.
  rewrite <- list_fmap_compose. apply list_fmap_ext. intros i s _. apply clearSpan_text.
Qed.

Lemma markOverlapping_texts l currentPos matchIndex matchEnd :
  textContent <$> (markOverlapping currentPos matchIndex matchEnd l).1
  = (fun e => textContent (element e)) <$> l.
Proof.
  revert currentPos. induction l as [|e l IH]; intros pos; [reflexivity|].
  simpl. specialize (IH (pos + length (normalized e) + 1)).
  destruct (markOverlapping _ _ _ l) as [rest n].
  destruct (_ && _); simpl in *; f_equal; exact IH.
Qed.

Lemma spanMapOf_element_texts layer :
  (fun e => textContent (element e)) <$> spanMapOf layer = textContent <$> layer.
Proof.
  unfold spanMapOf. rewrite <- !list_fmap_compose. apply list_fmap_ext.
  intros i s _. simpl. apply clearSpan_text.
Qed.

(** The spans keep their texts. *)
Lemma pageOutcome_texts q layer :
  textContent <$> (pageOutcome q layer).1 = textContent <$> layer.
Proof.
  unfold pageOutcome. destruct (gate _ _); [|apply cleared_texts].
  destruct (ratioSearch _ _ _) as [[[r mi] st]|]; [|apply cleared_texts].
  simpl. rewrite markOverlapping_texts. apply spanMapOf_element_texts.
Qed.

Lemma fullPageTextOf_texts layer :
  fullPageTextOf layer = join (normalizeText_str <$> (textContent <$> layer)).
Proof.
  rewrite (proj1 (searched_strings layer)). f_equal.
  rewrite <- list_fmap_compose. reflexivity.
Qed.

Lemma combinedNormalizedOf_texts layer :
  combinedNormalizedOf layer = normalizeText_str (join (textContent <$> layer)).
Proof. apply (proj2 (searched_strings layer)). Qed.

Lemma spanMapOf_normalized layer :
  normalized <$> spanMapOf layer = normalizeText_str <$> (textContent <$> layer).
Proof.
  unfold spanMapOf. rewrite <- !list_fmap_compose. apply list_fmap_ext.
  intros i s _. simpl. rewrite clearSpan_text. reflexivity.
Qed.

(** The marks set by the loop depend on the normalized texts only. *)
Lemma markOverlapping_marks l1 l2 currentPos matchIndex matchEnd :
  normalized <$> l1 = normalized <$> l2 ->
  (markOverlapping currentPos matchIndex matchEnd l1).2
  = (markOverlapping currentPos matchIndex matchEnd l2).2
  /\ forall i e1 e2,
       l1 !! i = Some e1 -> l2 !! i = Some e2 ->
       ((markOverlapping currentPos matchIndex matchEnd l1).1 !! i
        = Some (markSpan (element e1))
        /\ (markOverlapping currentPos matchIndex matchEnd l2).1 !! i
           = Some (markSpan (element e2)))
       \/ ((markOverlapping currentPos matchIndex matchEnd l1).1 !! i
           = Some (element e1)
           /\ (markOverlapping currentPos matchIndex matchEnd l2).1 !! i
              = Some (element e2)).
Proof.
  revert l2 currentPos. induction l1 as [|e1 l1 IH]; intros [|e2 l2] pos Hn;
    try discriminate.
  - split; [reflexivity|]. intros i ? ? [=].
  - injection Hn as Hn1 Hn. simpl. rewrite Hn1.
    destruct (IH l2 (pos + length (normalized e2) + 1) Hn) as [Hc Hi].
    destruct (markOverlapping _ _ _ l1) as [r1 n1].
    destruct (markOverlapping _ _ _ l2) as [r2 n2]. simpl in Hc, Hi. subst n2.
    destruct (_ && _); simpl.
    + split; [reflexivity|]. intros [|i] x1 x2; [|apply Hi].
      simpl. intros [= <-] [= <-]. auto.
    + split; [reflexivity|]. intros [|i] x1 x2; [|apply Hi].
      simpl. intros [= <-] [= <-]. auto.
Qed.

(** One step of the loop of [forceTextExtraction]. *)
Lemma force_fold (refs : gmap nat PageHost) (l : list nat) (cache : gmap nat jsstring) i :
  foldl (fun (cache : gmap nat jsstring) (i : nat) =>
           match refs !! i with
           | Some host =>
               match textLayer host with
               | Some layer => <[i := layerText layer]> cache
               | None => cache
               end
           | None => cache
           end) cache l !! i
  = match (if bool_decide (i ∈ l) then refs !! i ≫= textLayer else None) with
    | Some layer => Some (layerText layer)
    | None => cache !! i
    end.
Proof.
  revert cache. induction l as [|a l IH]; intros cache; [reflexivity|].
  simpl. rewrite IH. clear IH.
  destruct (decide (i = a)) as [->|Hne].
  - rewrite (bool_decide_eq_true_2 (a ∈ a :: l)) by left.
    destruct (bool_decide (a ∈ l)); destruct (refs !! a) as [host|]; simpl;
      try reflexivity; destruct (textLayer host); simpl; try reflexivity;
      apply lookup_insert_eq.
  - assert (Hin : bool_decide (i ∈ a :: l) = bool_decide (i ∈ l)).
    { apply bool_decide_ext. rewrite elem_of_cons. tauto. }
    rewrite Hin.
    assert (Hother : match refs !! a with
                     | Some host =>
                         match textLayer host with
                         | Some layer => <[a := layerText layer]> cache
                         | None => cache
                         end
                     | None => cache
                     end !! i = cache !! i).
    { destruct (refs !! a) as [host|]; [|reflexivity].
      destruct (textLayer host); [|reflexivity]. apply lookup_insert_ne. congruence. }
    rewrite Hother. reflexivity.
Qed.

Lemma forceTextExtraction_lookup pane i :
  pageTextsRef (forceTextExtraction pane) !! i
  = match (if bool_decide (1 <= i <= numPages_or 0 pane)
           then pageRefs pane !! i ≫= textLayer else None) with
    | Some layer => Some (layerText layer)
    | None => pageTextsRef pane !! i
    end.
Proof.
  unfold forceTextExtraction. simpl. rewrite force_fold.
  assert (E : bool_decide (i ∈ seq 1 (numPages_or 0 pane))
              = bool_decide (1 <= i <= numPages_or 0 pane)).
  { apply bool_decide_ext. rewrite elem_of_seq. lia. }
  rewrite E. reflexivity.
Qed.

Lemma getPageTexts_lookup pane p :
  1 <= p <= numPages_or 0 pane ->
  getPageTexts pane !! (p - 1)
  = Some (mkPageText p (default [] (pageTextsRef pane !! p))).
Proof.
  intros Hp. unfold getPageTexts. rewrite list_lookup_fmap.
  rewrite lookup_seq_lt by lia. simpl. replace (S (p - 1)) with p by lia.
  reflexivity.
Qed.

Lemma clearSpan_idem el : clearSpan (clearSpan el) = clearSpan el.
Proof.
  unfold clearSpan at 1. rewrite clearSpan_plain. reflexivity.
Qed.

(** A span after [highlightQuote] has worked on its page: marked by
    this call, or merely cleared. *)
Lemma pageOutcome_span q (layer : list Span) j s' :
  (pageOutcome q layer).1 !! j = Some s' ->
  exists s, layer !! j = Some s /\ (s' = markSpan (clearSpan s) \/ s' = clearSpan s).
Proof.
  assert (Hclear : (clearSpan <$> layer) !! j = Some s' ->
                   exists s, layer !! j = Some s
                             /\ (s' = markSpan (clearSpan s) \/ s' = clearSpan s)).
  { rewrite list_lookup_fmap. destruct (layer !! j) as [s|]; [|discriminate].
    intros [= <-]. exists s. auto. }
  unfold pageOutcome. destruct (gate _ _); [|exact Hclear].
  destruct (ratioSearch _ _ _) as [[[r mi] st]|]; [|exact Hclear].
  cbn [fst]. rewrite markOverlapping_lookup, spanMapOf_lookup.
  destruct (layer !! j) as [s|]; [|discriminate].
  cbn [fmap option_fmap option_map]. destruct (_ && _); intros [= <-]; exists s; auto.
Qed.

(** Which spans carry the attribute afterwards, and the returned
    boolean, depend on the span texts only. *)
Lemma pageOutcome_attrs q (l1 l2 : list Span) :
  textContent <$> l1 = textContent <$> l2 ->
  data_pdf_highlight <$> (pageOutcome q l1).1 = data_pdf_highlight <$> (pageOutcome q l2).1
  /\ (pageOutcome q l1).2 = (pageOutcome q l2).2.
Proof.
  intros Ht.
  assert (Hlen : length l1 = length l2).
  { rewrite <- (length_fmap textContent l1), Ht. apply length_fmap. }
  assert (Hclear : data_pdf_highlight <$> (clearSpan <$> l1)
                   = data_pdf_highlight <$> (clearSpan <$> l2)).
  { apply list_eq. intros i. rewrite !list_lookup_fmap.
    destruct (l1 !! i) as [s1|] eqn:E1; destruct (l2 !! i) as [s2|] eqn:E2; simpl.
    - rewrite !clearSpan_plain. reflexivity.
    - apply lookup_lt_Some in E1. apply lookup_ge_None in E2. lia.
    - apply lookup_lt_Some in E2. apply lookup_ge_None in E1. lia.
    - reflexivity. }
  unfold pageOutcome. rewrite !fullPageTextOf_texts, !combinedNormalizedOf_texts, Ht.
  destruct (gate _ _); [|split; [exact Hclear | reflexivity]].
  destruct (ratioSearch _ _ _) as [[[r mi] st]|]; [|split; [exact Hclear | reflexivity]].
  cbn [fst snd].
  destruct (markOverlapping_marks (spanMapOf l1) (spanMapOf l2) 0 mi (mi + length st)
              ltac:(rewrite !spanMapOf_normalized, Ht; reflexivity)) as [Hn Hi].
  split; [|rewrite Hn; reflexivity].
  apply list_eq. intros i. rewrite !list_lookup_fmap.
  destruct (l1 !! i) as [s1|] eqn:E1; destruct (l2 !! i) as [s2|] eqn:E2.
  - destruct (Hi i (spanEntry (clearSpan s1)) (spanEntry (clearSpan s2)))
      as [[H1 H2]|[H1 H2]];
      try (rewrite spanMapOf_lookup; (rewrite E1 || rewrite E2); reflexivity);
      rewrite H1, H2; simpl; [reflexivity|].
    rewrite !clearSpan_plain. reflexivity.
  - apply lookup_lt_Some in E1. apply lookup_ge_None in E2. lia.
  - apply lookup_lt_Some in E2. apply lookup_ge_None in E1. lia.
  - rewrite !markOverlapping_lookup, !spanMapOf_lookup, E1, E2. reflexivity.
Qed.

(** * Navigation: which page is selected, and what is cleared *)

Import Samples.

Lemma jumpTo_hint_irrelevant c pane hint pages :
  jumpTo (mkCitation hint (quote c) pages) pane = jumpTo c pane.
Proof. reflexivity. Qed.

Lemma found_is_visited q refs n p :
  firstFound q refs (seq 1 n) = Some p -> p ∈ visited q refs (seq 1 n).
Proof.
  rewrite firstFound_seq, visited_seq. intros (Hr & _ & Hlt). auto.
Qed.

Lemma highlightedOn_afterVisit q refs refs' p :
  refs' !! p = afterVisit q <$> refs !! p ->
  highlightedOn refs' p = quoteFound p q refs.
Proof.
  intros H. unfold highlightedOn, layerOf. rewrite H. apply afterVisit_highlighted.
Qed.

(** C1, as the claim states it, fails on the [jumpTo] of the
    hint-trusting pane, which the claim cites too: on a document with
    the clause on pages 2 and 5, and [highlightQuote] succeeding on
    either, the hint 5 makes it ring and scroll to page 5 and leave the
    highlight of page 5 to a timer; page 2 is never tried. *)
Lemma hinted_jumpTo_goes_to_hinted_page :
  let c := HintedPane.mkCitation (Some 5) (JStr clause) in
  (exists refs2,
      HintedPane.highlightQuote 2 (JStr clause) (HintedPane.pageRefs hintedContract)
      = Normal (refs2, true))
  /\ (exists refs5,
        HintedPane.highlightQuote 5 (JStr clause) (HintedPane.pageRefs hintedContract)
        = Normal (refs5, true))
  /\ HintedPane.jumpTo c hintedContract
     = Normal (hintedContract,
               [HintedPane.AddRing 5; HintedPane.ScrollIntoView 5;
                HintedPane.RemoveRingAfter 2000 5;
                HintedPane.HighlightAfter 300 5 (JStr clause)])
  /\ exists pane',
       HintedPane.fireHighlight 5 (JStr clause) hintedContract = Normal pane'
       /\ (fun p => existsb (fun e => HintedPane.data_hl (HintedPane.node e))
                      (default [] (HintedPane.pageRefs pane' !! p
                                   ≫= HintedPane.textLayer)))
            <$> [1; 2; 3; 4; 5]
          = [false; false; false; false; true].
Proof.
  cbv zeta. split; [eexists; vm_compute; reflexivity|].
  split; [eexists; vm_compute; reflexivity|].
  split; [vm_compute; reflexivity|].
  eexists. split; vm_compute; reflexivity.
Qed.

(** C1, as the code has it.  For every [jumpTo] call of the
    full-document pane with a non-empty quote the pages are tried in
    ascending order from page 1 to the last known page
    ([numPages || 1]); the page hint and [searchPages] play no part; the
    selected page is the least page on which [highlightQuote] returns
    [true], and that page carries the highlight afterwards.  In
    particular, when [highlightQuote] returns [true] on pages 2 and 5,
    page 5 is never selected, and page 2 is selected unless page 1
    succeeds too.  The [jumpTo] of the hint-trusting pane goes to the
    hint clamped into [1, numPages || 1], if that page is mounted, and
    tries no other page. *)
Theorem jumpTo_selects_first_matching_page (c : Citation) (pane : Pane) (q : jsstring)
    (hc : HintedPane.Citation) (hpane : HintedPane.Pane) :
  quote c = JStr q -> q <> [] ->
  (exists pane' effects,
    jumpTo c pane = Normal (pane', effects)
    /\ (forall hint pages,
          jumpTo (mkCitation hint (quote c) pages) pane = Normal (pane', effects))
    /\ (forall p, selectedPage effects = Some p <->
          1 <= p <= numPages_or 1 pane
          /\ quoteFound p q (pageRefs pane) = true
          /\ forall p', 1 <= p' < p -> quoteFound p' q (pageRefs pane) = false)
    /\ (forall p, selectedPage effects = Some p ->
          effects = [RingAndScrollAfter 100 p 3000]
          /\ highlightedOn (pageRefs pane') p = true)
    /\ (5 <= numPages_or 1 pane ->
        quoteFound 2 q (pageRefs pane) = true ->
        quoteFound 5 q (pageRefs pane) = true ->
        selectedPage effects <> Some 5
        /\ (quoteFound 1 q (pageRefs pane) = false -> selectedPage effects = Some 2)))
  /\ (truthy (HintedPane.quote hc) = true ->
      let hp := HintedPane.targetPage hc hpane in
      HintedPane.jumpTo hc hpane
      = Normal (hpane,
                match HintedPane.pageRefs hpane !! hp with
                | Some _ => [HintedPane.AddRing hp; HintedPane.ScrollIntoView hp;
                             HintedPane.RemoveRingAfter 2000 hp;
                             HintedPane.HighlightAfter 300 hp (HintedPane.quote hc)]
                | None => [HintedPane.LogPageNotFound hp]
                end)).
Proof.
  intros Hq Hne. split.
  2: { intros Hhq. cbv zeta. unfold HintedPane.jumpTo. rewrite Hhq.
       destruct (HintedPane.pageRefs hpane !! _); reflexivity. }
  destruct (jumpTo_quote c pane q Hq Hne) as (refs' & Hjump & Hlook).
  set (n := numPages_or 1 pane) in *.
  assert (Hsel : forall p,
             selectedPage
               match firstFound q (pageRefs pane) (seq 1 n) with
               | Some found => [RingAndScrollAfter 100 found 3000]
               | None => LogQuoteNotFound :: scrollToFirst refs'
               end = Some p
             <-> firstFound q (pageRefs pane) (seq 1 n) = Some p).
  { intros p. destruct (firstFound q (pageRefs pane) (seq 1 n)) as [f|]; simpl.
    - reflexivity.
    - unfold scrollToFirst. destruct (refs' !! 1); simpl; split; discriminate. }
  assert (Hchar : forall p,
             firstFound q (pageRefs pane) (seq 1 n) = Some p <->
             1 <= p <= n /\ quoteFound p q (pageRefs pane) = true
             /\ forall p', 1 <= p' < p -> quoteFound p' q (pageRefs pane) = false).
  { intros p. rewrite firstFound_seq. split; intros (Hr & H); (split; [lia | exact H]). }
  eexists _, _. split; [exact Hjump|]. split; [|split; [|split]].
  - intros hint pages. rewrite jumpTo_hint_irrelevant. exact Hjump.
  - intros p. rewrite Hsel. apply Hchar.
  - intros p Hp. apply Hsel in Hp. rewrite Hp. split; [reflexivity|]. simpl.
    rewrite (highlightedOn_afterVisit q (pageRefs pane)).
    + apply Hchar in Hp. tauto.
    + rewrite Hlook, bool_decide_eq_true_2; [reflexivity|].
      apply found_is_visited, Hp.
  - intros Hn H2 H5. split.
    + rewrite Hsel, Hchar. intros (_ & _ & Hlt). rewrite (Hlt 2) in H2 by lia.
      discriminate.
    + intros H1. apply Hsel, Hchar. split; [lia|]. split; [exact H2|].
      intros p' Hp'. replace p' with 1 by lia. exact H1.
Qed.

Lemma jumpTo_selects_first_matching_page_witness :
  quote (mkCitation (Some 5) (JStr clause) None) = JStr clause
  /\ clause <> []
  /\ exists pane' effects,
       jumpTo (mkCitation (Some 5) (JStr clause) None) contract = Normal (pane', effects)
       /\ selectedPage effects = Some 2.
Proof.
  split; [reflexivity|]. split; [discriminate|].
  destruct (jumpTo_selects_first_matching_page
              (mkCitation (Some 5) (JStr clause) None) contract clause
              (HintedPane.mkCitation (Some 5) (JStr clause)) hintedContract
              eq_refl ltac:(discriminate))
    as ((pane' & effects & Hjump & _ & _ & _ & H25) & _).
  exists pane', effects. split; [exact Hjump|].
  apply H25; vm_compute; (reflexivity || lia).
Defined.

(** ** Clearing *)

Lemma spanMapOf_cleared layer : spanMapOf (clearSpan <$> layer) = spanMapOf layer.
Proof.
  unfold spanMapOf. f_equal. rewrite <- list_fmap_compose.
  apply list_fmap_ext. intros i x _. apply clearSpan_idem.
Qed.

(** The outcome on a page does not depend on the highlights the page
    carried before. *)
Lemma pageOutcome_cleared q layer :
  pageOutcome q (clearSpan <$> layer) = pageOutcome q layer.
Proof.
  unfold pageOutcome, fullPageTextOf, combinedNormalizedOf.
  rewrite spanMapOf_cleared.
  replace (clearSpan <$> (clearSpan <$> layer)) with (clearSpan <$> layer); [reflexivity|].
  rewrite <- list_fmap_compose. apply list_fmap_ext. intros i x _.
  symmetry. apply clearSpan_idem.
Qed.




(** Within one [jumpTo]: the pages before the selected one end without
    highlight, the pages after it are not touched. *)
Lemma jumpTo_clears_up_to_selected c pane q :
  quote c = JStr q -> q <> [] ->
  exists pane' effects,
    jumpTo c pane = Normal (pane', effects)
    /\ forall k, selectedPage effects = Some k ->
         (forall p, 1 <= p < k -> highlightedOn (pageRefs pane') p = false)
         /\ (forall p, k < p -> pageRefs pane' !! p = pageRefs pane !! p).
Proof.
  intros Hq Hne.
  destruct (jumpTo_quote c pane q Hq Hne) as (refs' & Hjump & Hlook).
  eexists _, _. split; [exact Hjump|]. intros k Hk.
  destruct (firstFound q (pageRefs pane) (seq 1 (numPages_or 1 pane))) as [f|] eqn:Hf.
  - injection Hk as ->. apply firstFound_seq in Hf as (Hr & Hfound & Hlt).
    simpl. split.
    + intros p Hp. rewrite (highlightedOn_afterVisit q (pageRefs pane)).
      * apply Hlt. lia.
      * rewrite Hlook, bool_decide_eq_true_2; [reflexivity|].
        apply visited_seq. split; [lia|]. intros p' Hp'. apply Hlt. lia.
    + intros p Hp. rewrite Hlook, bool_decide_eq_false_2; [reflexivity|].
      rewrite visited_seq. intros (_ & Hno). rewrite (Hno k) in Hfound by lia.
      discriminate.
  - exfalso. unfold scrollToFirst in Hk. simpl in Hk.
    destruct (refs' !! 1); discriminate.
Qed.

(** ** Completion *)

(** [jumpTo] returns for every citation. *)
Lemma jumpTo_returns c pane : exists r, jumpTo c pane = Normal r.
Proof.
  destruct (truthy (quote c)) eqn:Ht.
  - destruct (quote c) as [| |[|a q]] eqn:Hq; try discriminate.
    destruct (jumpTo_quote c pane (a :: q) Hq ltac:(discriminate)) as (refs' & H & _).
    eexists. exact H.
  - unfold jumpTo. rewrite Ht. eexists. reflexivity.
Qed.

(** ** No quote *)

(** C5, as the claim states it, fails on the full-document pane: without
    a quote and with the hint 2 on a document whose page 2 is mounted,
    it scrolls to page 1. *)
Lemma jumpTo_without_quote_ignores_hint :
  truthy (quote (mkCitation (Some 2) JUndefined None)) = false
  /\ is_Some (pageRefs twoPages !! 2)
  /\ jumpTo (mkCitation (Some 2) JUndefined None) twoPages
     = Normal (twoPages, [ScrollIntoView 1])
  /\ ScrollIntoView 2 ∉ [ScrollIntoView 1].
Proof.
  split; [reflexivity|]. split; [vm_compute; eauto|]. split; [reflexivity|].
  intros H%list_elem_of_singleton. discriminate.
Qed.

(** C5, as the code has it.  Without a quote ([undefined], [null] or
    the empty string) the full-document pane scrolls to page 1 whatever
    the hint is, and the hint-trusting pane rings and scrolls to the hint
    clamped into [1, numPages || 1] (page 1 without hint); either does so
    only if that page is mounted, changes no span, sets no highlight
    timer and returns normally. *)
Theorem jumpTo_without_quote (c : Citation) (pane : Pane)
    (hc : HintedPane.Citation) (hpane : HintedPane.Pane) :
  truthy (quote c) = false ->
  truthy (HintedPane.quote hc) = false ->
  jumpTo c pane
  = Normal (pane, match pageRefs pane !! 1 with
                  | Some _ => [ScrollIntoView 1]
                  | None => []
                  end)
  /\ (let p := HintedPane.targetPage hc hpane in
      HintedPane.jumpTo hc hpane
      = Normal (hpane,
                match HintedPane.pageRefs hpane !! p with
                | Some _ => [HintedPane.AddRing p; HintedPane.ScrollIntoView p;
                             HintedPane.RemoveRingAfter 2000 p]
                | None => [HintedPane.LogPageNotFound p]
                end)
      /\ 1 <= p <= HintedPane.numPages_or 1 hpane
      /\ (HintedPane.page hc = None -> p = 1)
      /\ (forall h, HintedPane.page hc = Some h ->
            1 <= h <= HintedPane.numPages_or 1 hpane -> p = h)).
Proof.
  intros Hq Hhq. split.
  - unfold jumpTo. rewrite Hq. reflexivity.
  - simpl. split; [|split; [|split]].
    + unfold HintedPane.jumpTo. rewrite Hhq.
      destruct (HintedPane.pageRefs hpane !! _); reflexivity.
    + unfold HintedPane.targetPage, HintedPane.numPages_or.
      destruct (HintedPane.numPages hpane) as [[|n]|];
        destruct (HintedPane.page hc) as [[|h]|]; lia.
    + unfold HintedPane.targetPage. intros ->.
      unfold HintedPane.numPages_or.
      destruct (HintedPane.numPages hpane) as [[|n]|]; lia.
    + unfold HintedPane.targetPage. intros h -> Hh.
      destruct h as [|h]; lia.
Qed.

Lemma jumpTo_without_quote_witness :
  jumpTo (mkCitation (Some 2) JNull None) twoPages
  = Normal (twoPages, [ScrollIntoView 1]).
Proof.
  exact (proj1 (jumpTo_without_quote
                  (mkCitation (Some 2) JNull None) twoPages
                  (HintedPane.mkCitation (Some 2) JNull)
                  (HintedPane.mkPane ∅ (Some 2) ∅) eq_refl eq_refl)).
Defined.

(** ** No match *)

(** C6, as the claim states it, fails: when page 1 is not mounted (a
    document whose pages have not been mounted yet), a quote found on no
    page is logged as not found and nothing is scrolled. *)
Lemma jumpTo_quote_not_found_without_scroll :
  let pane := {| pageRefs := ∅; numPages := Some 5; pageTextsRef := ∅ |} in
  (forall p, quoteFound p (js "nonexistent clause xyz123") (pageRefs pane) = false)
  /\ jumpTo (mkCitation (Some 3) (JStr (js "nonexistent clause xyz123")) None) pane
     = Normal (pane, [LogQuoteNotFound])
  /\ ScrollIntoView 1 ∉ [LogQuoteNotFound].
Proof.
  cbv zeta. split; [intros p; apply quoteFound_unmounted, lookup_empty|].
  split; [vm_compute; reflexivity|].
  intros H%list_elem_of_singleton. discriminate.
Qed.

(** C6, as the code has it.  For every [jumpTo] call with a non-empty
    quote that [highlightQuote] finds on none of the pages 1 to
    [numPages || 1]: the call returns normally and without a result, the
    outcome is told by the console log that the quote was not found, the
    pane scrolls to page 1 if that page is mounted and does not scroll
    otherwise, and afterwards no span of any of these pages carries the
    highlight attribute. *)
Theorem jumpTo_quote_not_found (c : Citation) (pane : Pane) (q : jsstring) :
  quote c = JStr q -> q <> [] ->
  (forall p, 1 <= p <= numPages_or 1 pane -> quoteFound p q (pageRefs pane) = false) ->
  exists pane',
    jumpTo c pane
    = Normal (pane',
              LogQuoteNotFound :: match pageRefs pane !! 1 with
                                  | Some _ => [ScrollIntoView 1]
                                  | None => []
                                  end)
    /\ forall p, 1 <= p <= numPages_or 1 pane ->
                 highlightedOn (pageRefs pane') p = false.
Proof.
  intros Hq Hne Hnone.
  destruct (jumpTo_quote c pane q Hq Hne) as (refs' & Hjump & Hlook).
  assert (Hf : firstFound q (pageRefs pane) (seq 1 (numPages_or 1 pane)) = None).
  { apply firstFound_seq_None. intros p Hp. apply Hnone. lia. }
  rewrite Hf in Hjump.
  assert (Hvis : forall p, 1 <= p <= numPages_or 1 pane ->
                           refs' !! p = afterVisit q <$> pageRefs pane !! p).
  { intros p Hp. rewrite Hlook, bool_decide_eq_true_2; [reflexivity|].
    apply visited_seq. split; [lia|]. intros p' Hp'. apply Hnone. lia. }
  assert (H1' : refs' !! 1 = afterVisit q <$> pageRefs pane !! 1).
  { apply Hvis. unfold numPages_or. destruct (numPages pane) as [[|n]|]; lia. }
  unfold scrollToFirst in Hjump. rewrite H1' in Hjump.
  eexists. split.
  - rewrite Hjump. destruct (pageRefs pane !! 1); reflexivity.
  - intros p Hp. simpl. rewrite (highlightedOn_afterVisit q (pageRefs pane)); auto.
Qed.

Lemma jumpTo_quote_not_found_witness :
  exists pane',
    jumpTo (mkCitation (Some 3) (JStr (js "nonexistent clause xyz123")) None) contract
    = Normal (pane', [LogQuoteNotFound; ScrollIntoView 1])
    /\ highlightedOn (pageRefs pane') 2 = false.
Proof.
  destruct (jumpTo_quote_not_found
              (mkCitation (Some 3) (JStr (js "nonexistent clause xyz123")) None)
              contract (js "nonexistent clause xyz123") eq_refl ltac:(discriminate))
    as (pane' & Hjump & Hclean).
  - intros p Hp. change (numPages_or 1 contract) with 5 in Hp.
    assert (Hcases : p = 1 \/ p = 2 \/ p = 3 \/ p = 4 \/ p = 5) by lia.
    destruct Hcases as [->|[->|[->|[->| ->]]]]; vm_compute; reflexivity.
  - exists pane'. split; [exact Hjump|]. apply Hclean.
    change (numPages_or 1 contract) with 5. lia.
Defined.

(** * Normalization *)

(** C3 fails on [normalizeText], the normalizer of the full-document
    matcher: punctuation is turned into spaces after the runs of white
    space have been collapsed, so ["a. b"] becomes ["a  b"] with two
    spaces, which a second pass turns into ["a b"]. *)
Theorem normalizeText_not_idempotent :
  normalizeText (JStr (js "a. b")) = Normal (js "a  b")
  /\ normalizeText (JStr (js "a  b")) = Normal (js "a b")
  /\ js "a  b" <> js "a b".
Proof. split; [reflexivity|]. split; [reflexivity | discriminate]. Qed.

(** The two other normalizers are idempotent. *)
Lemma norm_and_normalize_idempotent v s :
  (norm v = Normal s -> norm (JStr s) = Normal s)
  /\ (normalize v = Normal s -> normalize (JStr s) = Normal s).
Proof. split; [apply norm_idem | apply normalize_idem]. Qed.

(** [normalizeText] has no guard of its own: on [undefined] or [null]
    it would throw. *)
Lemma normalizeText_throws_without_string :
  normalizeText JUndefined = ThrowTypeError
  /\ normalizeText JNull = ThrowTypeError.
Proof. split; reflexivity. Qed.

Lemma strip_punct_blank s : blank s -> blank (strip_punct s).
Proof.
  unfold blank, strip_punct. intros H. apply List.Forall_forall.
  intros c Hc. apply filter_In in Hc as [Hc _].
  rewrite List.Forall_forall in H. apply H, Hc.
Qed.

Lemma blank_of_collapse b s : blank (collapse_from b s) -> blank s.
Proof.
  revert b. induction s as [|c s IH]; intros b H; [constructor|].
  simpl in H. destruct (is_space c) eqn:Hc.
  - constructor; [exact Hc|]. destruct b.
    + apply (IH true), H.
    + inversion H; subst. apply (IH true). assumption.
  - inversion H; subst. congruence.
Qed.

Lemma toLowerCase_nil s : toLowerCase s = [] -> s = [].
Proof. destruct s; [reflexivity | discriminate]. Qed.


(** * The ratio matcher *)

Lemma quoteFound_layer p q refs host layer :
  refs !! p = Some host -> textLayer host = Some layer ->
  quoteFound p q refs = (pageOutcome q layer).2.
Proof.
  intros Hp Hl. rewrite quoteFound_eq, Hp. simpl. rewrite Hl. reflexivity.
Qed.

(** After a hit at [matchIndex] with [searchText], a span gets marked
    exactly when [searchText] is not empty and the hit starts before the
    end of the offset table. *)
Lemma hit_marks_some_span layer matchIndex searchText combinedNormalized :
  indexOf searchText combinedNormalized = Some matchIndex ->
  (0 <? (markOverlapping 0 matchIndex (matchIndex + length searchText)
           (spanMapOf layer)).2) = true
  <-> searchText <> [] /\ matchIndex < sum_list_with spanLen (spanMapOf layer).
Proof.
  intros Hidx. rewrite Nat.ltb_lt. destruct searchText as [|a st].
  - rewrite indexOf_nil in Hidx. injection Hidx as <-.
    rewrite markOverlapping_before by (simpl; lia). split; [lia | tauto].
  - rewrite markOverlapping_hit by (simpl; lia). simpl. split.
    + intros H. split; [discriminate | lia].
    + intros [_ H]. lia.
Qed.

(** C7, as the claim states it, fails: the combined normalized text of a
    page with the single span ["ab"] does not contain the quote ["abcd"]
    but contains its first half ["ab"]; the gate asks for the first
    [min(15, 4)] characters of the quote, and [highlightQuote] returns
    [false] before any prefix is tried. *)
Lemma gate_rejects_half_prefix :
  let refs := docOf [["ab"%string]] in
  let searchQuery := normalizeText_str (js "abcd") in
  let combinedNormalized := combinedNormalizedOf [plain "ab"] in
  refs !! 1 = Some (mkHost (Some [plain "ab"]))
  /\ includes searchQuery combinedNormalized = false
  /\ includes (substring0 (searchLength Ratio50 (length searchQuery)) searchQuery)
       combinedNormalized = true
  /\ highlightQuote 1 (JStr (js "abcd")) refs = Normal (refs, false).
Proof. vm_compute. repeat split; reflexivity. Qed.

(** C7, as the code has it.  On a page that passes the gate, whose
    combined normalized text does not contain the whole normalized quote
    but contains its first half, the loop over 100 %, 75 % and 50 % stops
    at the first of the 75 % and 50 % prefixes that occurs (at 50 %
    exactly when the 75 % prefix does not occur), at the first occurrence
    of that prefix; this hit is what [highlightQuote] hands to the loop
    that marks the spans, and it returns whether that loop has marked a
    span. *)
Theorem ratio_search_falls_back_to_prefix (p : nat) (q : jsstring)
    (refs : gmap nat PageHost) (host : PageHost) (layer : list Span) :
  refs !! p = Some host -> textLayer host = Some layer ->
  gate (normalizeText_str q) (fullPageTextOf layer) = true ->
  includes (normalizeText_str q) (combinedNormalizedOf layer) = false ->
  includes (substring0 (searchLength Ratio50 (length (normalizeText_str q)))
              (normalizeText_str q))
    (combinedNormalizedOf layer) = true ->
  exists ratio matchIndex,
    let searchText :=
      substring0 (searchLength ratio (length (normalizeText_str q)))
        (normalizeText_str q) in
    ratioSearch searchLengths (normalizeText_str q) (combinedNormalizedOf layer)
    = Some (ratio, matchIndex, searchText)
    /\ indexOf searchText (combinedNormalizedOf layer) = Some matchIndex
    /\ (ratio = Ratio75 \/ ratio = Ratio50)
    /\ (ratio = Ratio50 <->
        includes (substring0 (searchLength Ratio75 (length (normalizeText_str q)))
                    (normalizeText_str q))
          (combinedNormalizedOf layer) = false)
    /\ highlightQuote p (JStr q) refs
       = Normal
           (let marked :=
              markOverlapping 0 matchIndex (matchIndex + length searchText)
                (spanEntry <$> (clearSpan <$> layer)) in
            (<[p := mkHost (Some marked.1)]> refs, 0 <? marked.2)).
Proof.
  intros Hp Hl Hgate Hfull Hhalf.
  rewrite highlightQuote_string, Hp. cbn [mbind option_bind]. rewrite Hl.
  unfold pageOutcome. rewrite Hgate, ratioSearch_first. cbv zeta.
  apply includes_false in Hfull. rewrite Hfull.
  apply includes_true in Hhalf as (i50 & H50).
  destruct (indexOf (substring0 (searchLength Ratio75 _) _) _) as [i75|] eqn:H75.
  - exists Ratio75, i75. rewrite H75.
    split; [reflexivity|]. split; [reflexivity|]. split; [auto|]. split.
    + split; [discriminate|]. rewrite includes_false. congruence.
    + reflexivity.
  - exists Ratio50, i50. rewrite H50.
    split; [reflexivity|]. split; [reflexivity|]. split; [auto|]. split.
    + split; [|reflexivity]. intros _. apply includes_false. exact H75.
    + reflexivity.
Qed.

Lemma ratio_search_falls_back_to_prefix_witness :
  let layer := [plain "the term shall be 12 months unless terminated"] in
  let q := js "the term shall be 12 months, renewable once" in
  exists ratio matchIndex,
    ratioSearch searchLengths (normalizeText_str q) (combinedNormalizedOf layer)
    = Some (ratio, matchIndex,
            substring0 (searchLength ratio (length (normalizeText_str q)))
              (normalizeText_str q))
    /\ ratio = Ratio50.
Proof.
  intros layer q.
  destruct (ratio_search_falls_back_to_prefix 1 q
              (<[1 := mkHost (Some layer)]> ∅) (mkHost (Some layer)) layer)
    as (ratio & matchIndex & Hrun & _ & _ & H50 & _);
    try (vm_compute; reflexivity).
  assert (Hr : ratio = Ratio50) by (apply H50; vm_compute; reflexivity).
  exists ratio, matchIndex. split; [exact Hrun | exact Hr].
Defined.

(** * From the match range to the spans *)

(** The offset table is built from the normalized span texts. *)
Lemma spanStartAt_texts layer i :
  spanStartAt (spanMapOf layer) i
  = sum_list_with (fun s => length (normalizeText_str (textContent s)) + 1)
      (take i layer).
Proof.
  unfold spanStartAt, spanMapOf. rewrite <- !fmap_take.
  induction (take i layer) as [|s l IH]; [reflexivity|].
  cbn [fmap list_fmap sum_list_with]. rewrite <- IH. unfold spanLen at 1. simpl.
  rewrite clearSpan_text. reflexivity.
Qed.

(** C8 fails on the code.  [matchIndex] is a position in
    [combinedNormalized], the normalization of the joined raw span
    texts, while [spanStart] and [spanEnd] add up the lengths of the
    spans' own normalized texts; a span of punctuation counts for its
    full length in the first and for nothing in the second.  On the
    page [ab | (((( | cd | ef | gh | ij] the quote [cd] is found at
    position 8 of the page text, where the span [cd] begins, and the
    span marked is [ef]. *)
Theorem match_range_marks_other_span :
  let layer := plain <$> ["ab"; "(((("; "cd"; "ef"; "gh"; "ij"]%string in
  let refs : gmap nat PageHost := <[1 := mkHost (Some layer)]> ∅ in
  join (textContent <$> layer) = js "ab (((( cd ef gh ij"
  /\ indexOf (js "cd") (join (textContent <$> layer)) = Some 8
  /\ sum_list_with (fun s => length (textContent s) + 1) (take 2 layer) = 8
  /\ ratioSearch searchLengths (normalizeText_str (js "cd")) (combinedNormalizedOf layer)
     = Some (Ratio100, 8, js "cd")
  /\ exists layer',
       highlightQuote 1 (JStr (js "cd")) refs
       = Normal (<[1 := mkHost (Some layer')]> refs, true)
       /\ textContent <$> layer' = textContent <$> layer
       /\ data_pdf_highlight <$> layer' = [false; false; false; true; false; false].
Proof.
  cbv zeta. split; [reflexivity|]. split; [reflexivity|]. split; [reflexivity|].
  split; [vm_compute; reflexivity|].
  exists [plain "ab"; plain "(((("; plain "cd"; markSpan (plain "ef");
          plain "gh"; plain "ij"].
  split; [vm_compute; reflexivity|]. split; reflexivity.
Qed.

(** The same slip makes [jumpTo] pass over a page that holds the quote:
    on page 2, [a | (((((((( | bcd], the quote [bcd] is found at
    position 11, past the end of the offset table, no span is marked,
    [highlightQuote] returns [false], and page 5 is selected. *)
Lemma page_with_unmarked_match_is_passed_over :
  let pane := paneOf [ ["x"]; ["a"; "(((((((("; "bcd"]; ["y"]; ["z"]; ["bcd"] ]%string in
  ratioSearch searchLengths (normalizeText_str (js "bcd"))
    (combinedNormalizedOf (plain <$> ["a"; "(((((((("; "bcd"]%string))
  = Some (Ratio100, 11, js "bcd")
  /\ quoteFound 2 (js "bcd") (pageRefs pane) = false
  /\ exists pane',
       jumpTo (mkCitation None (JStr (js "bcd")) None) pane
       = Normal (pane', [RingAndScrollAfter 100 5 3000]).
Proof.
  cbv zeta. split; [vm_compute; reflexivity|]. split; [vm_compute; reflexivity|].
  eexists. vm_compute. reflexivity.
Qed.

(** * The gate *)

(** C10. The first test of [highlightQuote] on a page with spans is the
    gate: unless the join of the spans' normalized texts contains the
    first [min(15, length)] characters of the normalized quote, the call
    returns [false] with the spans merely cleared, whatever the ratio
    loop would find.  The gate string normalizes every span and joins
    the results, the ratio loop searches the normalization of the joined
    raw texts, and the two can differ: on the sample page the 75 % prefix
    of the quote occurs in the latter, yet the gate rejects the page. *)
Theorem gate_rejects_before_ratio_search :
  (forall layer,
      fullPageTextOf layer
      = join ((fun s => normalizeText_str (textContent s)) <$> layer)
      /\ combinedNormalizedOf layer
         = normalizeText_str (join (textContent <$> layer)))
  /\ (forall p q refs host layer,
        refs !! p = Some host -> textLayer host = Some layer ->
        gate (normalizeText_str q) (fullPageTextOf layer) = false ->
        highlightQuote p (JStr q) refs
        = Normal (setLayer p (clearSpan <$> layer) refs, false))
  /\ (fullPageTextOf appendixLayer <> combinedNormalizedOf appendixLayer
      /\ (exists matchIndex searchText,
            ratioSearch searchLengths (normalizeText_str appendixQuote)
              (combinedNormalizedOf appendixLayer)
            = Some (Ratio75, matchIndex, searchText))
      /\ gate (normalizeText_str appendixQuote) (fullPageTextOf appendixLayer) = false
      /\ forall p refs host,
           refs !! p = Some host -> textLayer host = Some appendixLayer ->
           quoteFound p appendixQuote refs = false).
Proof.
  split; [|split].
  - apply searched_strings.
  - intros p q refs host layer Hp Hl Hgate.
    rewrite highlightQuote_string, Hp. simpl. rewrite Hl.
    unfold pageOutcome. rewrite Hgate. reflexivity.
  - split; [vm_compute; discriminate|]. split; [vm_compute; eauto|].
    split; [vm_compute; reflexivity|].
    intros p refs host Hp Hl. rewrite (quoteFound_layer _ _ _ _ _ Hp Hl).
    vm_compute. reflexivity.
Qed.

Lemma gate_rejects_before_ratio_search_witness :
  highlightQuote 1 (JStr appendixQuote) (<[1 := mkHost (Some appendixLayer)]> ∅)
  = Normal (setLayer 1 (clearSpan <$> appendixLayer)
              (<[1 := mkHost (Some appendixLayer)]> ∅), false).
Proof.
  apply (proj1 (proj2 gate_rejects_before_ratio_search)
           1 appendixQuote (<[1 := mkHost (Some appendixLayer)]> ∅)
           (mkHost (Some appendixLayer)) appendixLayer);
    vm_compute; reflexivity.
Defined.

(** * Extraction *)

Lemma join_cons2 s t rest : join (s :: t :: rest) = s ++ space :: join (t :: rest).
Proof. reflexivity. Qed.

Lemma join_blank_parts parts : blank (join parts) -> Forall blank parts.
Proof.
  induction parts as [|s [|t rest] IH]; intros H.
  - constructor.
  - constructor; [exact H | constructor].
  - rewrite join_cons2 in H. apply Forall_app in H as [Hs Hrest].
    inversion Hrest; subst. constructor; [exact Hs | apply IH; assumption].
Qed.

Lemma join_blank parts : Forall blank parts -> blank (join parts).
Proof.
  induction parts as [|s [|t rest] IH]; intros H.
  - constructor.
  - inversion H; assumption.
  - rewrite join_cons2. inversion H; subst. apply Forall_app. split; [assumption|].
    constructor; [reflexivity | apply IH; assumption].
Qed.

(** Nothing is found on a page whose text is blank. *)
Lemma blank_page_outcome q layer :
  trim (layerText layer) = [] -> (pageOutcome q layer).2 = false.
Proof.
  intros Htrim. apply trim_nil_blank in Htrim.
  destruct (searched_strings layer) as [Hfull Hcomb].
  assert (Hparts : Forall blank (textContent <$> layer))
    by (apply join_blank_parts; exact Htrim).
  assert (Hfb : blank (fullPageTextOf layer)).
  { rewrite Hfull. apply join_blank. rewrite Forall_fmap.
    rewrite Forall_fmap in Hparts. eapply Forall_impl; [exact Hparts|].
    intros s Hs. simpl in *. rewrite (normalizeText_blank _ Hs). constructor. }
  assert (Hcb : combinedNormalizedOf layer = []).
  { rewrite Hcomb. apply normalizeText_blank. exact Htrim. }
  unfold pageOutcome. destruct (normalizeText_str q) as [|c t] eqn:Hq.
  - destruct (gate [] _); [|reflexivity].
    rewrite ratioSearch_first, Hcb. simpl.
    rewrite markOverlapping_before by lia. reflexivity.
  - assert (Hgate : gate (c :: t) (fullPageTextOf layer) = false).
    { unfold gate, substring0. simpl length.
      replace (15 `min` S (length t)) with (S (14 `min` length t)) by lia.
      simpl. apply includes_blank; [|exact Hfb].
      apply (normalizeText_head q c t Hq). }
    rewrite Hgate. reflexivity.
Qed.

Lemma unpopulated_not_found p q refs host :
  refs !! p = Some host -> unpopulated host -> quoteFound p q refs = false.
Proof.
  intros Hp Hun. rewrite quoteFound_eq, Hp. simpl. unfold unpopulated in Hun.
  destruct (textLayer host) as [layer|]; [|reflexivity].
  apply blank_page_outcome, Hun.
Qed.

Lemma extractText_unpopulated p host cache :
  unpopulated host -> extractText p host cache = (cache, false).
Proof.
  unfold unpopulated, extractText. destruct (textLayer host) as [layer|]; [|reflexivity].
  intros ->. reflexivity.
Qed.

(** A selected page is a page on which the quote is found. *)
Lemma selected_page_found c pane pane' effects p :
  jumpTo c pane = Normal (pane', effects) ->
  selectedPage effects = Some p ->
  exists q, quote c = JStr q /\ quoteFound p q (pageRefs pane) = true.
Proof.
  intros Hjump Hsel. destruct (truthy (quote c)) eqn:Ht.
  - destruct (quote c) as [| |[|a q]] eqn:Hq; try discriminate.
    destruct (jumpTo_quote c pane (a :: q) Hq ltac:(discriminate))
      as (refs' & Hrun & _).
    rewrite Hrun in Hjump. injection Hjump as <- <-.
    exists (a :: q). split; [reflexivity|].
    destruct (firstFound _ _ _) as [f|] eqn:Hf.
    + injection Hsel as ->. apply firstFound_seq in Hf. tauto.
    + unfold scrollToFirst in Hsel. simpl in Hsel.
      destruct (refs' !! 1); discriminate.
  - unfold jumpTo in Hjump. rewrite Ht in Hjump. injection Hjump as <- <-.
    unfold scrollToFirst in Hsel. destruct (pageRefs pane !! 1); discriminate.
Qed.

(** [onPageRender] leaves at most one timer and the timer leaves none. *)
Lemma retry_budget p pane t :
  length (onPageRender p pane).2 <= 1 /\ (fire t pane).2 = [].
Proof.
  split.
  - unfold onPageRender. destruct (pageRefs pane !! p) as [host|]; [|simpl; lia].
    destruct (extractText p host (pageTextsRef pane)) as [cache [|]]; simpl; lia.
  - destruct t as [ms p']. simpl. destruct (pageRefs pane !! p'); reflexivity.
Qed.

(** [jumpTo] does not read the text cache. *)
Lemma jumpTo_reads_no_cache c pane :
  exists refs' effects,
    jumpTo c pane = Normal (withRefs pane refs', effects)
    /\ forall cache,
         jumpTo c (withCache pane cache)
         = Normal (withRefs (withCache pane cache) refs', effects).
Proof.
  destruct (jumpTo_returns c pane) as [r Hr]. destruct pane as [refs n cache0].
  unfold jumpTo, withCache, withRefs, numPages_or in *.
  cbn [pageRefs numPages pageTextsRef] in *.
  destruct (negb (truthy (quote c))).
  - exists refs, (scrollToFirst refs). split; [reflexivity|]. intros cache. reflexivity.
  - destruct (searchLoop _ _ _) as [[refs' found]|].
    + cbn [mbind completion_bind] in *. destruct found as [f|];
        eexists _, _; (split; [reflexivity|]); intros cache; reflexivity.
    + discriminate.
Qed.




(** * More on the normalizers *)

Section NormalForm.

Lemma lower_char_keeps_word c : is_word c = true -> is_word (lower_char c) = true.
Proof. destruct c as [[] [] [] [] [] [] [] []]; vm_compute; congruence. Qed.

Lemma is_word_not_space c : is_word c = true -> is_space c = false.
Proof. destruct c as [[] [] [] [] [] [] [] []]; vm_compute; congruence. Qed.

Lemma collapse_from_only_space b s :
  Forall (fun c => is_space c = true -> c = space) (collapse_from b s).
Proof.
  revert b. induction s as [|c s IH]; intros b; simpl; [constructor|].
  destruct (is_space c) eqn:Hc.
  - destruct b; [apply IH|]. constructor; [reflexivity | apply IH].
  - constructor; [congruence | apply IH].
Qed.

Lemma normal_unit_lower c : normal_unit c -> lower_char c = c.
Proof. intros [->|[_ H]]; [reflexivity | exact H]. Qed.

Lemma normal_unit_kept c : normal_unit c -> is_word c || is_space c = true.
Proof.
  intros [->|[H _]]; [reflexivity|]. rewrite H. reflexivity.
Qed.

Lemma punct_to_space_fixed s :
  Forall (fun c => is_word c || is_space c = true) s -> punct_to_space s = s.
Proof.
  induction 1 as [|c s Hc _ IH]; simpl; [reflexivity|].
  rewrite Hc. f_equal. exact IH.
Qed.

Lemma punct_to_space_normal s :
  Forall (fun c => lower_char c = c) s ->
  Forall (fun c => is_space c = true -> c = space) s ->
  Forall normal_unit (punct_to_space s).
Proof.
  intros Hlow Hsp. unfold punct_to_space. apply Forall_map.
  induction Hlow as [|c s Hc _ IH]; [constructor|].
  inversion Hsp; subst. constructor; [|apply IH; assumption]. simpl.
  destruct (is_word c) eqn:Hw; simpl.
  - right. auto.
  - destruct (is_space c) eqn:Hs; left; auto.
Qed.

Lemma toLowerCase_lowered s : Forall (fun c => lower_char c = c) (toLowerCase s).
Proof.
  unfold toLowerCase. apply Forall_map. apply List.Forall_forall.
  intros c _. simpl. apply lower_char_idem.
Qed.

(** A tidy, trimmed string of normal units is left as it is. *)
Lemma normalizeText_fixed s :
  Forall normal_unit s -> tidy_from false s = true -> trimmed s ->
  normalizeText_str s = s.
Proof.
  intros Hn Ht Hm. unfold normalizeText_str.
  rewrite (toLowerCase_fixed s) by (eapply Forall_impl; [exact Hn | apply normal_unit_lower]).
  unfold collapse_ws. rewrite (tidy_collapse_fixed false s Ht).
  rewrite (punct_to_space_fixed s)
    by (eapply Forall_impl; [exact Hn | apply normal_unit_kept]).
  apply trimmed_fixed, Hm.
Qed.

End NormalForm.

Lemma normalizeText_units (s : jsstring) :
  Forall normal_unit (normalizeText_str s).
Proof.
  unfold normalizeText_str. apply trim_Forall, punct_to_space_normal.
  - apply collapse_from_Forall; [reflexivity | apply toLowerCase_lowered].
  - apply collapse_from_only_space.
Qed.

(** X1. [normalizeText] returns only lower-case [\w] characters and
    SPACEs, and neither end of its result is white space. *)
Theorem normalizeText_output_shape (s : jsstring) :
  Forall normal_unit (normalizeText_str s) /\ trimmed (normalizeText_str s).
Proof. split; [apply normalizeText_units | apply trim_trimmed]. Qed.

(** X2. A second pass of [normalizeText] gives a fixed point: the
    result of two passes has single SPACEs only and a third pass does
    not change it. *)
Theorem normalizeText_settles_after_two (s : jsstring) :
  normalizeText_str (normalizeText_str (normalizeText_str s))
  = normalizeText_str (normalizeText_str s)
  /\ tidy_from false (normalizeText_str (normalizeText_str s)) = true.
Proof.
  pose proof (normalizeText_units s) as Hn.
  set (t := normalizeText_str s) in *.
  assert (Hlow : toLowerCase t = t)
    by (apply toLowerCase_fixed; eapply Forall_impl; [exact Hn | apply normal_unit_lower]).
  assert (Hc : Forall normal_unit (collapse_ws t))
    by (apply collapse_from_Forall; [left; reflexivity | exact Hn]).
  assert (Hp : punct_to_space (collapse_ws t) = collapse_ws t)
    by (apply punct_to_space_fixed; eapply Forall_impl; [exact Hc | apply normal_unit_kept]).
  assert (E : normalizeText_str t = trim (collapse_ws t)).
  { unfold normalizeText_str at 1. rewrite Hlow, Hp. reflexivity. }
  assert (Htidy : tidy_from false (trim (collapse_ws t)) = true)
    by (apply (trim_tidy false), collapse_from_tidy).
  rewrite E. split; [|exact Htidy].
  apply normalizeText_fixed; [apply trim_Forall, Hc | exact Htidy | apply trim_trimmed].
Qed.

(** X3. [normalize] of the chat pane returns lower-case [\w]
    characters separated by single SPACEs, without white space at
    either end, and is a fixed point of [normalize], of [norm] and of
    [normalizeText]. *)
Theorem normalize_output_canonical (v : JsVal) (s : jsstring) :
  normalize v = Normal s ->
  Forall normal_unit s /\ tidy_from false s = true /\ trimmed s
  /\ normalize (JStr s) = Normal s
  /\ norm (JStr s) = Normal s
  /\ normalizeText (JStr s) = Normal s.
Proof.
  intros H. pose proof (normalize_idem v s H) as Hidem.
  unfold normalize in H. injection H as <-.
  set (u := strip_punct (toLowerCase (or_empty v))) in *.
  assert (Hu : Forall (fun c => lower_char c = c /\ is_word c || is_space c = true) u).
  { unfold u, strip_punct. apply List.Forall_forall. intros c Hc.
    apply filter_In in Hc as [Hc Hk]. split; [|exact Hk].
    unfold toLowerCase in Hc. apply in_map_iff in Hc as (d & <- & _).
    apply lower_char_idem. }
  assert (Hn : Forall normal_unit (trim (collapse_ws u))).
  { apply trim_Forall.
    pose proof (collapse_from_only_space false u) as Hsp.
    assert (Hk : Forall (fun c => lower_char c = c /\ is_word c || is_space c = true)
                   (collapse_from false u))
      by (apply collapse_from_Forall; [split; reflexivity | exact Hu]).
    unfold collapse_ws.
    induction Hk as [|c l [Hl Hw] _ IH]; [constructor|].
    inversion Hsp; subst. constructor; [|apply IH; assumption].
    destruct (is_word c) eqn:Hword; [right; auto|].
    left. simpl in Hw. auto. }
  assert (Ht : tidy_from false (trim (collapse_ws u)) = true)
    by (apply (trim_tidy false), collapse_from_tidy).
  assert (Hm : trimmed (trim (collapse_ws u))) by apply trim_trimmed.
  split; [exact Hn|]. split; [exact Ht|]. split; [exact Hm|].
  split; [exact Hidem|]. split.
  - assert (Hcy : collapse_ws (trim (collapse_ws u)) = trim (collapse_ws u))
      by apply (tidy_collapse_fixed false _ Ht).
    unfold norm. simpl or_empty. f_equal. rewrite Hcy, (trimmed_fixed _ Hm).
    apply toLowerCase_fixed. eapply Forall_impl; [exact Hn | apply normal_unit_lower].
  - change (normalizeText (JStr (trim (collapse_ws u))))
      with (Normal (normalizeText_str (trim (collapse_ws u)))).
    f_equal. apply normalizeText_fixed; assumption.
Qed.

Lemma normalize_output_canonical_witness :
  normalize (JStr (js "  Clause  3.2!  ")) = Normal (js "clause 32")
  /\ normalizeText (JStr (js "clause 32")) = Normal (js "clause 32").
Proof.
  split; [reflexivity|].
  exact (proj2 (proj2 (proj2 (proj2 (proj2
           (normalize_output_canonical (JStr (js "  Clause  3.2!  "))
              (js "clause 32") eq_refl)))))).
Defined.

Lemma nonspace_collapse b s :
  List.filter (fun c => negb (is_space c)) (collapse_from b s)
  = List.filter (fun c => negb (is_space c)) s.
Proof.
  revert b. induction s as [|c s IH]; intros b; [reflexivity|].
  simpl. destruct (is_space c) eqn:Hc; simpl.
  - destruct b; [apply IH|]. change (space :: collapse_from true s)
      with ([space] ++ collapse_from true s).
    rewrite List.filter_app. apply IH.
  - rewrite Hc. simpl. f_equal. apply IH.
Qed.

Lemma nonspace_trimStart s :
  List.filter (fun c => negb (is_space c)) (trimStart s)
  = List.filter (fun c => negb (is_space c)) s.
Proof.
  induction s as [|c s IH]; [reflexivity|]. simpl.
  destruct (is_space c) eqn:Hc; simpl; [exact IH|]. rewrite Hc. reflexivity.
Qed.

Lemma nonspace_trim s :
  List.filter (fun c => negb (is_space c)) (trim s)
  = List.filter (fun c => negb (is_space c)) s.
Proof.
  unfold trim, trimEnd.
  rewrite List.filter_rev, nonspace_trimStart, <- List.filter_rev, rev_involutive.
  apply nonspace_trimStart.
Qed.

Lemma nonspace_lower s :
  List.filter (fun c => negb (is_space c)) (toLowerCase s)
  = toLowerCase (List.filter (fun c => negb (is_space c)) s).
Proof.
  unfold toLowerCase. induction s as [|c s IH]; [reflexivity|]. simpl.
  rewrite lower_char_space. destruct (is_space c); simpl; [exact IH|].
  f_equal. exact IH.
Qed.

(** X4. [norm], the normalizer of the quotes in both panes, keeps
    punctuation: the characters of its result that are not white space
    are those of its argument, put in lower case, in the same order; the
    result is in lower case, has single SPACEs as its only white space,
    none at either end, and is a fixed point of [norm]. *)
Theorem norm_output_canonical (v : JsVal) (s : jsstring) :
  norm v = Normal s ->
  List.filter (fun c => negb (is_space c)) s
  = toLowerCase (List.filter (fun c => negb (is_space c)) (or_empty v))
  /\ toLowerCase s = s /\ tidy_from false s = true /\ trimmed s
  /\ norm (JStr s) = Normal s.
Proof.
  intros H. pose proof (norm_idem v s H) as Hidem.
  unfold norm in H. injection H as <-.
  split; [rewrite nonspace_lower, nonspace_trim; unfold collapse_ws;
          rewrite nonspace_collapse; reflexivity|].
  split; [apply toLowerCase_idem|].
  split; [apply tidy_from_lower, (trim_tidy false), collapse_from_tidy|].
  split; [apply trimmed_lower, trim_trimmed | exact Hidem].
Qed.

Lemma norm_output_canonical_witness :
  norm (JStr (js " A.  B ")) = Normal (js "a. b")
  /\ List.filter (fun c => negb (is_space c)) (js "a. b") = js "a.b"
  /\ norm (JStr (js "a. b")) = Normal (js "a. b").
Proof.
  split; [reflexivity|]. split; [reflexivity|].
  exact (proj2 (proj2 (proj2 (proj2
           (norm_output_canonical (JStr (js " A.  B ")) (js "a. b") eq_refl))))).
Defined.

(** * More on the matcher *)

Section Prefixes.

Lemma includes_take needle s k :
  includes needle s = true -> includes (take k needle) s = true.
Proof.
  rewrite !includes_occurs. intros (pre & post & ->).
  exists pre, (drop k needle ++ post).
  rewrite (app_assoc (take k needle)), take_drop. reflexivity.
Qed.

Lemma includes_take_le needle s j k :
  j <= k -> includes (take k needle) s = true -> includes (take j needle) s = true.
Proof.
  intros Hjk H. apply (includes_take _ _ j) in H.
  rewrite take_take in H. replace (j `min` k) with j in H by lia. exact H.
Qed.

Lemma includes_nil s : includes [] s = true.
Proof. apply includes_true. exists 0. apply indexOf_nil. Qed.

Lemma indexOf_bound needle s i :
  indexOf needle s = Some i -> i + length needle <= length s.
Proof.
  intros H. destruct (indexOf_occurs _ _ _ H) as (pre & post & -> & <-).
  rewrite !length_app. lia.
Qed.

Lemma searchLength_half_le n : searchLength Ratio50 n <= searchLength Ratio75 n.
Proof.
  unfold searchLength. apply Nat.div_le_lower_bound; [discriminate|].
  pose proof (Nat.Div0.mul_div_le n 2). lia.
Qed.

End Prefixes.

(** X5. The loop over 100 %, 75 % and 50 % finds a hit exactly when the
    first half of the normalized quote occurs in the combined text; the
    hit is the longest of the three prefixes that occurs, at the
    position [indexOf] gives, and it is the 100 % one exactly when the
    whole quote occurs. *)
Theorem ratioSearch_hits_iff_half_occurs (searchQuery combinedNormalized : jsstring) :
  let prefix ratio := substring0 (searchLength ratio (length searchQuery)) searchQuery in
  (ratioSearch searchLengths searchQuery combinedNormalized = None <->
   includes (prefix Ratio50) combinedNormalized = false)
  /\ forall ratio matchIndex searchText,
       ratioSearch searchLengths searchQuery combinedNormalized
       = Some (ratio, matchIndex, searchText) ->
       searchText = prefix ratio
       /\ indexOf searchText combinedNormalized = Some matchIndex
       /\ matchIndex + length searchText <= length combinedNormalized
       /\ (ratio = Ratio100 <-> includes searchQuery combinedNormalized = true)
       /\ (ratio = Ratio50 -> includes (prefix Ratio75) combinedNormalized = false).
Proof.
  intros prefix. rewrite ratioSearch_first. cbv zeta. fold prefix.
  assert (H100 : prefix Ratio100 = searchQuery) by apply substring0_all.
  assert (Hmono75 : includes searchQuery combinedNormalized = true ->
                    includes (prefix Ratio75) combinedNormalized = true)
    by apply includes_take.
  assert (Hmono50 : includes (prefix Ratio75) combinedNormalized = true ->
                    includes (prefix Ratio50) combinedNormalized = true).
  { apply includes_take_le, searchLength_half_le. }
  destruct (indexOf searchQuery combinedNormalized) as [i|] eqn:Hfull.
  - assert (Hinc : includes searchQuery combinedNormalized = true)
      by (apply includes_true; eauto).
    split.
    + split; [discriminate|]. rewrite (Hmono50 (Hmono75 Hinc)). discriminate.
    + intros ratio mi st [= <- <- <-]. rewrite H100.
      split; [reflexivity|]. split; [exact Hfull|].
      split; [apply indexOf_bound, Hfull|]. split; [tauto | discriminate].
  - assert (Hinc : includes searchQuery combinedNormalized = false)
      by (apply includes_false; exact Hfull).
    destruct (indexOf (prefix Ratio75) combinedNormalized) as [i|] eqn:H75.
    + assert (Hinc75 : includes (prefix Ratio75) combinedNormalized = true)
        by (apply includes_true; eauto).
      split.
      * split; [discriminate|]. rewrite (Hmono50 Hinc75). discriminate.
      * intros ratio mi st [= <- <- <-].
        split; [reflexivity|]. split; [exact H75|].
        split; [apply indexOf_bound, H75|].
        split; [split; [discriminate | congruence] | discriminate].
    + destruct (indexOf (prefix Ratio50) combinedNormalized) as [i|] eqn:H50.
      * split.
        -- split; [discriminate|]. rewrite includes_false. congruence.
        -- intros ratio mi st [= <- <- <-].
           split; [reflexivity|]. split; [exact H50|].
           split; [apply indexOf_bound, H50|].
           split; [split; [discriminate | congruence]|].
           intros _. apply includes_false. exact H75.
      * split.
        -- split; [intros _; apply includes_false; exact H50 | reflexivity].
        -- intros ratio mi st [=].
Qed.

Lemma ratioSearch_hits_iff_half_occurs_witness :
  ratioSearch searchLengths (js "abcdefgh") (js "xx abcdef yy")
  = Some (Ratio75, 3, js "abcdef")
  /\ indexOf (js "abcdef") (js "xx abcdef yy") = Some 3.
Proof.
  split; [reflexivity|].
  exact (proj1 (proj2 (proj2 (ratioSearch_hits_iff_half_occurs
                                (js "abcdefgh") (js "xx abcdef yy"))
                               Ratio75 3 (js "abcdef") eq_refl))).
Defined.

(** ** Quotes without a word character *)

Lemma empty_query_outcome q layer :
  normalizeText_str q = [] -> (pageOutcome q layer).2 = false.
Proof.
  intros Hq. unfold pageOutcome. rewrite Hq.
  destruct (gate [] _); [|reflexivity].
  rewrite ratioSearch_first. simpl. rewrite indexOf_nil. simpl.
  rewrite markOverlapping_before by lia. reflexivity.
Qed.



(** ** The outcome depends on the texts only *)

(** X7. Whether a quote is found on a page, and which spans end up
    marked, depends on the span texts alone, not on the highlights the
    page carries; and [highlightQuote] is idempotent: called again with
    the same quote it returns the same boolean and leaves every page as
    the first call left it. *)
Theorem highlightQuote_is_idempotent (p : nat) (q : jsstring)
    (refs refs' : gmap nat PageHost) (success : bool) :
  highlightQuote p (JStr q) refs = Normal (refs', success) ->
  highlightQuote p (JStr q) refs' = Normal (refs', success)
  /\ forall other : gmap nat PageHost,
       textContent <$> layerOf other p = textContent <$> layerOf refs p ->
       is_Some (other !! p ≫= textLayer) ->
       quoteFound p q other = success.
Proof.
  rewrite highlightQuote_string.
  assert (Hdep : forall l1 l2,
             textContent <$> l1 = textContent <$> l2 ->
             (pageOutcome q l1).2 = (pageOutcome q l2).2).
  { intros l1 l2 Ht.
    unfold pageOutcome. rewrite !fullPageTextOf_texts, !combinedNormalizedOf_texts, Ht.
    destruct (gate _ _); [|reflexivity].
    destruct (ratioSearch _ _ _) as [[[r mi] st]|]; [|reflexivity]. simpl.
    rewrite (proj1 (markOverlapping_marks (spanMapOf l1) (spanMapOf l2) 0 mi
                      (mi + length st)
                      ltac:(rewrite !spanMapOf_normalized, Ht; reflexivity))).
    reflexivity. }
  destruct (refs !! p ≫= textLayer) as [layer|] eqn:Hl.
  - intros [= <- <-]. split.
    + rewrite highlightQuote_string. unfold setLayer at 1.
      rewrite lookup_insert_eq. simpl.
      assert (Hsame : pageOutcome q (pageOutcome q layer).1 = pageOutcome q layer).
      { apply injective_projections; [|apply Hdep, pageOutcome_texts].
        apply list_eq. intros i.
        pose proof (pageOutcome_texts q layer) as Ht.
        unfold pageOutcome at 1 3.
        rewrite !fullPageTextOf_texts, !combinedNormalizedOf_texts, Ht.
        destruct (gate _ _) eqn:Hgate.
        - destruct (ratioSearch _ _ _) as [[[r mi] st]|] eqn:Hsearch.
          + simpl.
            assert (Hout : (pageOutcome q layer).1
                           = (markOverlapping 0 mi (mi + length st) (spanMapOf layer)).1).
            { unfold pageOutcome.
              rewrite fullPageTextOf_texts, combinedNormalizedOf_texts, Hgate, Hsearch.
              reflexivity. }
            destruct (markOverlapping_marks (spanMapOf (pageOutcome q layer).1)
                        (spanMapOf layer) 0 mi (mi + length st)
                        ltac:(rewrite !spanMapOf_normalized, Ht; reflexivity))
              as [_ Hi].
            assert (Hlen : length (pageOutcome q layer).1 = length layer)
              by apply pageOutcome_length.
            destruct ((pageOutcome q layer).1 !! i) as [s1|] eqn:E1;
              destruct (layer !! i) as [s2|] eqn:E2.
            * assert (Ht12 : textContent s1 = textContent s2).
              { assert (Hti : (textContent <$> (pageOutcome q layer).1) !! i
                              = (textContent <$> layer) !! i) by (rewrite Ht; reflexivity).
                rewrite !list_lookup_fmap, E1, E2 in Hti. injection Hti. auto. }
              destruct (Hi i (spanEntry (clearSpan s1)) (spanEntry (clearSpan s2)))
                as [[Hm1 Hm2]|[Hm1 Hm2]];
                try (rewrite spanMapOf_lookup; (rewrite E1 || rewrite E2); reflexivity).
              -- rewrite Hm1, Hm2. f_equal. unfold markSpan. simpl.
                 rewrite !clearSpan_text, Ht12. reflexivity.
              -- rewrite Hm1, Hm2. f_equal. simpl.
                 rewrite Hout, Hm2 in E1. injection E1 as <-. apply clearSpan_idem.
            * apply lookup_lt_Some in E1. apply lookup_ge_None in E2. lia.
            * apply lookup_lt_Some in E2. apply lookup_ge_None in E1. lia.
            * rewrite !markOverlapping_lookup, !spanMapOf_lookup, E1, E2. reflexivity.
          + assert (Hout : (pageOutcome q layer).1 = clearSpan <$> layer).
            { unfold pageOutcome.
              rewrite fullPageTextOf_texts, combinedNormalizedOf_texts, Hgate, Hsearch.
              reflexivity. }
            simpl. rewrite Hout, !list_lookup_fmap.
            destruct (layer !! i); simpl; [|reflexivity]. f_equal. apply clearSpan_idem.
        - assert (Hout : (pageOutcome q layer).1 = clearSpan <$> layer).
          { unfold pageOutcome.
            rewrite fullPageTextOf_texts, combinedNormalizedOf_texts, Hgate.
            reflexivity. }
          simpl. rewrite Hout, !list_lookup_fmap.
          destruct (layer !! i); simpl; [|reflexivity]. f_equal. apply clearSpan_idem. }
      rewrite Hsame. unfold setLayer. rewrite insert_insert_eq. reflexivity.
    + intros other Ht [l Hol]. rewrite quoteFound_eq, Hol.
      unfold layerOf in Ht. rewrite Hol, Hl in Ht. simpl in Ht.
      apply Hdep, Ht.
  - intros [= <- <-]. split.
    + rewrite highlightQuote_string, Hl. reflexivity.
    + intros other Ht [l Hol]. rewrite quoteFound_eq, Hol.
      unfold layerOf in Ht. rewrite Hol, Hl in Ht. simpl in Ht.
      destruct l; [|discriminate]. rewrite pageOutcome_nil. reflexivity.
Qed.

Lemma highlightQuote_is_idempotent_witness :
  exists refs',
    highlightQuote 2 (JStr clause) (pageRefs contract) = Normal (refs', true)
    /\ highlightQuote 2 (JStr clause) refs' = Normal (refs', true).
Proof.
  eexists. split; [vm_compute; reflexivity|].
  apply (highlightQuote_is_idempotent 2 clause (pageRefs contract)).
  vm_compute. reflexivity.
Defined.

(** * Pages whose spans begin and end with a word character *)

Section Alignment.

Lemma collapse_from_app b u w :
  match w with c :: _ => is_space c = false | [] => True end ->
  collapse_from b (u ++ w) = collapse_from b u ++ collapse_from false w.
Proof.
  intros Hw. revert b. induction u as [|c u IH]; intros b; simpl.
  - destruct w as [|d w]; [reflexivity|]. simpl. rewrite Hw. reflexivity.
  - destruct (is_space c); [destruct b|]; simpl; rewrite IH; reflexivity.
Qed.

Lemma ends_word_inv x :
  ends_word x = true -> exists u a, x = u ++ [a] /\ is_word a = true.
Proof.
  unfold ends_word, starts_word. destruct (rev x) as [|a r] eqn:Hr; [discriminate|].
  intros Ha. exists (rev r), a. split; [|exact Ha].
  rewrite <- (rev_involutive x), Hr. reflexivity.
Qed.

Lemma starts_word_inv x :
  starts_word x = true -> exists c v, x = c :: v /\ is_word c = true.
Proof. destruct x as [|c v]; [discriminate|]. intros H. eauto. Qed.

Lemma ends_word_snoc u a : ends_word (u ++ [a]) = is_word a.
Proof. unfold ends_word. rewrite rev_app_distr. reflexivity. Qed.

Lemma untrimmed_app u w :
  starts_word w = true -> untrimmed (u ++ w) = untrimmed u ++ untrimmed w.
Proof.
  intros (c & v & -> & Hc)%starts_word_inv.
  unfold untrimmed, toLowerCase, collapse_ws, punct_to_space.
  rewrite map_app, collapse_from_app, map_app; [reflexivity|].
  simpl. apply is_word_not_space, lower_char_keeps_word, Hc.
Qed.

Lemma untrimmed_cons c v :
  is_word c = true -> untrimmed (c :: v) = lower_char c :: untrimmed v.
Proof.
  intros Hc. unfold untrimmed, toLowerCase, collapse_ws, punct_to_space. simpl.
  pose proof (lower_char_keeps_word c Hc) as Hlc.
  rewrite (is_word_not_space _ Hlc). simpl. rewrite Hlc. reflexivity.
Qed.

Lemma untrimmed_snoc u a :
  is_word a = true -> untrimmed (u ++ [a]) = untrimmed u ++ [lower_char a].
Proof.
  intros Ha. rewrite untrimmed_app by exact Ha.
  rewrite (untrimmed_cons a [] Ha). reflexivity.
Qed.

Lemma untrimmed_space_word c v :
  is_word c = true -> untrimmed (space :: c :: v) = space :: untrimmed (c :: v).
Proof.
  intros Hc. unfold untrimmed, toLowerCase, collapse_ws, punct_to_space.
  pose proof (lower_char_keeps_word c Hc) as Hlc.
  change (map lower_char (space :: c :: v)) with (space :: lower_char c :: map lower_char v).
  change (map lower_char (c :: v)) with (lower_char c :: map lower_char v).
  simpl. rewrite (is_word_not_space _ Hlc). reflexivity.
Qed.

Lemma untrimmed_starts x : starts_word x = true -> starts_word (untrimmed x) = true.
Proof.
  intros (c & v & -> & Hc)%starts_word_inv.
  rewrite (untrimmed_cons c v Hc). simpl.
  apply lower_char_keeps_word, Hc.
Qed.

Lemma untrimmed_ends x : ends_word x = true -> ends_word (untrimmed x) = true.
Proof.
  intros (u & a & -> & Ha)%ends_word_inv.
  rewrite (untrimmed_snoc u a Ha), ends_word_snoc.
  apply lower_char_keeps_word, Ha.
Qed.

(** Across a joining space between two word characters the three
    replacements act on either side separately. *)
Lemma untrimmed_join2 x y :
  ends_word x = true -> starts_word y = true ->
  untrimmed (x ++ space :: y) = untrimmed x ++ space :: untrimmed y.
Proof.
  intros (u & a & -> & Ha)%ends_word_inv (c & v & -> & Hc)%starts_word_inv.
  rewrite <- app_assoc. simpl.
  rewrite (untrimmed_app u (a :: space :: c :: v)) by exact Ha.
  rewrite (untrimmed_cons a _ Ha), (untrimmed_space_word c v Hc).
  rewrite (untrimmed_snoc u a Ha), <- app_assoc. reflexivity.
Qed.

Lemma trimmed_of_word_ends x :
  starts_word x = true -> ends_word x = true -> trimmed x.
Proof.
  intros (c & v & Hx & Hc)%starts_word_inv Hend. split.
  - apply (trimStart_fixed x c v Hx), is_word_not_space, Hc.
  - unfold ends_word in Hend. apply starts_word_inv in Hend as (a & r & Hr & Ha).
    apply (trimStart_fixed _ a r Hr), is_word_not_space, Ha.
Qed.

Lemma normalizeText_untrimmed x :
  starts_word x = true -> ends_word x = true -> normalizeText_str x = untrimmed x.
Proof.
  intros Hs He. unfold normalizeText_str. fold (untrimmed x).
  apply trimmed_fixed, trimmed_of_word_ends; [apply untrimmed_starts | apply untrimmed_ends];
    assumption.
Qed.

Lemma join_starts (parts : list jsstring) :
  Forall word_ended parts -> parts <> [] -> starts_word (join parts) = true.
Proof.
  intros H Hne. destruct H as [|x rest [Hx _] Hrest]; [congruence|].
  destruct rest as [|y rest]; [exact Hx|]. rewrite join_cons2.
  apply starts_word_inv in Hx as (c & v & -> & Hc). exact Hc.
Qed.

Lemma join_ends (parts : list jsstring) :
  Forall word_ended parts -> parts <> [] -> ends_word (join parts) = true.
Proof.
  induction parts as [|x [|y rest] IH]; intros H Hne; [congruence| |].
  - inversion H as [|? ? [_ Hx] _]; subst. exact Hx.
  - inversion H as [|? ? _ Hrest]; subst. rewrite join_cons2.
    specialize (IH Hrest ltac:(discriminate)).
    apply ends_word_inv in IH as (u & a & Hj & Ha). rewrite Hj.
    change (x ++ space :: u ++ [a]) with (x ++ (space :: u) ++ [a]).
    rewrite app_assoc, ends_word_snoc. exact Ha.
Qed.

Lemma untrimmed_join (parts : list jsstring) :
  Forall word_ended parts -> untrimmed (join parts) = join (untrimmed <$> parts).
Proof.
  induction parts as [|x [|y rest] IH]; intros H; [reflexivity | reflexivity|].
  inversion H as [|? ? [_ Hx] Hrest]; subst.
  rewrite join_cons2, untrimmed_join2;
    [|exact Hx | apply join_starts; [exact Hrest | discriminate]].
  rewrite (IH Hrest). reflexivity.
Qed.

(** Normalizing the joined texts is joining the normalized texts. *)
Lemma normalizeText_join (parts : list jsstring) :
  Forall word_ended parts ->
  normalizeText_str (join parts) = join (normalizeText_str <$> parts).
Proof.
  intros H. destruct parts as [|x rest] eqn:Hp; [reflexivity|]. rewrite <- Hp in *.
  assert (Hne : parts <> []) by (rewrite Hp; discriminate).
  rewrite normalizeText_untrimmed by (apply join_starts || apply join_ends; assumption).
  rewrite (untrimmed_join parts H). f_equal.
  apply list_fmap_ext. intros i s Hs. symmetry.
  apply list_elem_of_lookup_2 in Hs.
  rewrite Forall_forall in H. destruct (H s Hs). apply normalizeText_untrimmed; assumption.
Qed.

End Alignment.

Lemma join_length (parts : list jsstring) :
  parts <> [] ->
  length (join parts) + 1 = sum_list_with (fun s => length s + 1) parts.
Proof.
  induction parts as [|x [|y rest] IH]; intros Hne; [congruence| |].
  - simpl. lia.
  - specialize (IH ltac:(discriminate)).
    rewrite join_cons2, length_app, length_cons.
    change (sum_list_with (fun s => length s + 1) (x :: y :: rest))
      with (length x + 1 + sum_list_with (fun s => length s + 1) (y :: rest)).
    rewrite <- IH. lia.
Qed.

(** The offset table ends one past the end of the gate string. *)
Lemma offset_table_end layer :
  layer <> [] ->
  sum_list_with spanLen (spanMapOf layer) = length (fullPageTextOf layer) + 1.
Proof.
  intros Hne. unfold fullPageTextOf. rewrite join_length.
  - generalize (spanMapOf layer). intros l.
    induction l as [|e l IH]; [reflexivity|]. simpl. rewrite IH. reflexivity.
  - unfold spanMapOf. destruct layer; [congruence | discriminate].
Qed.

Lemma gate_string_is_searched_string (layer : list Span) :
  Forall (fun s => word_ended (textContent s)) layer ->
  fullPageTextOf layer = combinedNormalizedOf layer.
Proof.
  intros H. rewrite fullPageTextOf_texts, combinedNormalizedOf_texts.
  symmetry. apply normalizeText_join. apply Forall_fmap. exact H.
Qed.

(** X8. On a page whose span texts all begin and end with a [\w]
    character, the gate string (the join of the normalized span texts)
    and the string the ratio loop searches (the normalization of the
    joined raw texts) are the same string. *)
Theorem word_ended_spans_align (layer : list Span) :
  Forall (fun s => word_ended (textContent s)) layer ->
  fullPageTextOf layer = combinedNormalizedOf layer.
Proof. exact (gate_string_is_searched_string layer). Qed.

Lemma word_ended_spans_align_witness :
  fullPageTextOf [plain "The term shall be"; plain "12 months"]
  = combinedNormalizedOf [plain "The term shall be"; plain "12 months"].
Proof.
  apply word_ended_spans_align.
  repeat constructor.
Defined.

(** X9. On such a page a quote whose normalized form has [n >= 1]
    characters is found exactly when the first
    [max(min(15, n), floor(n / 2))] of them occur in the page's
    normalized text. *)
Theorem word_ended_spans_found (p : nat) (q : jsstring) (refs : gmap nat PageHost)
    (host : PageHost) (layer : list Span) :
  refs !! p = Some host -> textLayer host = Some layer ->
  Forall (fun s => word_ended (textContent s)) layer ->
  normalizeText_str q <> [] ->
  let n := length (normalizeText_str q) in
  quoteFound p q refs
  = includes (take (max (min 15 n) (n / 2)) (normalizeText_str q))
      (combinedNormalizedOf layer).
Proof.
  intros Hp Hl Hw Hq n.
  rewrite (quoteFound_layer p q refs host layer Hp Hl).
  set (sq := normalizeText_str q) in *. set (T := combinedNormalizedOf layer).
  set (k := max (min 15 n) (n / 2)).
  assert (Hn : 1 <= n) by (unfold n; destruct sq; [congruence | simpl; lia]).
  destruct (decide (layer = [])) as [Hnil|Hne].
  { subst layer. rewrite pageOutcome_nil. simpl. symmetry.
    destruct sq as [|c t] eqn:Hsq; [congruence|].
    replace k with (S (k - 1)) by (unfold k; lia). simpl.
    apply includes_blank; [|constructor]. apply (normalizeText_head q c t Hsq). }
  assert (Hbound : forall st i, indexOf st T = Some i ->
                                i < sum_list_with spanLen (spanMapOf layer)).
  { intros st i Hi. apply indexOf_bound in Hi.
    rewrite (offset_table_end layer Hne), (gate_string_is_searched_string layer Hw).
    unfold T in Hi. lia. }
  unfold pageOutcome. rewrite (gate_string_is_searched_string layer Hw). fold sq T.
  unfold gate, substring0. fold n.
  destruct (includes (take (15 `min` n) sq) T) eqn:Hgate.
  - assert (Hn2 : indexOf sq T = None -> 2 <= n).
    { intros Hnone. destruct (decide (n = 1)) as [H1|]; [|lia].
      rewrite H1 in Hgate. change (15 `min` 1) with 1 in Hgate.
      rewrite <- H1 in Hgate. unfold n in Hgate. rewrite firstn_all in Hgate.
      apply includes_true in Hgate as (i & Hi). congruence. }
    rewrite ratioSearch_first. cbv zeta. fold n.
    destruct (indexOf sq T) as [i|] eqn:Hfull.
    + cbn [fst snd].
      rewrite (proj2 (hit_marks_some_span layer i sq T Hfull)) by (split; eauto).
      symmetry. apply includes_take, includes_true. eauto.
    + specialize (Hn2 eq_refl).
      assert (H75pos : 1 <= searchLength Ratio75 n)
        by (unfold searchLength; apply Nat.div_str_pos; lia).
      assert (H50pos : 1 <= searchLength Ratio50 n)
        by (unfold searchLength; apply Nat.div_str_pos; lia).
      assert (Hnonempty : forall j, 1 <= j -> take j sq <> []).
      { intros j Hj E. apply (f_equal length) in E.
        rewrite length_take in E. fold n in E. simpl in E. lia. }
      destruct (indexOf (substring0 (searchLength Ratio75 n) sq) T) as [i|] eqn:H75.
      * cbn [fst snd].
        rewrite (proj2 (hit_marks_some_span layer i _ T H75))
          by (split; [apply Hnonempty, H75pos | eauto]).
        symmetry. destruct (Nat.max_dec (15 `min` n) (n / 2)) as [E|E];
          unfold k; rewrite E; [exact Hgate|].
        apply (includes_take_le _ _ _ (searchLength Ratio75 n));
          [apply searchLength_half_le | apply includes_true; eauto].
      * destruct (indexOf (substring0 (searchLength Ratio50 n) sq) T) as [i|] eqn:H50.
        -- cbn [fst snd].
           rewrite (proj2 (hit_marks_some_span layer i _ T H50))
             by (split; [apply Hnonempty, H50pos | eauto]).
           symmetry. destruct (Nat.max_dec (15 `min` n) (n / 2)) as [E|E];
             unfold k; rewrite E; [exact Hgate|].
           apply includes_true. eauto.
        -- cbn [fst snd]. symmetry.
           destruct (includes (take k sq) T) eqn:Hinc; [|reflexivity].
           apply (includes_take_le _ _ (n / 2) k) in Hinc; [|unfold k; lia].
           apply includes_true in Hinc as (i & Hi).
           unfold substring0, searchLength in H50. congruence.
  - cbn [snd]. symmetry.
    destruct (includes (take k sq) T) eqn:Hinc; [|reflexivity].
    apply (includes_take_le _ _ (15 `min` n) k) in Hinc; [congruence | unfold k; lia].
Qed.

Lemma word_ended_spans_found_witness :
  quoteFound 2 (js "Term shall be 12 months, renewable") (pageRefs contract) = true.
Proof.
  rewrite (word_ended_spans_found 2 (js "Term shall be 12 months, renewable")
             (pageRefs contract)
             (mkHost (Some [plain "the term shall be"; plain "12 months"]))
             [plain "the term shall be"; plain "12 months"]);
    try (vm_compute; reflexivity).
  - repeat constructor.
  - vm_compute. discriminate.
Defined.

(** * What the pane's operations change *)

Lemma afterVisit_texts q host :
  textContent <$> default [] (textLayer (afterVisit q host))
  = textContent <$> default [] (textLayer host).
Proof.
  unfold afterVisit. destruct (textLayer host) as [layer|] eqn:Hl; simpl.
  - apply pageOutcome_texts.
  - rewrite Hl. reflexivity.
Qed.

Lemma afterVisit_layer_present q host :
  is_Some (textLayer (afterVisit q host)) <-> is_Some (textLayer host).
Proof.
  unfold afterVisit. destruct (textLayer host) as [layer|] eqn:Hl; simpl.
  - split; eauto.
  - rewrite Hl. reflexivity.
Qed.

Lemma withRefs_same pane : withRefs pane (pageRefs pane) = pane.
Proof. destruct pane. reflexivity. Qed.

(** X10. [jumpTo] is presentation-only: whatever the citation, it
    changes neither [numPages] nor the text cache, it mounts and
    unmounts no page, adds or removes no text layer and no span, and
    leaves every span's text as it was; so [getPageTexts] answers the
    same before and after. *)
Theorem jumpTo_is_presentation_only (c : Citation) (pane pane' : Pane)
    (effects : list Effect) :
  jumpTo c pane = Normal (pane', effects) ->
  numPages pane' = numPages pane
  /\ pageTextsRef pane' = pageTextsRef pane
  /\ getPageTexts pane' = getPageTexts pane
  /\ forall p,
       (is_Some (pageRefs pane' !! p) <-> is_Some (pageRefs pane !! p))
       /\ (is_Some (pageRefs pane' !! p ≫= textLayer)
           <-> is_Some (pageRefs pane !! p ≫= textLayer))
       /\ textContent <$> layerOf (pageRefs pane') p
          = textContent <$> layerOf (pageRefs pane) p.
Proof.
  intros Hjump.
  assert (Hcase : pane' = pane
                  \/ exists q refs',
                       pane' = withRefs pane refs'
                       /\ forall p, refs' !! p = afterVisit q <$> pageRefs pane !! p
                                    \/ refs' !! p = pageRefs pane !! p).
  { destruct (truthy (quote c)) eqn:Ht.
    - destruct (quote c) as [| |[|a q]] eqn:Hq; try discriminate.
      destruct (jumpTo_quote c pane (a :: q) Hq ltac:(discriminate))
        as (refs' & Hrun & Hlook).
      rewrite Hrun in Hjump. injection Hjump as <- _.
      right. exists (a :: q), refs'. split; [reflexivity|]. intros p.
      rewrite Hlook. destruct (bool_decide _); auto.
    - unfold jumpTo in Hjump. rewrite Ht in Hjump. injection Hjump as <- _. auto. }
  destruct Hcase as [->|(q & refs' & -> & Hlook)].
  - repeat split; auto.
  - split; [reflexivity|]. split; [reflexivity|]. split; [reflexivity|].
    intros p. simpl. unfold layerOf.
    destruct (Hlook p) as [E|E]; rewrite E; [|tauto].
    destruct (pageRefs pane !! p) as [host|]; simpl; [|tauto].
    split; [split; eauto|]. split; [apply afterVisit_layer_present|].
    apply afterVisit_texts.
Qed.

Lemma jumpTo_is_presentation_only_witness :
  exists pane' effects,
    jumpTo (mkCitation None (JStr clause) None) contract = Normal (pane', effects)
    /\ getPageTexts pane' = getPageTexts contract.
Proof.
  eexists _, _. split; [vm_compute; reflexivity|].
  apply (jumpTo_is_presentation_only (mkCitation None (JStr clause) None) contract
           _ [RingAndScrollAfter 100 2 3000]).
  vm_compute. reflexivity.
Defined.

(** X11. Pages without host element or without text layer are passed
    over: when none of the pages 1 to [numPages || 1] has a text layer
    (no document loaded, or nothing rendered yet), [jumpTo] changes
    nothing at all; with a quote it logs that the quote was not found,
    and it scrolls to page 1 only if that page is mounted. *)
Theorem jumpTo_without_text_layers (c : Citation) (pane : Pane) :
  (forall p, 1 <= p <= numPages_or 1 pane -> pageRefs pane !! p ≫= textLayer = None) ->
  jumpTo c pane
  = Normal (pane,
            if truthy (quote c)
            then LogQuoteNotFound :: scrollToFirst (pageRefs pane)
            else scrollToFirst (pageRefs pane)).
Proof.
  intros Hnone. destruct (truthy (quote c)) eqn:Ht.
  - destruct (quote c) as [| |[|a q]] eqn:Hq; try discriminate.
    destruct (jumpTo_quote c pane (a :: q) Hq ltac:(discriminate))
      as (refs' & Hrun & Hlook).
    assert (Hsame : refs' = pageRefs pane).
    { apply map_eq. intros p. rewrite Hlook.
      destruct (bool_decide _) eqn:Hv; [|reflexivity].
      apply bool_decide_eq_true in Hv. apply visited_subset in Hv.
      apply elem_of_seq in Hv. specialize (Hnone p ltac:(lia)).
      destruct (pageRefs pane !! p) as [host|]; [|reflexivity]. simpl in *.
      unfold afterVisit. rewrite Hnone. reflexivity. }
    assert (Hf : firstFound (a :: q) (pageRefs pane) (seq 1 (numPages_or 1 pane)) = None).
    { apply firstFound_seq_None. intros p Hp. rewrite quoteFound_eq.
      rewrite Hnone by lia. reflexivity. }
    rewrite Hrun, Hf, Hsame, withRefs_same. reflexivity.
  - unfold jumpTo. rewrite Ht. reflexivity.
Qed.

Lemma jumpTo_without_text_layers_witness :
  jumpTo (mkCitation (Some 3) (JStr clause) None)
    {| pageRefs := ∅; numPages := None; pageTextsRef := ∅ |}
  = Normal ({| pageRefs := ∅; numPages := None; pageTextsRef := ∅ |},
            [LogQuoteNotFound]).
Proof.
  exact (jumpTo_without_text_layers (mkCitation (Some 3) (JStr clause) None)
           {| pageRefs := ∅; numPages := None; pageTextsRef := ∅ |}
           (fun p _ => eq_refl)).
Defined.

(** ** forceTextExtraction *)

(** X12. After [forceTextExtraction], [getPageTexts] reports for every
    page of the document that has a text layer the joined text of its
    spans as they are now, whatever the cache held before (blank text
    included); the entries of the other pages, the spans and [numPages]
    are unchanged. *)
Theorem forceTextExtraction_refreshes (pane : Pane) (p : nat) :
  1 <= p <= numPages_or 0 pane ->
  getPageTexts (forceTextExtraction pane) !! (p - 1)
  = Some (mkPageText p
            match pageRefs pane !! p ≫= textLayer with
            | Some layer => layerText layer
            | None => default [] (pageTextsRef pane !! p)
            end)
  /\ pageRefs (forceTextExtraction pane) = pageRefs pane
  /\ numPages (forceTextExtraction pane) = numPages pane.
Proof.
  intros Hp. split; [|split; reflexivity].
  rewrite getPageTexts_lookup by exact Hp. rewrite forceTextExtraction_lookup.
  rewrite bool_decide_eq_true_2 by exact Hp.
  destruct (pageRefs pane !! p ≫= textLayer); reflexivity.
Qed.

Lemma forceTextExtraction_refreshes_witness :
  getPageTexts (forceTextExtraction contract) !! 1
  = Some (mkPageText 2 (js "the term shall be 12 months")).
Proof.
  exact (proj1 (forceTextExtraction_refreshes contract 2 ltac:(vm_compute; lia))).
Defined.

(** X13. [forceTextExtraction] is idempotent, and it makes the later
    extraction of [onPageRender] redundant: a page render after it
    leaves the cache as it is. *)
Theorem forceTextExtraction_idempotent (pane : Pane) (p : nat) :
  forceTextExtraction (forceTextExtraction pane) = forceTextExtraction pane
  /\ (1 <= p <= numPages_or 0 pane ->
      (onPageRender p (forceTextExtraction pane)).1 = forceTextExtraction pane).
Proof.
  assert (Heq : forall a b : Pane,
             pageRefs a = pageRefs b -> numPages a = numPages b ->
             pageTextsRef a = pageTextsRef b -> a = b).
  { intros [] [] ?; simpl in *. intros; subst. reflexivity. }
  split.
  - apply Heq; try reflexivity. apply map_eq. intros i.
    rewrite (forceTextExtraction_lookup (forceTextExtraction pane)).
    change (numPages_or 0 (forceTextExtraction pane)) with (numPages_or 0 pane).
    change (pageRefs (forceTextExtraction pane)) with (pageRefs pane).
    rewrite (forceTextExtraction_lookup pane).
    destruct (if bool_decide _ then _ else _); reflexivity.
  - intros Hp. unfold onPageRender.
    change (pageRefs (forceTextExtraction pane)) with (pageRefs pane).
    destruct (pageRefs pane !! p) as [host|] eqn:Hhost; [|reflexivity].
    unfold extractText. destruct (textLayer host) as [layer|] eqn:Hl; [|simpl].
    + destruct (0 <? length (trim (layerText layer))); simpl.
      * apply Heq; try reflexivity.
        change (<[p := layerText layer]> (pageTextsRef (forceTextExtraction pane))
                = pageTextsRef (forceTextExtraction pane)).
        apply insert_id.
        rewrite forceTextExtraction_lookup, bool_decide_eq_true_2 by exact Hp.
        rewrite Hhost. simpl. rewrite Hl. reflexivity.
      * apply Heq; reflexivity.
    + apply Heq; reflexivity.
Qed.

Lemma forceTextExtraction_idempotent_witness :
  (onPageRender 2 (forceTextExtraction contract)).1 = forceTextExtraction contract.
Proof.
  exact (proj2 (forceTextExtraction_idempotent contract 2) ltac:(vm_compute; lia)).
Defined.

(** ** onPageRender *)

(** X14. When the page's text layer has text that is not blank,
    [onPageRender] stores the joined span texts under the page number,
    sets no timer, and [getPageTexts] reports that text; and neither
    [onPageRender] nor its retry ever stores a blank text: a cache
    without blank entries stays so. *)
Theorem onPageRender_caches_text (p : nat) (pane : Pane) (t : Timer) :
  (forall host layer,
      pageRefs pane !! p = Some host -> textLayer host = Some layer ->
      trim (layerText layer) <> [] ->
      onPageRender p pane
      = (withCache pane (<[p := layerText layer]> (pageTextsRef pane)), [])
      /\ (1 <= p <= numPages_or 0 pane ->
          getPageTexts (onPageRender p pane).1 !! (p - 1)
          = Some (mkPageText p (layerText layer))))
  /\ ((forall i text, pageTextsRef pane !! i = Some text -> trim text <> []) ->
      (forall i text,
          pageTextsRef (onPageRender p pane).1 !! i = Some text -> trim text <> [])
      /\ (forall i text,
            pageTextsRef (fire t pane).1 !! i = Some text -> trim text <> [])).
Proof.
  assert (Hex : forall k host cache,
             (forall i text, cache !! i = Some text -> trim text <> []) ->
             forall i text, (extractText k host cache).1 !! i = Some text ->
                            trim text <> []).
  { intros k host cache Hinv i text. unfold extractText.
    destruct (textLayer host) as [layer|]; [|apply Hinv].
    destruct (0 <? length (trim (layerText layer))) eqn:Hlen; [|apply Hinv].
    simpl. destruct (decide (i = k)) as [->|Hne].
    - rewrite lookup_insert_eq. intros [= <-] E. rewrite E in Hlen. discriminate.
    - rewrite lookup_insert_ne by congruence. apply Hinv. }
  split.
  - intros host layer Hhost Hl Htext.
    assert (Hrun : onPageRender p pane
                   = (withCache pane (<[p := layerText layer]> (pageTextsRef pane)), [])).
    { unfold onPageRender, extractText. rewrite Hhost, Hl.
      destruct (trim (layerText layer)); [congruence | reflexivity]. }
    split; [exact Hrun|]. intros Hp. rewrite Hrun. simpl.
    rewrite getPageTexts_lookup by exact Hp. simpl.
    rewrite lookup_insert_eq. reflexivity.
  - intros Hinv. split.
    + unfold onPageRender. destruct (pageRefs pane !! p) as [host|]; [|exact Hinv].
      pose proof (Hex p host (pageTextsRef pane) Hinv) as H.
      destruct (extractText p host (pageTextsRef pane)) as [cache ok]. exact H.
    + destruct t as [ms k]. simpl.
      destruct (pageRefs pane !! k) as [host|]; [|exact Hinv].
      apply Hex, Hinv.
Qed.

Lemma onPageRender_caches_text_witness :
  onPageRender 2 contract
  = (withCache contract (<[2 := js "the term shall be 12 months"]> ∅), []).
Proof.
  apply (proj1 (onPageRender_caches_text 2 contract (RetryExtract 100 2))
           (mkHost (Some [plain "the term shall be"; plain "12 months"]))
           [plain "the term shall be"; plain "12 months"]);
    try (vm_compute; reflexivity).
  vm_compute. discriminate.
Defined.

(** ** The toolbar *)

(** X15. [prev] and [next] go to the neighbouring page and keep the
    page shown within the document: from a page in 1..[numPages || 1],
    [next] shows the page after it unless it is the last, [prev] the
    page before it unless it is the first, and at the last and first
    page they stay; [next] then [prev] and [prev] then [next] come back
    whenever the first step moved; the new page is scrolled into view
    exactly when it is mounted. *)
Theorem toolbar_stays_in_document (page : nat) (pane : Pane) :
  1 <= page <= numPages_or 1 pane ->
  1 <= (Toolbar.prev page pane).1 <= numPages_or 1 pane
  /\ 1 <= (Toolbar.next page pane).1 <= numPages_or 1 pane
  /\ (Toolbar.prev 1 pane).1 = 1
  /\ (Toolbar.next (numPages_or 1 pane) pane).1 = numPages_or 1 pane
  /\ (page < numPages_or 1 pane ->
      (Toolbar.prev (Toolbar.next page pane).1 pane).1 = page)
  /\ (1 < page -> (Toolbar.next (Toolbar.prev page pane).1 pane).1 = page)
  /\ (forall e, e ∈ (Toolbar.next page pane).2 ->
        e = ScrollIntoView (Toolbar.next page pane).1
        /\ is_Some (pageRefs pane !! (Toolbar.next page pane).1))
  /\ (forall e, e ∈ (Toolbar.prev page pane).2 ->
        e = ScrollIntoView (Toolbar.prev page pane).1
        /\ is_Some (pageRefs pane !! (Toolbar.prev page pane).1))
  /\ (page < numPages_or 1 pane -> (Toolbar.next page pane).1 = page + 1)
  /\ (1 < page -> (Toolbar.prev page pane).1 = page - 1)
  /\ (is_Some (pageRefs pane !! (Toolbar.next page pane).1) ->
      (Toolbar.next page pane).2 = [ScrollIntoView (Toolbar.next page pane).1])
  /\ (is_Some (pageRefs pane !! (Toolbar.prev page pane).1) ->
      (Toolbar.prev page pane).2 = [ScrollIntoView (Toolbar.prev page pane).1]).
Proof.
  intros Hp. unfold Toolbar.prev, Toolbar.next. cbn [fst snd].
  assert (Hn : 1 <= numPages_or 1 pane)
    by (unfold numPages_or; destruct (numPages pane) as [[|n]|]; lia).
  assert (Hscroll : forall p e,
             e ∈ match pageRefs pane !! p with
                 | Some _ => [ScrollIntoView p]
                 | None => []
                 end ->
             e = ScrollIntoView p /\ is_Some (pageRefs pane !! p)).
  { intros p e. destruct (pageRefs pane !! p) as [host|].
    - intros He%list_elem_of_singleton. split; [exact He | eauto].
    - intros He. inversion He. }
  assert (Hmounted : forall p,
             is_Some (pageRefs pane !! p) ->
             match pageRefs pane !! p with
             | Some _ => [ScrollIntoView p]
             | None => []
             end = [ScrollIntoView p]).
  { intros p [host Hhost]. rewrite Hhost. reflexivity. }
  split; [lia|]. split; [lia|]. split; [reflexivity|]. split; [lia|].
  split; [lia|]. split; [lia|]. split; [apply Hscroll|]. split; [apply Hscroll|].
  split; [lia|]. split; [lia|]. split; apply Hmounted.
Qed.

Lemma toolbar_stays_in_document_witness :
  (Toolbar.next 5 contract).1 = 5
  /\ (Toolbar.prev (Toolbar.next 3 contract).1 contract).1 = 3
  /\ Toolbar.next 3 contract = (4, [ScrollIntoView 4]).
Proof.
  destruct (toolbar_stays_in_document 3 contract ltac:(vm_compute; lia))
    as (_ & _ & _ & Hlast & Hback & _ & _ & _ & Hnext & _ & Hscroll & _).
  split; [exact Hlast|]. split; [apply Hback; vm_compute; lia|].
  apply injective_projections.
  - apply Hnext. vm_compute. lia.
  - rewrite Hscroll; [vm_compute; reflexivity | vm_compute; eauto].
Defined.

(** * The application shell *)

Lemma trim_nil : trim [] = [].
Proof. reflexivity. Qed.

Lemma hasText_spec t : App.hasText t = true <-> trim (entryText t) <> [].
Proof.
  unfold App.hasText. rewrite andb_true_iff, negb_true_iff, Nat.eqb_neq, Nat.ltb_lt.
  split.
  - intros [_ H] E. rewrite E in H. simpl in H. lia.
  - intros H. split.
    + intros E. apply H. destruct (entryText t); [reflexivity | discriminate].
    + destruct (trim (entryText t)); [congruence | simpl; lia].
Qed.

Lemma validTexts_elem t texts :
  t ∈ App.validTexts texts <-> t ∈ texts /\ trim (entryText t) <> [].
Proof.
  unfold App.validTexts. rewrite !list_elem_of_In, filter_In, hasText_spec. tauto.
Qed.

Lemma getPageTexts_elem pane t :
  t ∈ getPageTexts pane <->
  exists p, 1 <= p <= numPages_or 0 pane
            /\ t = mkPageText p (default [] (pageTextsRef pane !! p)).
Proof.
  unfold getPageTexts. rewrite list_elem_of_fmap. split.
  - intros (p & -> & Hp%elem_of_seq). exists p. split; [lia | reflexivity].
  - intros (p & Hp & ->). exists p. split; [reflexivity|]. apply elem_of_seq. lia.
Qed.

(** X16. [refreshPageTexts] re-reads the pages and hands to
    [setPageTexts] exactly the entries of the pages 1..[numPages] whose
    text, as the spans have it now (or as cached, for a page without
    text layer), is not blank; without a pane it hands over the empty
    list. *)
Theorem refreshPageTexts_lists_pages_with_text (pane : Pane) (t : PageTextEntry) :
  App.refreshPageTexts None = (None, [])
  /\ (App.refreshPageTexts (Some pane)).1 = Some (forceTextExtraction pane)
  /\ (t ∈ (App.refreshPageTexts (Some pane)).2 <->
      exists p,
        1 <= p <= numPages_or 0 pane
        /\ t = mkPageText p
                 match pageRefs pane !! p ≫= textLayer with
                 | Some layer => layerText layer
                 | None => default [] (pageTextsRef pane !! p)
                 end
        /\ trim (entryText t) <> []).
Proof.
  split; [reflexivity|]. split; [reflexivity|].
  unfold App.refreshPageTexts. simpl.
  rewrite validTexts_elem, getPageTexts_elem.
  change (numPages_or 0 (forceTextExtraction pane)) with (numPages_or 0 pane).
  assert (Hcache : forall p, 1 <= p <= numPages_or 0 pane ->
             default [] (pageTextsRef (forceTextExtraction pane) !! p)
             = match pageRefs pane !! p ≫= textLayer with
               | Some layer => layerText layer
               | None => default [] (pageTextsRef pane !! p)
               end).
  { intros p Hp. rewrite forceTextExtraction_lookup, bool_decide_eq_true_2 by exact Hp.
    destruct (pageRefs pane !! p ≫= textLayer); reflexivity. }
  split.
  - intros [(p & Hp & ->) Htext]. exists p. rewrite <- (Hcache p Hp). auto.
  - intros (p & Hp & -> & Htext). rewrite <- (Hcache p Hp) in *. eauto.
Qed.

(** ** handlePdfReady *)

Lemma extractTexts_all_fail left attempt env :
  (forall k, attempt <= k <= attempt + left ->
             App.validTexts (App.pageTextsOf (env k)) = []) ->
  App.extractTextsFrom left attempt env
  = ((fun j => j * 500) <$> seq attempt left, []).
Proof.
  revert attempt. induction left as [|left IH]; intros attempt Hnone; simpl.
  - rewrite (Hnone attempt) by lia. reflexivity.
  - rewrite (Hnone attempt) by lia. simpl.
    replace (attempt + 1) with (S attempt) by lia.
    rewrite IH by (intros k Hk; apply Hnone; lia). reflexivity.
Qed.

Lemma extractTexts_first_success left attempt env d :
  d <= left ->
  App.validTexts (App.pageTextsOf (env (attempt + d))) <> [] ->
  (forall k, attempt <= k < attempt + d ->
             App.validTexts (App.pageTextsOf (env k)) = []) ->
  App.extractTextsFrom left attempt env
  = ((fun j => j * 500) <$> seq attempt d,
     App.validTexts (App.pageTextsOf (env (attempt + d)))).
Proof.
  revert attempt d. induction left as [|left IH]; intros attempt d Hd Hok Hnone.
  - assert (d = 0) by lia. subst d. rewrite Nat.add_0_r in *. simpl.
    destruct (App.validTexts _); [congruence | reflexivity].
  - destruct d as [|d].
    + rewrite Nat.add_0_r in *. simpl.
      destruct (App.validTexts _); [congruence | reflexivity].
    + simpl. rewrite (Hnone attempt) by lia. simpl.
      replace (attempt + 1) with (S attempt) by lia.
      replace (attempt + S d) with (S attempt + d) in * by lia.
      rewrite (IH (S attempt) d) by (try lia; try assumption; intros; apply Hnone; lia).
      reflexivity.
Qed.

(** X17. [handlePdfReady] waits 1000 ms and then asks [getPageTexts] at
    most five times, 500, 1000, 1500 and 2000 ms apart: it hands over
    the non-blank entries of the first attempt that has any and stops
    there, and the empty list when all five attempts have none. *)
Theorem handlePdfReady_gives_up_after_five (env : nat -> option Pane) :
  ((forall k, 1 <= k <= 5 -> App.validTexts (App.pageTextsOf (env k)) = []) ->
   App.handlePdfReady env = ([1000; 500; 1000; 1500; 2000], []))
  /\ (forall k,
        1 <= k <= 5 ->
        App.validTexts (App.pageTextsOf (env k)) <> [] ->
        (forall j, 1 <= j < k -> App.validTexts (App.pageTextsOf (env j)) = []) ->
        App.handlePdfReady env
        = (1000 :: ((fun j => j * 500) <$> seq 1 (k - 1)),
           App.validTexts (App.pageTextsOf (env k))))
  /\ length (App.handlePdfReady env).1 <= 5
  /\ forall t, t ∈ (App.handlePdfReady env).2 -> trim (entryText t) <> [].
Proof.
  assert (Hall : (forall k, 1 <= k <= 5 -> App.validTexts (App.pageTextsOf (env k)) = []) ->
                 App.handlePdfReady env = ([1000; 500; 1000; 1500; 2000], [])).
  { intros Hnone. unfold App.handlePdfReady. change (5 - 1) with 4.
    rewrite (extractTexts_all_fail 4 1 env) by (intros; apply Hnone; lia). reflexivity. }
  assert (Hone : forall k,
             1 <= k <= 5 ->
             App.validTexts (App.pageTextsOf (env k)) <> [] ->
             (forall j, 1 <= j < k -> App.validTexts (App.pageTextsOf (env j)) = []) ->
             App.handlePdfReady env
             = (1000 :: ((fun j => j * 500) <$> seq 1 (k - 1)),
                App.validTexts (App.pageTextsOf (env k)))).
  { intros k Hk Hok Hnone. unfold App.handlePdfReady. change (5 - 1) with 4.
    rewrite (extractTexts_first_success 4 1 env (k - 1)); try lia.
    - replace (1 + (k - 1)) with k by lia. reflexivity.
    - replace (1 + (k - 1)) with k by lia. exact Hok.
    - intros j Hj. apply Hnone. lia. }
  split; [exact Hall|]. split; [exact Hone|].
  assert (Hfirst : (forall k, 1 <= k <= 5 ->
                      App.validTexts (App.pageTextsOf (env k)) = [])
                   \/ exists k, 1 <= k <= 5
                        /\ App.validTexts (App.pageTextsOf (env k)) <> []
                        /\ forall j, 1 <= j < k ->
                             App.validTexts (App.pageTextsOf (env j)) = []).
  { destruct (App.validTexts (App.pageTextsOf (env 1))) eqn:E1;
      [|right; exists 1; rewrite E1; repeat split; [lia | lia | discriminate | intros; lia]].
    destruct (App.validTexts (App.pageTextsOf (env 2))) eqn:E2;
      [|right; exists 2; rewrite E2; repeat split; [lia | lia | discriminate |];
        intros j Hj; replace j with 1 by lia; exact E1].
    destruct (App.validTexts (App.pageTextsOf (env 3))) eqn:E3;
      [|right; exists 3; rewrite E3; repeat split; [lia | lia | discriminate |];
        intros j Hj; assert (Hc : j = 1 \/ j = 2) by lia; destruct Hc as [->| ->];
        assumption].
    destruct (App.validTexts (App.pageTextsOf (env 4))) eqn:E4;
      [|right; exists 4; rewrite E4; repeat split; [lia | lia | discriminate |];
        intros j Hj; assert (Hc : j = 1 \/ j = 2 \/ j = 3) by lia;
        destruct Hc as [->|[->| ->]]; assumption].
    destruct (App.validTexts (App.pageTextsOf (env 5))) eqn:E5;
      [|right; exists 5; rewrite E5; repeat split; [lia | lia | discriminate |];
        intros j Hj; assert (Hc : j = 1 \/ j = 2 \/ j = 3 \/ j = 4) by lia;
        destruct Hc as [->|[->|[->| ->]]]; assumption].
    left. intros k Hk.
    assert (Hc : k = 1 \/ k = 2 \/ k = 3 \/ k = 4 \/ k = 5) by lia.
    destruct Hc as [->|[->|[->|[->| ->]]]]; assumption. }
  destruct Hfirst as [Hnone|(k & Hk & Hok & Hnone)].
  - rewrite (Hall Hnone). simpl. split; [lia|]. intros t Ht. inversion Ht.
  - rewrite (Hone k Hk Hok Hnone). simpl. split.
    + rewrite length_fmap, length_seq. lia.
    + intros t Ht. apply validTexts_elem in Ht. tauto.
Qed.

Lemma handlePdfReady_gives_up_after_five_witness :
  App.handlePdfReady (fun k => if k <? 3 then None else Some (forceTextExtraction contract))
  = ([1000; 500; 1000],
     App.validTexts (getPageTexts (forceTextExtraction contract))).
Proof.
  apply (proj1 (proj2 (handlePdfReady_gives_up_after_five
                         (fun k => if k <? 3 then None
                                   else Some (forceTextExtraction contract)))) 3).
  - lia.
  - vm_compute. discriminate.
  - intros j Hj. assert (Hc : j = 1 \/ j = 2) by lia. destruct Hc as [->| ->]; reflexivity.
Defined.

(** * The chat hook and the citation chips *)

Section ChatTranscript.
Import Chat.

Lemma dialogue_app (ms tail : list Message) :
  dialogue ms = true -> dialogue (ms ++ tail) = dialogue tail.
Proof.
  remember (length ms) as n eqn:Hn. revert ms Hn.
  induction n as [n IH] using lt_wf_ind. intros ms Hn Hd.
  destruct ms as [|m1 [|m2 rest]]; [reflexivity | discriminate|].
  simpl in Hd |- *. apply andb_true_iff in Hd as [Hd Hrest]. rewrite Hd. simpl.
  apply (IH (length rest)); [simpl in Hn; lia | reflexivity | exact Hrest].
Qed.

Lemma dialogue_snoc2 (ms : list Message) m1 m2 :
  dialogue ms = true -> isQuestion m1 = true -> isReply m2 = true ->
  dialogue (ms ++ [m1; m2]) = true.
Proof.
  intros Hd H1 H2. rewrite dialogue_app by exact Hd. simpl. rewrite H1, H2. reflexivity.
Qed.

Lemma sendQuestion_begin_Some documentId question st st' :
  sendQuestion_begin documentId question st = Some st' ->
  exists m, messages st' = messages st ++ [m] /\ isQuestion m = true
            /\ isLoading st' = true.
Proof.
  unfold sendQuestion_begin.
  destruct ((length (trim question) =? 0) || negb (truthy documentId)) eqn:Hguard;
    [discriminate|].
  apply orb_false_iff in Hguard as [Hq _]. apply Nat.eqb_neq in Hq.
  intros [= <-]. eexists. split; [reflexivity|]. split; [|reflexivity].
  apply Nat.ltb_lt. simpl. lia.
Qed.

Lemma sendQuestion_end_messages reply st :
  exists m, messages (sendQuestion_end reply st) = messages st ++ [m]
            /\ isReply m = true /\ isLoading (sendQuestion_end reply st) = false.
Proof.
  destruct reply as [response|message]; eexists; (split; [reflexivity|]);
    split; reflexivity.
Qed.

Lemma step_keeps_head r op :
  (exists rest, messages (hook r) = systemMessage :: rest
                /\ Forall (fun m => isQuestion m || isReply m = true) rest) ->
  exists rest, messages (hook (step r op)) = systemMessage :: rest
               /\ Forall (fun m => isQuestion m || isReply m = true) rest.
Proof.
  intros (rest & Hm & Hall). destruct op as [documentId question|reply|]; simpl.
  - destruct (sendQuestion_begin documentId question (hook r)) as [st|] eqn:Hb;
      [|eauto].
    destruct (sendQuestion_begin_Some _ _ _ _ Hb) as (m & Hms & Hq & _).
    exists (rest ++ [m]). simpl. rewrite Hms, Hm. split; [reflexivity|].
    apply Forall_app. split; [exact Hall|]. constructor; [|constructor].
    rewrite Hq. reflexivity.
  - destruct (inFlight r) as [|n]; [eauto|]. simpl.
    destruct (sendQuestion_end_messages reply (hook r)) as (m & Hms & Hr & _).
    exists (rest ++ [m]). rewrite Hms, Hm. split; [reflexivity|].
    apply Forall_app. split; [exact Hall|]. constructor; [|constructor].
    rewrite Hr. apply orb_true_r.
  - exists []. split; [reflexivity | constructor].
Qed.

Lemma step_keeps_idle r op :
  (inFlight r = 0 -> isLoading (hook r) = false) ->
  inFlight (step r op) = 0 -> isLoading (hook (step r op)) = false.
Proof.
  intros Hidle. destruct op as [documentId question|reply|]; simpl.
  - destruct (sendQuestion_begin documentId question (hook r)); simpl;
      [discriminate | exact Hidle].
  - destruct (inFlight r) as [|n]; simpl; [auto|]. intros _.
    destruct (sendQuestion_end_messages reply (hook r)) as (_ & _ & _ & Hl). exact Hl.
  - exact Hidle.
Qed.

Lemma step_keeps_transcript r op :
  transcript_ok r ->
  match op with Settle _ => true | _ => inFlight r =? 0 end = true ->
  transcript_ok (step r op).
Proof.
  intros (Hle & rest & Hm & Hform) Hop.
  destruct op as [documentId question|reply|]; simpl.
  - apply Nat.eqb_eq in Hop. rewrite Hop in Hform.
    destruct (sendQuestion_begin documentId question (hook r)) as [st|] eqn:Hb.
    + destruct (sendQuestion_begin_Some _ _ _ _ Hb) as (m & Hms & Hq & _).
      split; [simpl; lia|]. exists (rest ++ [m]). simpl. rewrite Hms, Hm.
      split; [reflexivity|]. exists rest, m. auto.
    + split; [exact Hle|]. exists rest. rewrite Hop. auto.
  - destruct (inFlight r) as [|[|n]] eqn:Hn; [| |lia].
    + split; [lia|]. exists rest. rewrite Hn. auto.
    + destruct Hform as (asked & m & -> & Hd & Hq).
      destruct (sendQuestion_end_messages reply (hook r)) as (m' & Hms & Hr & _).
      split; [simpl; lia|]. exists (asked ++ [m; m']). simpl. rewrite Hms, Hm.
      split; [simpl; rewrite <- app_assoc; reflexivity|].
      apply dialogue_snoc2; assumption.
  - apply Nat.eqb_eq in Hop. split; [simpl; lia|]. exists []. simpl.
    rewrite Hop. split; reflexivity.
Qed.

(** X18. The hook's messages under any interleaving of calls of
    [sendQuestion], of their continuations after the [await] and of
    [clearChat]: they start with the system message, followed by
    non-blank questions and replies only, and the hook is not loading
    when no call waits.  When no call and no [clearChat] starts while a
    call waits, the messages after the system message are a dialogue,
    every question directly followed by its answer or its error message,
    apart from the one question that waits.  A [clearChat] during the
    [await] breaks this: the reply then follows the system message. *)
Theorem chat_transcript_invariant (ops : list ChatOp) :
  let r := run ops start in
  (exists rest, messages (hook r) = systemMessage :: rest
                /\ Forall (fun m => isQuestion m || isReply m = true) rest)
  /\ (inFlight r = 0 -> isLoading (hook r) = false)
  /\ (orderly start ops = true -> transcript_ok r)
  /\ (forall documentId question reply,
        sendQuestion_begin documentId question initial <> None ->
        exists m,
          messages (hook (run [Ask documentId question; Clear; Settle reply] start))
          = [systemMessage; m]
          /\ isReply m = true).
Proof.
  cbv zeta. unfold run. split; [|split; [|split]].
  - assert (Hinit : exists rest, messages (hook start) = systemMessage :: rest
                      /\ Forall (fun m => isQuestion m || isReply m = true) rest)
      by (exists []; split; [reflexivity | constructor]).
    revert Hinit. generalize start.
    induction ops as [|op ops IH]; intros r Hr; [exact Hr|].
    simpl. apply IH, step_keeps_head, Hr.
  - assert (Hinit : inFlight start = 0 -> isLoading (hook start) = false)
      by reflexivity.
    revert Hinit. generalize start.
    induction ops as [|op ops IH]; intros r Hr; [exact Hr|].
    simpl. apply IH. apply step_keeps_idle, Hr.
  - assert (Hinit : transcript_ok start)
      by (split; [simpl; lia|]; exists []; split; reflexivity).
    revert Hinit. generalize start.
    induction ops as [|op ops IH]; intros r Hr Hord; [exact Hr|].
    simpl in Hord |- *. apply andb_true_iff in Hord as [Hop Hord].
    apply IH; [apply step_keeps_transcript; assumption | exact Hord].
  - intros documentId question reply Hb. simpl.
    destruct (sendQuestion_begin documentId question initial) as [st|]; [|congruence].
    simpl. destruct (sendQuestion_end_messages reply (clearChat st)) as (m & Hms & Hr & _).
    exists m. split; [exact Hms | exact Hr].
Qed.

Lemma chat_transcript_invariant_witness :
  let ops := [Ask (JStr (js "doc-1")) (js "What is the term?");
              Settle (inr (js "timeout")); Clear;
              Ask (JStr (js "doc-1")) (js "And the fees?")] in
  orderly start ops = true /\ transcript_ok (run ops start).
Proof.
  intros ops. split; [reflexivity|].
  apply (proj1 (proj2 (proj2 (chat_transcript_invariant ops)))). reflexivity.
Defined.

(** X19. What [send] of the chat pane hands over is the trimmed input,
    and it passes the guard of [sendQuestion]: the question and one
    reply (the answer with as many chips as the backend sent citations,
    or the error message) are appended to the messages, in this order,
    and loading ends; a blank input or a missing document hands over
    nothing. *)
Theorem send_appends_question_and_reply (input : jsstring) (documentId : JsVal)
    (reply : Response + jsstring) (st : ChatState) (q : jsstring) :
  send input documentId = Some q ->
  q = trim input
  /\ exists replyMessage,
       sendQuestion documentId q reply st
       = {| messages :=
              messages st
              ++ [ {| who := You; text := q; citations := []; totalChunks := None;
                      isError := false |}; replyMessage ];
            isLoading := false;
            error := match reply with inl _ => None | inr message => Some message end |}
       /\ isReply replyMessage = true
       /\ match reply with
          | inl response =>
              text replyMessage = answer response
              /\ citations replyMessage = toChip <$> response_citations response
          | inr message =>
              text replyMessage = js "Failed to get answer: " ++ message
              /\ citations replyMessage = []
          end.
Proof.
  unfold send. destruct (length (trim input) =? 0) eqn:Hlen; [discriminate|].
  destruct (truthy documentId) eqn:Hdoc; [|discriminate]. simpl.
  intros [= <-]. split; [reflexivity|].
  unfold sendQuestion, sendQuestion_begin.
  rewrite (trimmed_fixed _ (trim_trimmed input)), Hlen, Hdoc. simpl.
  destruct reply as [response|message]; simpl; eexists;
    (split; [rewrite <- app_assoc; reflexivity|]); split; try reflexivity;
    split; reflexivity.
Qed.

Lemma send_appends_question_and_reply_witness :
  send (js "  What is the term? ") (JStr (js "doc-1")) = Some (js "What is the term?")
  /\ length (messages (sendQuestion (JStr (js "doc-1")) (js "What is the term?")
                         (inr (js "HTTP 500")) initial)) = 3.
Proof.
  destruct (send_appends_question_and_reply (js "  What is the term? ")
              (JStr (js "doc-1")) (inr (js "HTTP 500")) initial (js "What is the term?")
              eq_refl) as (_ & replyMessage & Hrun & _).
  split; [reflexivity|]. rewrite Hrun. reflexivity.
Defined.

End ChatTranscript.

(** X20. From the backend's reply to the page shown: the [k]-th chip of
    the answer carries the [k]-th citation's [exact_text] as quote, and
    a click on it makes the full-document pane select the least page of
    1..[numPages || 1] on which that text is found, whatever
    [page_start] and [search_pages] the backend sent. *)
Theorem clicked_citation_selects_first_page (st : Chat.ChatState)
    (documentId : JsVal) (question : jsstring) (response : Chat.Response)
    (k : nat) (b : Chat.BackendCitation) (pane : Pane) (q : jsstring) :
  Chat.sendQuestion_begin documentId question st <> None ->
  Chat.response_citations response !! k = Some b ->
  Chat.exact_text b = JStr q -> q <> [] ->
  exists message chip pane' effects,
    last (Chat.messages (Chat.sendQuestion documentId question (inl response) st))
    = Some message
    /\ Chat.citations message !! k = Some chip
    /\ Chat.clickChip chip (Some pane) = Some (Normal (pane', effects))
    /\ forall p,
         selectedPage effects = Some p <->
         1 <= p <= numPages_or 1 pane
         /\ quoteFound p q (pageRefs pane) = true
         /\ forall p', 1 <= p' < p -> quoteFound p' q (pageRefs pane) = false.
Proof.
  intros Hbegin Hk Hq Hne.
  unfold Chat.sendQuestion.
  destruct (Chat.sendQuestion_begin documentId question st) as [st1|]; [|congruence].
  destruct (jumpTo_quote (mkCitation (Chat.page_start b) (JStr q) None) pane q
              eq_refl Hne) as (refs' & Hjump & _).
  eexists _, (Chat.toChip b), _, _. split; [|split; [|split]].
  - simpl. apply last_snoc.
  - simpl. rewrite list_lookup_fmap, Hk. reflexivity.
  - unfold Chat.clickChip, App.jumpToCitation. simpl. rewrite Hq, Hjump. reflexivity.
  - intros p.
    assert (Hsel : forall f : option nat,
               selectedPage match f with
                            | Some found => [RingAndScrollAfter 100 found 3000]
                            | None => LogQuoteNotFound :: scrollToFirst refs'
                            end = Some p <-> f = Some p).
    { intros [f|]; simpl; [reflexivity|].
      unfold scrollToFirst. destruct (refs' !! 1); split; discriminate. }
    rewrite Hsel, firstFound_seq. split; intros (Hr & H); (split; [lia | exact H]).
Qed.

Lemma clicked_citation_selects_first_page_witness :
  exists pane' effects,
    Chat.clickChip
      (Chat.toChip (Chat.mkBackendCitation (Some 5) (JStr clause) None JUndefined None))
      (Some contract)
    = Some (Normal (pane', effects))
    /\ selectedPage effects = Some 2.
Proof.
  destruct (clicked_citation_selects_first_page Chat.initial (JStr (js "doc-1"))
              (js "term?")
              (Chat.mkResponse (js "12 months")
                 [Chat.mkBackendCitation (Some 5) (JStr clause) None JUndefined None]
                 (Some 1))
              0 _ contract clause ltac:(discriminate) eq_refl eq_refl ltac:(discriminate))
    as (message & chip & pane' & effects & Hlast & Hchip & Hclick & Hsel).
  injection Hlast as <-. injection Hchip as <-.
  exists pane', effects. split; [exact Hclick|].
  apply Hsel. split; [vm_compute; lia|]. split; [vm_compute; reflexivity|].
  intros p' Hp'. replace p' with 1 by lia. vm_compute. reflexivity.
Defined.

(** * More on the hint-trusting pane *)

Module HintedPaneMore.
Import HintedPane.

Lemma findSpan_Some x spans i :
  findSpan x spans = Some i ->
  exists s, spans !! i = Some s /\ includes x (norm_str (textContent s)) = true.
Proof.
  revert i. induction spans as [|s spans IH]; intros i; simpl; [discriminate|].
  destruct (includes x (norm_str (textContent s))) eqn:Hs.
  - intros [= <-]. exists s. auto.
  - destruct (findSpan x spans) as [j|]; simpl; [|discriminate].
    intros [= <-]. apply (IH j eq_refl).
Qed.

Lemma findSpan_None x spans :
  findSpan x spans = None <->
  forall s, s ∈ spans -> includes x (norm_str (textContent s)) = false.
Proof.
  induction spans as [|s spans IH]; simpl.
  - split; [intros _ s Hs; inversion Hs | reflexivity].
  - destruct (includes x (norm_str (textContent s))) eqn:Hs.
    + split; [discriminate|]. intros H. rewrite (H s) in Hs by left. discriminate.
    + destruct (findSpan x spans) as [j|]; simpl.
      * split; [discriminate|]. intros H.
        assert (Hn : Some j = None) by (apply IH; intros; apply H; right; assumption).
        discriminate.
      * split; [|reflexivity]. intros _ s' [->|Hin]%elem_of_cons; [exact Hs|].
        apply IH; [reflexivity | exact Hin].
Qed.

Lemma findWord_Some words spans i :
  findWord words spans = Some i ->
  exists word s, word ∈ words /\ spans !! i = Some s
                 /\ includes word (norm_str (textContent s)) = true.
Proof.
  induction words as [|word words IH]; simpl; [discriminate|].
  destruct (findSpan word spans) as [j|] eqn:Hj.
  - intros [= <-]. destruct (findSpan_Some _ _ _ Hj) as (s & Hs & Hinc).
    exists word, s. split; [left | auto].
  - intros H. destruct (IH H) as (w & s & Hw & Hs & Hinc).
    exists w, s. split; [right; exact Hw | auto].
Qed.

Lemma findWord_None words spans :
  findWord words spans = None <->
  forall word, word ∈ words -> findSpan word spans = None.
Proof.
  induction words as [|word words IH]; simpl.
  - split; [intros _ w Hw; inversion Hw | reflexivity].
  - destruct (findSpan word spans) as [j|] eqn:Hj.
    + split; [discriminate|]. intros H. rewrite (H word) in Hj by left. discriminate.
    + rewrite IH. split.
      * intros H w [->|Hin]%elem_of_cons; [exact Hj | apply H, Hin].
      * intros H w Hin. apply H. right. exact Hin.
Qed.

(** The anchor is a piece of the quote. *)
Lemma anchor_in_quote q t :
  includes q t = true -> includes (anchorOf q) t = true.
Proof.
  rewrite !includes_occurs. intros (pre & post & ->).
  unfold anchorOf, slice.
  set (a := length q / 2 - 7). set (m := length q / 2 + 7 - a).
  exists (pre ++ take a q), (drop m (drop a q) ++ post).
  rewrite <- (take_drop a q) at 1. rewrite <- (take_drop m (drop a q)) at 1.
  rewrite <- !app_assoc. reflexivity.
Qed.

(** X21. The three strategies together fail exactly when no span's
    normalized text contains the anchor (the at most 14 characters
    around the middle of the normalized quote, which is the whole quote
    when it has at most 14) and none contains a word of the quote that
    is longer than 3 characters; the exact strategy adds no match of its
    own, since a span that contains the quote contains the anchor. *)
Theorem locate_fails_iff (q : jsstring) (spans : list Span) :
  (locate q spans = None <->
   (forall s, s ∈ spans -> includes (anchorOf q) (norm_str (textContent s)) = false)
   /\ (forall word s, word ∈ wordsOf q -> s ∈ spans ->
         includes word (norm_str (textContent s)) = false))
  /\ length (anchorOf q) <= 14
  /\ (length q <= 14 -> anchorOf q = q)
  /\ (forall i, locate q spans = Some i -> i < length spans).
Proof.
  split; [|split; [|split]].
  - unfold locate. split.
    + destruct (findSpan q spans) eqn:Hq; [discriminate|].
      destruct (findSpan (anchorOf q) spans) eqn:Ha; [discriminate|].
      intros Hw. split; [apply findSpan_None, Ha|].
      intros word s Hword Hs. rewrite findWord_None in Hw.
      apply (proj1 (findSpan_None word spans) (Hw word Hword)), Hs.
    + intros [Ha Hw].
      assert (Hq : findSpan q spans = None).
      { apply findSpan_None. intros s Hs.
        destruct (includes q (norm_str (textContent s))) eqn:E; [|reflexivity].
        apply anchor_in_quote in E. rewrite (Ha s Hs) in E. discriminate. }
      rewrite Hq, (proj2 (findSpan_None _ _) Ha).
      apply findWord_None. intros word Hword. apply findSpan_None.
      intros s Hs. apply Hw; assumption.
  - unfold anchorOf, slice. rewrite length_take. lia.
  - intros Hlen. unfold anchorOf, slice.
    assert (Hhalf : length q / 2 <= 7)
      by (apply Nat.Div0.div_le_upper_bound; lia).
    replace (length q / 2 - 7) with 0 by lia. rewrite drop_0, Nat.sub_0_r.
    apply take_ge.
    pose proof (Nat.div_mod_eq (length q) 2) as Hdm.
    pose proof (Nat.mod_upper_bound (length q) 2 ltac:(lia)). lia.
  - unfold locate. intros i.
    destruct (findSpan q spans) as [j|] eqn:Hq.
    { intros [= <-]. destruct (findSpan_Some _ _ _ Hq) as (s & Hs & _).
      apply (lookup_lt_Some _ _ _ Hs). }
    destruct (findSpan (anchorOf q) spans) as [j|] eqn:Ha.
    { intros [= <-]. destruct (findSpan_Some _ _ _ Ha) as (s & Hs & _).
      apply (lookup_lt_Some _ _ _ Hs). }
    intros Hw. destruct (findWord_Some _ _ _ Hw) as (w & s & _ & Hs & _).
    apply (lookup_lt_Some _ _ _ Hs).
Qed.

Lemma locate_fails_iff_witness :
  anchorOf (js "term of lease") = js "term of lease".
Proof.
  apply (proj1 (proj2 (proj2 (locate_fails_iff (js "term of lease") [])))).
  vm_compute. lia.
Defined.

Lemma findSpan_cleared x (spans : list Span) :
  findSpan x (clearSpan <$> spans) = findSpan x spans.
Proof.
  induction spans as [|s spans IH]; [reflexivity|]. simpl.
  rewrite HintedPaneProofs.hinted_clearSpan_text.
  destruct (includes x (norm_str (textContent s))); [reflexivity|].
  f_equal. exact IH.
Qed.

Lemma findWord_cleared words (spans : list Span) :
  findWord words (clearSpan <$> spans) = findWord words spans.
Proof.
  induction words as [|w words IH]; [reflexivity|].
  cbn [findWord]. rewrite findSpan_cleared, IH. reflexivity.
Qed.

(** The strategies read the texts only. *)
Lemma locate_cleared q (spans : list Span) :
  locate q (clearSpan <$> spans) = locate q spans.
Proof.
  unfold locate. rewrite !findSpan_cleared, findWord_cleared. reflexivity.
Qed.

Lemma spansOf_cleared (layer : list Element) :
  spansOf (clearElement <$> layer) = clearSpan <$> spansOf layer.
Proof.
  unfold spansOf. induction layer as [|e layer IH]; [reflexivity|].
  cbn [fmap list_fmap List.filter clearElement isSpan].
  destruct (isSpan e); cbn [fmap list_fmap node]; [f_equal|]; exact IH.
Qed.

Lemma locate_bound q (spans : list Span) i : locate q spans = Some i -> i < length spans.
Proof.
  unfold locate.
  destruct (findSpan q spans) as [j|] eqn:Hq.
  { intros [= <-]. destruct (findSpan_Some _ _ _ Hq) as (s & Hs & _).
    apply (lookup_lt_Some _ _ _ Hs). }
  destruct (findSpan (anchorOf q) spans) as [j|] eqn:Ha.
  { intros [= <-]. destruct (findSpan_Some _ _ _ Ha) as (s & Hs & _).
    apply (lookup_lt_Some _ _ _ Hs). }
  intros Hw. destruct (findWord_Some _ _ _ Hw) as (w & s & _ & Hs & _).
  apply (lookup_lt_Some _ _ _ Hs).
Qed.

(** X22. [highlightQuote] of the hint-trusting pane on a page with a
    text layer: it returns [true] exactly when the normalized quote is
    not empty and one of the strategies locates a span; then the
    elements that carry [data-hl] afterwards are the located span, its
    previous and its next element sibling, whatever elements these are
    (on a layer with a [br] after every line, the span and the two
    [br]s around it), and otherwise no element does; no element changes
    its kind or its text. *)
Theorem hinted_highlightQuote_marks (p : nat) (quote : JsVal)
    (refs : gmap nat PageHost) (layer : list Element) :
  refs !! p ≫= textLayer = Some layer ->
  let q := norm_str (or_empty quote) in
  let located := if length q =? 0 then None else locate q (spansOf layer) in
  exists layer',
    highlightQuote p quote refs
    = Normal (<[p := mkHost (Some layer')]> refs, bool_decide (is_Some located))
    /\ length layer' = length layer
    /\ (forall j e e',
          layer !! j = Some e -> layer' !! j = Some e' ->
          isSpan e' = isSpan e /\ textContent (node e') = textContent (node e))
    /\ match located with
       | None => forall e, e ∈ layer' -> data_hl (node e) = false
       | Some i =>
           exists k span,
             spanPositions 0 layer !! i = Some k
             /\ layer !! k = Some span /\ isSpan span = true
             /\ forall j e,
                  layer' !! j = Some e ->
                  (data_hl (node e) = true <-> S j = k \/ j = k \/ j = S k)
       end.
Proof.
  intros Hl q located.
  rewrite (HintedPaneProofs.hinted_highlightQuote_layer p quote refs layer Hl).
  rewrite spansOf_cleared, locate_cleared. fold q. fold located.
  assert (Hloc : forall i, located = Some i -> i < length (spansOf layer)).
  { intros i. unfold located. destruct (length q =? 0); [discriminate|].
    apply locate_bound. }
  clearbody located. clear q.
  eexists. split; [reflexivity|].
  destruct located as [i|].
  - specialize (Hloc i eq_refl).
    destruct (lookup_lt_is_Some_2 (spanPositions 0 layer) i) as [k Hk];
      [rewrite HintedPaneProofs.spanPositions_length; exact Hloc|].
    destruct (HintedPaneProofs.spanPositions_lookup layer 0 i k Hk)
      as (_ & span & Hspan & His & _).
    rewrite Nat.sub_0_r in Hspan.
    split; [rewrite HintedPaneProofs.highlightSpan_length; apply length_fmap|].
    split.
    + intros j e e' He. rewrite HintedPaneProofs.highlightSpan_lookup.
      rewrite list_lookup_fmap, He, HintedPaneProofs.spanPositions_cleared, Hk.
      destruct ((S j =? k) || (j =? k) || (j =? S k)); intros [= <-];
        (split; [reflexivity | apply HintedPaneProofs.hinted_clearSpan_text]).
    + exists k, span. split; [exact Hk|]. split; [exact Hspan|]. split; [exact His|].
      intros j e. rewrite HintedPaneProofs.highlightSpan_lookup.
      rewrite list_lookup_fmap, HintedPaneProofs.spanPositions_cleared, Hk.
      destruct (layer !! j) as [e0|]; [|discriminate].
      destruct ((S j =? k) || (j =? k) || (j =? S k)) eqn:Hc; intros [= <-].
      * split; [|reflexivity]. intros _.
        rewrite !orb_true_iff, !Nat.eqb_eq in Hc. tauto.
      * cbn [clearElement node]. rewrite HintedPaneProofs.hinted_clearSpan_hl.
        split; [discriminate|]. intros Hor.
        rewrite !orb_false_iff, !Nat.eqb_neq in Hc. lia.
  - split; [apply length_fmap|]. split.
    + intros j e e' He. rewrite list_lookup_fmap, He. intros [= <-].
      split; [reflexivity | apply HintedPaneProofs.hinted_clearSpan_text].
    + intros e (e0 & -> & _)%list_elem_of_fmap.
      apply HintedPaneProofs.hinted_clearSpan_hl.
Qed.

Lemma hinted_highlightQuote_marks_witness :
  let refs : gmap nat PageHost := <[1 := mkHost (Some Samples.hintedLines)]> ∅ in
  exists layer',
    highlightQuote 1 (JStr (js "def")) refs
    = Normal (<[1 := mkHost (Some layer')]> refs, true)
    /\ (fun e => (isSpan e, data_hl (node e))) <$> layer'
       = [(true, false); (false, true); (true, true); (false, true); (true, false)].
Proof.
  intros refs.
  destruct (hinted_highlightQuote_marks 1 (JStr (js "def")) refs Samples.hintedLines
              ltac:(vm_compute; reflexivity))
    as (layer' & Hrun & _).
  exists layer'.
  assert (Hval : highlightQuote 1 (JStr (js "def")) refs
                 = Normal (<[1 := mkHost (Some (highlightSpan 1 Samples.hintedLines))]> refs,
                           true))
    by (vm_compute; reflexivity).
  rewrite Hval in Hrun.
  pose proof (f_equal (fun r => match r with
                                | Normal (m, _) => m !! 1
                                | ThrowTypeError => None
                                end) Hrun) as Hmap.
  cbv beta iota in Hmap. rewrite !lookup_insert_eq in Hmap.
  injection Hmap as <-. split; [exact Hval|]. reflexivity.
Defined.

End HintedPaneMore.

(** * Sample quotes *)

Module QuoteGenFacts.
Import QuoteGen.

Lemma stripStart_suffix s : exists junk, s = junk ++ stripStart s.
Proof.
  induction s as [|c s [junk IH]]; simpl.
  - exists []. reflexivity.
  - destruct (is_alnum c).
    + exists []. reflexivity.
    + exists (c :: junk). simpl. f_equal. exact IH.
Qed.

Lemma stripStart_head s c : head (stripStart s) = Some c -> is_alnum c = true.
Proof.
  induction s as [|a s IH]; simpl; [discriminate|].
  destruct (is_alnum a) eqn:Ha; [|exact IH].
  simpl. intros [= <-]. exact Ha.
Qed.

Lemma stripEnd_prefix s : exists junk, s = stripEnd s ++ junk.
Proof.
  unfold stripEnd. destruct (stripStart_suffix (rev s)) as [junk H].
  exists (rev junk). rewrite <- (rev_involutive s), H at 1.
  apply rev_app_distr.
Qed.

Lemma last_of_rev (l : jsstring) : last (rev l) = head l.
Proof. destruct l as [|c l]; [reflexivity|]. simpl. apply last_snoc. Qed.

Lemma stripEnd_last s c : last (stripEnd s) = Some c -> is_alnum c = true.
Proof. unfold stripEnd. rewrite last_of_rev. apply stripStart_head. Qed.

Lemma stripEnd_head s c :
  head (stripEnd s) = Some c -> head s = Some c.
Proof.
  destruct (stripEnd_prefix s) as [junk H]. intros Hc. rewrite H.
  destruct (stripEnd s); [discriminate | exact Hc].
Qed.

(** X23. What [randomQuoteFromText] returns, whatever the two random
    draws: a contiguous piece of the text once its white space is
    collapsed and trimmed; the whole cleaned text when that has at most
    [minLen + 10] characters; otherwise at most [maxLen] characters that,
    unless nothing is left, begin and end with a letter or a digit. *)
Theorem randomQuote_is_part_of_text (text : JsVal) (minLen maxLen draw1 draw2 : nat) :
  minLen <= maxLen -> draw1 <= maxLen - minLen ->
  let clean := trim (collapse_ws (or_empty text)) in
  let r := randomQuoteFromText text minLen maxLen draw1 draw2 in
  (exists pre post, clean = pre ++ r ++ post)
  /\ (length clean <= minLen + 10 -> r = clean)
  /\ (minLen + 10 < length clean ->
      length r <= maxLen
      /\ (forall c, head r = Some c -> is_alnum c = true)
      /\ (forall c, last r = Some c -> is_alnum c = true)).
Proof.
  intros Hmm Hd clean r. subst r. unfold randomQuoteFromText. fold clean.
  clearbody clean. cbv zeta.
  destruct (length clean =? 0) eqn:H0.
  { apply Nat.eqb_eq, length_zero_iff_nil in H0. subst clean.
    split; [exists [], []; reflexivity|]. split; [reflexivity|].
    simpl. intros; lia. }
  destruct (length clean <=? minLen + 10) eqn:Hshort.
  { apply Nat.leb_le in Hshort.
    split; [exists [], []; rewrite app_nil_r; reflexivity|].
    split; [reflexivity|]. intros; lia. }
  apply Nat.leb_gt in Hshort.
  set (snippet := slice draw2 (draw2 + (draw1 + minLen)) clean).
  destruct (stripStart_suffix snippet) as [j1 H1].
  destruct (stripEnd_prefix (stripStart snippet)) as [j2 H2].
  split; [|split; [intros; lia|intros _; split; [|split]]].
  - exists (take draw2 clean ++ j1),
      (j2 ++ drop (draw2 + (draw1 + minLen) - draw2) (drop draw2 clean)).
    rewrite <- (take_drop draw2 clean) at 1.
    rewrite <- (take_drop (draw2 + (draw1 + minLen) - draw2) (drop draw2 clean)) at 1.
    fold (slice draw2 (draw2 + (draw1 + minLen)) clean). fold snippet.
    rewrite H1 at 1. rewrite H2 at 1. rewrite <- !app_assoc. reflexivity.
  - assert (Hs : length snippet <= draw1 + minLen).
    { unfold snippet, slice. rewrite length_take. lia. }
    rewrite H1, H2, !length_app in Hs. lia.
  - intros c Hc. apply stripEnd_head in Hc. apply (stripStart_head _ _ Hc).
  - intros c. apply stripEnd_last.
Qed.

Lemma randomQuote_is_part_of_text_witness :
  length (randomQuoteFromText
            (JStr (js "  (see Annex 4) the tenant pays rent monthly; and so on and so forth"))
            10 20 5 6) <= 20.
Proof.
  apply (randomQuote_is_part_of_text
           (JStr (js "  (see Annex 4) the tenant pays rent monthly; and so on and so forth"))
           10 20 5 6);
    vm_compute; lia.
Defined.

End QuoteGenFacts.

(** * The upload and processing state *)

Module DocProcessingFacts.
Import DocProcessing.

Lemma updateProgress_status s p h : status (updateProgress s p h) = s.
Proof. destruct p; reflexivity. Qed.

Lemma updateProgress_document s p h :
  document (updateProgress s p h) = document h.
Proof. destruct p; reflexivity. Qed.

Lemma updateProgress_progress s p h :
  progress (updateProgress s p h)
  = match p with PNum n => PNum n | _ => PNum (progressMap s) end.
Proof. destruct p; reflexivity. Qed.

Lemma is_status_spec name v : is_status name v = true <-> v = JStr (js name).
Proof.
  destruct v as [| |s]; simpl; try (split; [discriminate | discriminate]).
  rewrite bool_decide_eq_true. split; [intros ->; reflexivity | intros [= ->]; reflexivity].
Qed.

Lemma onJobStatus_status j h :
  status (onJobStatus j h)
  = if is_status "ready" (job_status j) then Ready
    else if is_status "failed" (job_status j) then Failed
    else status h.
Proof.
  unfold onJobStatus. cbv zeta.
  destruct (is_status "ready" (job_status j)); [apply updateProgress_status|].
  destruct (is_status "failed" (job_status j)); [apply updateProgress_status|].
  reflexivity.
Qed.

Lemma onJobStatus_document j h : is_Some (document (onJobStatus j h)).
Proof.
  unfold onJobStatus. cbv zeta.
  destruct (is_status "ready" (job_status j));
    [rewrite updateProgress_document; eexists; reflexivity|].
  destruct (is_status "failed" (job_status j));
    [rewrite updateProgress_document; eexists; reflexivity|].
  eexists; reflexivity.
Qed.

Lemma run_snoc acts a h : run (acts ++ [a]) h = step (run acts h) a.
Proof. unfold run. apply foldl_snoc. Qed.

(** X24. Whatever the order in which uploads, polling responses and
    resets run, the hook's [status] is never ['processing']: while the
    server processes the job the status stays ['queued'] and only the
    document's own status follows the server.  The status is ['queued']
    only with a document set, and ['ready'] only after a polling
    response with status ['ready']. *)
Theorem hook_status_never_processing (acts : list Action) :
  let h := run acts initial in
  status h <> Processing
  /\ (status h = Queued -> is_Some (document h))
  /\ (status h = Ready ->
      exists j, JobStatusArrived j ∈ acts /\ job_status j = JStr (js "ready")).
Proof.
  cbv zeta. induction acts as [|a acts IH] using rev_ind.
  { split; [discriminate|]. split; discriminate. }
  rewrite run_snoc. destruct IH as (Hp & Hq & Hr).
  assert (Hold : status (run acts initial) = Ready ->
                 exists j, JobStatusArrived j ∈ acts ++ [a]
                           /\ job_status j = JStr (js "ready")).
  { intros H. destruct (Hr H) as (j & Hj & Hs). exists j.
    split; [apply elem_of_app; left; exact Hj | exact Hs]. }
  destruct a as [|name id|msg|j| |]; simpl.
  - split; [discriminate|]. split; discriminate.
  - split; [discriminate|]. split; [intros _; eexists; reflexivity | discriminate].
  - split; [discriminate|]. split; discriminate.
  - rewrite onJobStatus_status.
    destruct (is_status "ready" (job_status j)) eqn:Hready.
    { split; [discriminate|]. split; [discriminate|]. intros _. exists j.
      split; [apply elem_of_app; right; left
             | exact (proj1 (is_status_spec "ready" (job_status j)) Hready)]. }
    destruct (is_status "failed" (job_status j)).
    { split; [discriminate|]. split; discriminate. }
    split; [exact Hp|]. split; [intros _; apply onJobStatus_document | exact Hold].
  - split; [exact Hp|]. split; [exact Hq | exact Hold].
  - split; [discriminate|]. split; discriminate.
Qed.

(** X25. One polling response: with status ['ready'] or ['failed'] the
    hook takes that status and the job's progress when that is a
    number, and 100 for ['ready'], 0 for ['failed'] when the job gave
    [null] or none; with any other status the hook keeps its status and
    takes the job's progress as it is.  The document keeps its id and
    takes the job's status, and its title only when the job names
    one. *)
Theorem job_status_settles_progress (j : JobStatus) (h : Hook) :
  let h' := onJobStatus j h in
  (job_status j = JStr (js "ready") ->
   status h' = Ready
   /\ progress h' = match job_progress j with PNum n => PNum n | _ => PNum 100 end)
  /\ (job_status j = JStr (js "failed") ->
      status h' = Failed
      /\ progress h' = match job_progress j with PNum n => PNum n | _ => PNum 0 end)
  /\ (job_status j <> JStr (js "ready") -> job_status j <> JStr (js "failed") ->
      status h' = status h /\ progress h' = job_progress j)
  /\ document h'
     = Some (mkDoc (from_option doc_id JUndefined (document h))
               (if truthy (job_title j) then job_title j
                else from_option doc_title JUndefined (document h))
               (job_status j)).
Proof.
  cbv zeta. split; [|split; [|split]].
  - intros Hs. unfold onJobStatus. cbv zeta.
    rewrite (proj2 (is_status_spec "ready" _) Hs).
    rewrite updateProgress_status, updateProgress_progress. split; reflexivity.
  - intros Hs. unfold onJobStatus. cbv zeta. rewrite Hs.
    change (is_status "ready" (JStr (js "failed"))) with false.
    change (is_status "failed" (JStr (js "failed"))) with true.
    cbv iota. rewrite updateProgress_status, updateProgress_progress.
    split; reflexivity.
  - intros Hr Hf. unfold onJobStatus. cbv zeta.
    destruct (is_status "ready" (job_status j)) eqn:E1;
      [apply is_status_spec in E1; contradiction|].
    destruct (is_status "failed" (job_status j)) eqn:E2;
      [apply is_status_spec in E2; contradiction|].
    split; reflexivity.
  - unfold onJobStatus. cbv zeta.
    destruct (is_status "ready" (job_status j));
      [rewrite updateProgress_document; reflexivity|].
    destruct (is_status "failed" (job_status j));
      [rewrite updateProgress_document; reflexivity|].
    reflexivity.
Qed.

End DocProcessingFacts.
